(** * FlexStream: capture-and-relay pipeline of [app.py]

    A shallow embedding of the Flask application [app.py] and of the
    library calls it makes, followed by the properties of the playlist
    relay, the segment relay and its query string, the m3u8 capture loop,
    the variant selector, the title resolver, the player frame, the
    resolver endpoint and the MPEG-TS extraction.

    Conventions.
    - A Python [str] is the list of its code points ([list N]); a [bytes]
      object is the list of its byte values ([list N], each below 256).
    - A call that can raise returns an [outcome]: [Return v] or [Raise e].
    - The network, the browser and the fuzzy scorer are not part of the
      application: they are variables of the sections that use them. *)

From Stdlib Require Import NArith ZArith QArith String Ascii Sorted.
From stdpp Require Import base list gmap.

Open Scope N_scope.

(** ** Python values *)

(** A string literal of the source, as code points. *)
Definition lit (s : string) : list N :=
  map N_of_ascii (list_ascii_of_string s).

(** Exceptions: the class name and [str(e)]. *)
Record exn := Exn { exn_class : string; exn_text : list N }.

Inductive outcome (A : Type) : Type :=
| Return (a : A)
| Raise (e : exn).
Arguments Return {A} a.
Arguments Raise {A} e.

#[global] Instance outcome_ret : MRet outcome := fun _ a => Return a.

#[global] Instance outcome_bind : MBind outcome := fun _ _ k m =>
  match m with
  | Return a => k a
  | Raise e => Raise e
  end.

(** ** [str] methods used by the application *)

Module Py.

(** [str.isspace] on one code point (CPython's [_PyUnicode_IsWhitespace]). *)
Definition isspace (c : N) : bool :=
  ((9 <=? c) && (c <=? 13)) || ((28 <=? c) && (c <=? 32))
  || (c =? 0x85) || (c =? 0xA0) || (c =? 0x1680)
  || ((0x2000 <=? c) && (c <=? 0x200A))
  || (c =? 0x2028) || (c =? 0x2029) || (c =? 0x202F)
  || (c =? 0x205F) || (c =? 0x3000).

Fixpoint lstrip (s : list N) : list N :=
  match s with
  | c :: t => if isspace c then lstrip t else s
  | [] => []
  end.

Definition rstrip (s : list N) : list N := rev (lstrip (rev s)).

(** [s.strip()] *)
Definition strip (s : list N) : list N := rstrip (lstrip s).

(** Line boundaries of [str.splitlines], except the pair CR LF. *)
Definition is_linebreak (c : N) : bool :=
  ((10 <=? c) && (c <=? 13)) || ((28 <=? c) && (c <=? 30))
  || (c =? 0x85) || (c =? 0x2028) || (c =? 0x2029).

(** [s.splitlines()]: [cur] is the current line, reversed.  CR LF is one
    boundary; a boundary at the very end opens no further line. *)
Fixpoint splitlines_from (cur : list N) (s : list N) : list (list N) :=
  match s with
  | [] => match cur with [] => [] | _ => [rev cur] end
  | c :: t =>
      if c =? 13 then
        match t with
        | d :: t' =>
            if d =? 10 then rev cur :: splitlines_from [] t'
            else rev cur :: splitlines_from [] t
        | [] => [rev cur]
        end
      else if is_linebreak c then rev cur :: splitlines_from [] t
      else splitlines_from (c :: cur) t
  end.

Definition splitlines (s : list N) : list (list N) := splitlines_from [] s.

(** [s.startswith(p)] *)
Fixpoint startswith (s p : list N) : bool :=
  match p, s with
  | [], _ => true
  | a :: p', b :: s' => (a =? b) && startswith s' p'
  | _ :: _, [] => false
  end.

(** [p in s] for strings. *)
Fixpoint contains (s p : list N) : bool :=
  startswith s p ||
  match s with
  | [] => false
  | _ :: t => contains t p
  end.

(** [sep.join(parts)] *)
Fixpoint join (sep : list N) (parts : list (list N)) : list N :=
  match parts with
  | [] => []
  | [x] => x
  | x :: rest => x ++ sep ++ join sep rest
  end.

(** [s.replace(a, b)] for one-character [a] and [b]. *)
Definition replace1 (a b : N) (s : list N) : list N :=
  map (fun c => if c =? a then b else c) s.

(** Truth value of a string: [bool(s)]. *)
Definition truthy (s : list N) : bool :=
  match s with [] => false | _ => true end.

(** [str(n)] for a non-negative integer. *)
Fixpoint digits_of_uint (d : Decimal.uint) : list N :=
  match d with
  | Decimal.Nil => []
  | Decimal.D0 r => 48 :: digits_of_uint r
  | Decimal.D1 r => 49 :: digits_of_uint r
  | Decimal.D2 r => 50 :: digits_of_uint r
  | Decimal.D3 r => 51 :: digits_of_uint r
  | Decimal.D4 r => 52 :: digits_of_uint r
  | Decimal.D5 r => 53 :: digits_of_uint r
  | Decimal.D6 r => 54 :: digits_of_uint r
  | Decimal.D7 r => 55 :: digits_of_uint r
  | Decimal.D8 r => 56 :: digits_of_uint r
  | Decimal.D9 r => 57 :: digits_of_uint r
  end.

Definition str_of_int (n : N) : list N := digits_of_uint (N.to_uint n).

End Py.

(** ** The UTF-8 codec and [urllib.parse] quoting *)

Module Url.

(** [s.encode('utf-8')], strict: a lone surrogate raises
    [UnicodeEncodeError].  Values from [0x110000] on are not code points
    of any [str]; they are rejected in the same way. *)
Definition encode_char (c : N) : option (list N) :=
  if c <? 0x80 then Some [c]
  else if c <? 0x800 then Some [0xC0 + c / 64; 0x80 + c mod 64]
  else if c <? 0x10000 then
    if (0xD800 <=? c) && (c <=? 0xDFFF) then None
    else Some [0xE0 + c / 4096; 0x80 + (c / 64) mod 64; 0x80 + c mod 64]
  else if c <? 0x110000 then
    Some [0xF0 + c / 262144; 0x80 + (c / 4096) mod 64;
          0x80 + (c / 64) mod 64; 0x80 + c mod 64]
  else None.

Definition UnicodeEncodeError : exn :=
  Exn "UnicodeEncodeError" (lit "'utf-8' codec can't encode character").

Fixpoint utf8_encode (s : list N) : outcome (list N) :=
  match s with
  | [] => Return []
  | c :: t =>
      match encode_char c with
      | Some bs => rest ← utf8_encode t; Return (bs ++ rest)
      | None => Raise UnicodeEncodeError
      end
  end.

(** Continuation byte. *)
Definition cont (b : N) : bool := (0x80 <=? b) && (b <=? 0xBF).

(** Admissible second byte after the lead byte [b0] of a three-byte
    sequence (no overlong form, no surrogate). *)
Definition second3 (b0 b1 : N) : bool :=
  if b0 =? 0xE0 then (0xA0 <=? b1) && (b1 <=? 0xBF)
  else if b0 =? 0xED then (0x80 <=? b1) && (b1 <=? 0x9F)
  else cont b1.

(** Admissible second byte of a four-byte sequence (no overlong form,
    nothing above U+10FFFF). *)
Definition second4 (b0 b1 : N) : bool :=
  if b0 =? 0xF0 then (0x90 <=? b1) && (b1 <=? 0xBF)
  else if b0 =? 0xF4 then (0x80 <=? b1) && (b1 <=? 0x8F)
  else cont b1.

(** [bs.decode('utf-8', errors=...)] for the two handlers the application
    reaches: [repl] is [[0xFFFD]] for ['replace'] and [[]] for ['ignore'].
    Each maximal ill-formed prefix is handled as one error and decoding
    resumes at the first byte that did not fit. *)
Fixpoint utf8_decode (repl : list N) (bs : list N) : list N :=
  match bs with
  | [] => []
  | b0 :: t =>
      if b0 <? 0x80 then b0 :: utf8_decode repl t
      else if (0xC2 <=? b0) && (b0 <=? 0xDF) then
        match t with
        | b1 :: t1 =>
            if cont b1
            then ((b0 - 0xC0) * 64 + (b1 - 0x80)) :: utf8_decode repl t1
            else repl ++ utf8_decode repl t
        | [] => repl
        end
      else if (0xE0 <=? b0) && (b0 <=? 0xEF) then
        match t with
        | b1 :: t1 =>
            if second3 b0 b1 then
              match t1 with
              | b2 :: t2 =>
                  if cont b2
                  then ((b0 - 0xE0) * 4096 + (b1 - 0x80) * 64 + (b2 - 0x80))
                         :: utf8_decode repl t2
                  else repl ++ utf8_decode repl t1
              | [] => repl
              end
            else repl ++ utf8_decode repl t
        | [] => repl
        end
      else if (0xF0 <=? b0) && (b0 <=? 0xF4) then
        match t with
        | b1 :: t1 =>
            if second4 b0 b1 then
              match t1 with
              | b2 :: t2 =>
                  if cont b2 then
                    match t2 with
                    | b3 :: t3 =>
                        if cont b3
                        then ((b0 - 0xF0) * 262144 + (b1 - 0x80) * 4096
                              + (b2 - 0x80) * 64 + (b3 - 0x80))
                               :: utf8_decode repl t3
                        else repl ++ utf8_decode repl t2
                    | [] => repl
                    end
                  else repl ++ utf8_decode repl t1
              | [] => repl
              end
            else repl ++ utf8_decode repl t
        | [] => repl
        end
      else repl ++ utf8_decode repl t
  end.

Definition errors_replace : list N := [0xFFFD].
Definition errors_ignore : list N := [].

(** [_ALWAYS_SAFE]: letters, digits and [_.-~]. *)
Definition always_safe (b : N) : bool :=
  ((65 <=? b) && (b <=? 90)) || ((97 <=? b) && (b <=? 122))
  || ((48 <=? b) && (b <=? 57))
  || (b =? 95) || (b =? 46) || (b =? 45) || (b =? 126).

(** One digit of ['{:02X}']. *)
Definition hex_upper (d : N) : N := if d <? 10 then 48 + d else 55 + d.

(** [Quoter.__missing__]: a safe byte is kept, any other becomes [%XX]. *)
Definition quoter (safe : list N) (b : N) : list N :=
  if always_safe b || existsb (N.eqb b) safe then [b]
  else [37; hex_upper (b / 16); hex_upper (b mod 16)].

(** [quote(s, safe)] *)
Definition quote (safe : list N) (s : list N) : outcome (list N) :=
  bs ← utf8_encode s; Return (flat_map (quoter safe) bs).

(** [quote_plus(s)]: with a space in [s], spaces are declared safe and
    then turned into [+]. *)
Definition quote_plus (s : list N) : outcome (list N) :=
  if existsb (N.eqb 32) s then
    q ← quote [32] s; Return (Py.replace1 32 43 q)
  else quote [] s.

(** Value of a hexadecimal digit ([0-9A-Fa-f]). *)
Definition hex_value (c : N) : option N :=
  if (48 <=? c) && (c <=? 57) then Some (c - 48)
  else if (65 <=? c) && (c <=? 70) then Some (c - 55)
  else if (97 <=? c) && (c <=? 102) then Some (c - 87)
  else None.

(** [unquote_to_bytes] on an ASCII string: [%] followed by two
    hexadecimal digits is one byte, any other [%] stays. *)
Fixpoint unquote_to_bytes (s : list N) : list N :=
  match s with
  | [] => []
  | c :: t =>
      if c =? 37 then
        match t with
        | h :: l :: t' =>
            match hex_value h, hex_value l with
            | Some x, Some y => (16 * x + y) :: unquote_to_bytes t'
            | _, _ => c :: unquote_to_bytes t
            end
        | _ => c :: unquote_to_bytes t
        end
      else c :: unquote_to_bytes t
  end.

(** One maximal ASCII run of [unquote]: percent-decode, then decode the
    bytes as UTF-8 with ['replace']. *)
Definition unquote_run (run : list N) : list N :=
  utf8_decode errors_replace (unquote_to_bytes run).

(** The parts of [unquote]: maximal runs of ASCII characters ([run] is
    the current one, reversed) are decoded, the characters between them
    are kept. *)
Fixpoint unquote_parts (run : list N) (s : list N) : list N :=
  match s with
  | [] => unquote_run (rev run)
  | c :: t =>
      if c <? 128 then unquote_parts (c :: run) t
      else unquote_run (rev run) ++ c :: unquote_parts [] t
  end.

(** [unquote(s)] *)
Definition unquote (s : list N) : list N :=
  if existsb (N.eqb 37) s then unquote_parts [] s else s.

(** [unquote_plus(s)] *)
Definition unquote_plus (s : list N) : list N :=
  unquote (Py.replace1 43 32 s).


(** [s.split(sep)] for a separator of one character. *)
Fixpoint split (sep : N) (s : list N) : list (list N) :=
  match s with
  | [] => [[]]
  | c :: t =>
      if c =? sep then [] :: split sep t
      else
        match split sep t with
        | p :: ps => (c :: p) :: ps
        | [] => [[c]]
        end
  end.

(** [s.split(sep, 1)]: the part before the first [sep] and, if there is
    a [sep], the part behind it. *)
Fixpoint split_once (sep : N) (s : list N) : list N * option (list N) :=
  match s with
  | [] => ([], None)
  | c :: t =>
      if c =? sep then ([], Some t)
      else let '(before, behind) := split_once sep t in (c :: before, behind)
  end.

(** [parse_qsl(qs, keep_blank_values=True)]: the pieces between the [&]
    that are not empty, each cut at its first [=] into a name and a
    value (an empty value without [=]), both decoded as [unquote_plus]
    does. *)
Definition parse_qsl (qs : list N) : list (list N * list N) :=
  flat_map (fun name_value =>
      if negb (Py.truthy name_value) then []
      else
        let '(name, value) := split_once 61 name_value in
        [(unquote_plus name, unquote_plus (default [] value))])
    (split 38 qs).

End Url.

(** ** The query string of a request, as Flask hands it to a view *)

Module Flask.

(** [request.args.get(key)] for the query string of the request: the
    first value that [parse_qsl] gives for [key], or [None]. *)
Definition args_get (key query_string : list N) : option (list N) :=
  snd <$> head (filter (fun name_value => name_value.1 = key)
                  (Url.parse_qsl query_string)).

End Flask.


(** ** The application *)

(** [requests.Response], as far as the application reads it. *)
Record http_response := HttpResponse {
  status_code : N;
  content : list N;      (* r.content, bytes *)
  text : list N          (* r.text, str *)
}.

(** Body of a Flask response: a [str] or a [bytes] object. *)
Inductive body := Text (s : list N) | Bytes (b : list N).

(** What a view function hands back to Flask. *)
Record response := Response {
  status : N;
  payload : body;
  mimetype : string;
  headers : gmap string (list N)
}.

(** A view returning the tuple [(text, code)]. *)
Definition plain (s : list N) (code : N) : response :=
  Response code (Text s) "text/html" ∅.

(** One value of [_playlist_cache]: [{'data': ..., 'ts': ...}]. *)
Record cache_entry := CacheEntry { data : list N; ts : Q }.

(** The state a request can touch: the module-level [_playlist_cache]
    and, as a record of what went out, the URLs requested upstream (the
    oldest first). *)
Record app_state := AppState {
  playlist_cache : gmap (list N) cache_entry;
  upstream : list (list N)
}.

(** Computations of the application: state passing with exceptions; the
    state reached when an exception is raised is kept. *)
Definition action (A : Type) : Type := app_state → outcome A * app_state.

#[global] Instance action_ret : MRet action := fun _ a st => (Return a, st).

#[global] Instance action_bind : MBind action := fun _ _ k m st =>
  match m st with
  | (Return a, st') => k a st'
  | (Raise e, st') => (Raise e, st')
  end.

(** A computation without effect on the state. *)
Definition lift {A} (o : outcome A) : action A := fun st => (o, st).

(** [try: m  except Exception as e: h e] *)
Definition action_try {A} (m : action A) (h : exn → action A) : action A := fun st =>
  match m st with
  | (Return a, st') => (Return a, st')
  | (Raise e, st') => h e st'
  end.

(** [_playlist_cache.get(url)] *)
Definition cache_get (url : list N) : action (option cache_entry) := fun st =>
  (Return (playlist_cache st !! url), st).

(** [_playlist_cache[url] = e] *)
Definition cache_set (url : list N) (e : cache_entry) : action unit := fun st =>
  (Return (), AppState (<[url := e]> (playlist_cache st)) (upstream st)).

Definition CACHE_TTL : Q := 5.

Definition Qltb (x y : Q) : bool := negb (Qle_bool y x).

Definition HTTPError : exn := Exn "HTTPError" (lit "Client or server error").

(** ** Playwright, as seen from [capture_first_m3u8] *)

(** One Playwright call: the requests the page sends while the call runs
    (each one is handed to the ["request"] listener, in order) and whether
    the call ends by raising. *)
Record call := Call { requests : list (list N); raises : bool }.

(** [page.query_selector(sel)] and, when it finds an element, the
    [el.click()] that follows. *)
Record probe := Probe { query : call; element : option call }.

(** One browser session: what each of the calls made on it does. *)
Record session := Session {
  launch_raises : bool;   (* sync_playwright, launch, new_context, new_page *)
  goto : call;            (* page.goto(page_url, ...) *)
  select : string → probe;
  mouse_click : call;     (* page.mouse.click(640, 360) *)
  wait : nat → call;      (* the i-th page.wait_for_timeout(500) *)
  close : call            (* context.close(); browser.close() *)
}.

Definition PlaywrightError : exn := Exn "Error" (lit "playwright").

(** ** Regular expressions of the [re] module, as far as the patterns of
    the application go *)

Inductive regex :=
| Lit (s : list N)          (* literal characters *)
| Plus (cls : N → bool)     (* a character class followed by +, greedy *)
| Cat (r1 r2 : regex)
| Group (r : regex).        (* a capturing group *)

Module Re.

(** [cls+] followed by [k]: the longest run first, then shorter ones. *)
Fixpoint plus_match {R} (cls : N → bool) (s : list N)
    (k : list N → option R) : option R :=
  match s with
  | c :: t =>
      if cls c then
        match plus_match cls t k with
        | Some r => Some r
        | None => k t
        end
      else None
  | [] => None
  end.

(** Backtracking match of [r] at the start of [s]; [caps] are the groups
    closed so far, [k] is what remains to be matched. *)
Fixpoint rmatch {R} (r : regex) (s : list N) (caps : list (list N))
    (k : list N → list (list N) → option R) : option R :=
  match r with
  | Lit l => if Py.startswith s l then k (drop (length l) s) caps else None
  | Plus cls => plus_match cls s (fun s' => k s' caps)
  | Cat r1 r2 => rmatch r1 s caps (fun s' caps' => rmatch r2 s' caps' k)
  | Group r1 =>
      rmatch r1 s caps
        (fun s' caps' => k s' (caps' ++ [take (length s - length s') s]))
  end.

(** A match at the start of [s]: the groups and the rest of the input. *)
Definition match_here (r : regex) (s : list N)
    : option (list (list N) * list N) :=
  rmatch r s [] (fun s' caps => Some (caps, s')).

(** [re.search(r, s)]: the groups of the leftmost match. *)
Fixpoint search (r : regex) (s : list N) : option (list (list N)) :=
  match match_here r s with
  | Some (caps, _) => Some caps
  | None =>
      match s with
      | [] => None
      | _ :: t => search r t
      end
  end.

(** [re.findall(r, s)] for a pattern that matches no empty string: the
    groups of the successive non-overlapping matches.  [skip] counts the
    characters of the last match still to be passed over. *)
Fixpoint findall_from (r : regex) (skip : nat) (s : list N)
    : list (list (list N)) :=
  match s with
  | [] => []
  | _ :: t =>
      match skip with
      | S n => findall_from r n t
      | O =>
          match match_here r s with
          | Some (caps, rest) =>
              caps :: findall_from r (length s - length rest - 1) t
          | None => findall_from r 0 t
          end
      end
  end.

Definition findall (r : regex) (s : list N) : list (list (list N)) :=
  findall_from r 0 s.

End Re.

(** The pattern of [get_player_iframe_src] also has character classes that
    stand for one character: the patterns above, with those. *)
Inductive regex_ext :=
| Base (r : regex)
| One (cls : N → bool)            (* a character class, one character *)
| Seq (r1 r2 : regex_ext)
| Capture (r : regex_ext).        (* a capturing group *)

Module ReExt.

Fixpoint ematch {R} (r : regex_ext) (s : list N) (caps : list (list N))
    (k : list N → list (list N) → option R) : option R :=
  match r with
  | Base r0 => Re.rmatch r0 s caps k
  | One cls =>
      match s with
      | c :: t => if cls c then k t caps else None
      | [] => None
      end
  | Seq r1 r2 => ematch r1 s caps (fun s' caps' => ematch r2 s' caps' k)
  | Capture r1 =>
      ematch r1 s caps
        (fun s' caps' => k s' (caps' ++ [take (length s - length s') s]))
  end.

Definition match_here (r : regex_ext) (s : list N)
    : option (list (list N) * list N) :=
  ematch r s [] (fun s' caps => Some (caps, s')).

(** [re.search(r, s)]: the groups of the leftmost match. *)
Fixpoint search (r : regex_ext) (s : list N) : option (list (list N)) :=
  match match_here r s with
  | Some (caps, _) => Some caps
  | None =>
      match s with
      | [] => None
      | _ :: t => search r t
      end
  end.

End ReExt.

(** ** Sample surroundings

    Concrete stand-ins for what the application takes from outside, used
    to run the definitions on examples. *)

Module Sample.

(** The ASCII digits. *)
Definition ascii_decimal (c : N) : option N :=
  if (48 <=? c) && (c <=? 57) then Some (c - 48) else None.

(** Lower case of the ASCII letters. *)
Definition ascii_lower (s : list N) : list N :=
  map (fun c => if (65 <=? c) && (c <=? 90) then c + 32 else c) s.

Fixpoint after_last_slash (s : list N) : list N :=
  match s with
  | [] => []
  | c :: t => if c =? 47 then s else after_last_slash t
  end.

(** Tabs and line breaks are taken out of the reference.  A reference
    with a scheme then stands for itself; any other is put in the
    directory of the base.  A reference to a host in square brackets that
    are not closed is refused. *)
Definition urljoin (base ref : list N) : outcome (list N) :=
  let ref :=
    List.filter (fun c => negb ((c =? 9) || (c =? 10) || (c =? 13))) ref in
  if Py.startswith ref (lit "//[") && negb (Py.contains ref (lit "]"))
  then Raise (Exn "ValueError" (lit "Invalid IPv6 URL"))
  else if Py.contains ref (lit "://") then Return ref
  else Return (rev (after_last_slash (rev base)) ++ ref).

(** 100 for equal strings, else the share of positions, in percent, at
    which the two strings agree. *)
Fixpoint agree (a b : list N) : nat :=
  match a, b with
  | x :: a', y :: b' => ((if N.eqb x y then 1 else 0) + agree a' b')%nat
  | _, _ => 0%nat
  end.

Definition ratio (a b : list N) : Q :=
  match (length a `max` length b)%nat with
  | O => 100
  | S n => Qmake (100 * Z.of_nat (agree a b)) (Pos.of_succ_nat n)
  end.

Definition master_url : list N := lit "http://cdn.example/live/master.m3u8".
Definition media_url : list N := lit "http://cdn.example/live/hi/index.m3u8".
Definition gone_url : list N := lit "http://cdn.example/live/gone.m3u8".
Definition seg_url : list N := lit "http://cdn.example/live/hi/seg 1.ts".

Definition master_text : list N :=
  Py.join [10]
    [ lit "#EXTM3U";
      lit "#EXT-X-STREAM-INF:BANDWIDTH=800000,RESOLUTION=854x480";
      lit "lo/index.m3u8";
      lit "#EXT-X-STREAM-INF:BANDWIDTH=5000000,RESOLUTION=1920x1080";
      lit "hi/index.m3u8";
      lit "#EXT-X-STREAM-INF:BANDWIDTH=64000";
      lit "audio/index.m3u8";
      lit "#EXT-X-STREAM-INF:BANDWIDTH=6000000,RESOLUTION=1440x1080";
      lit "alt/index.m3u8";
      [] ].

Definition media_text : list N :=
  lit "#EXTM3U" ++ [13; 10]
  ++ lit "#EXT-X-TARGETDURATION:4" ++ [13; 10]
  ++ [13; 10]
  ++ lit "#EXTINF:4.0," ++ [13; 10]
  ++ lit "seg 1.ts" ++ [13; 10]
  ++ lit "  #EXTINF:4.0," ++ [13; 10]
  ++ lit " http://other.example/b/seg2.ts?t=a+b&k=" ++ [0xE9] ++ [13; 10]
  ++ lit "#EXT-X-ENDLIST" ++ [13; 10].

Definition segment_bytes : list N := [0x47; 0x40; 0x00; 0x10; 0xFF; 0x00].

(** A segment with a [+] in its name, next to the one with a space. *)
Definition plus_url : list N := lit "http://cdn.example/live/hi/seg+1.ts".

Definition plus_bytes : list N := [0x47; 0x41; 0x00; 0x11].

(** A master playlist whose best variant has a query string behind its
    name. *)
Definition token_url : list N := lit "http://cdn.example/tok/master.m3u8".

Definition token_text : list N :=
  Py.join [10]
    [ lit "#EXTM3U";
      lit "#EXT-X-STREAM-INF:BANDWIDTH=800000,RESOLUTION=854x480";
      lit "lo/index.m3u8";
      lit "#EXT-X-STREAM-INF:BANDWIDTH=5000000,RESOLUTION=1920x1080";
      lit "hi/index.m3u8?token=abc";
      [] ].

(** A master playlist whose best variant is a playlist of another
    name. *)
Definition named_url : list N := lit "http://cdn.example/nam/master.m3u8".

Definition named_text : list N :=
  Py.join [10]
    [ lit "#EXTM3U";
      lit "#EXT-X-STREAM-INF:BANDWIDTH=800000,RESOLUTION=854x480";
      lit "lo/index.m3u8";
      lit "#EXT-X-STREAM-INF:BANDWIDTH=5000000,RESOLUTION=1920x1080";
      lit "hi/playlist";
      [] ].

(** A media playlist with a segment line that [urljoin] refuses. *)
Definition bad_url : list N := lit "http://cdn.example/live/bad.m3u8".

Definition bad_text : list N :=
  lit "#EXTM3U" ++ [10] ++ lit "//[bad/seg.ts" ++ [10].

(** The origin: master playlists, media playlists, segments, and a
    manifest that is gone. *)
Definition requests_get (url : list N) : outcome http_response :=
  if decide (url = master_url)
  then Return (HttpResponse 200 master_text master_text)
  else if decide (url = media_url)
  then Return (HttpResponse 200 (lit "#EXTM3U" ++ [10] ++ lit "a.ts" ++ [10] ++ [0xC3; 0xA9; 0xFF] ++ lit ".ts") [])
  else if decide (url = seg_url)
  then Return (HttpResponse 200 segment_bytes [])
  else if decide (url = plus_url)
  then Return (HttpResponse 200 plus_bytes [])
  else if decide (url = token_url)
  then Return (HttpResponse 200 token_text token_text)
  else if decide (url = named_url)
  then Return (HttpResponse 200 named_text named_text)
  else if decide (url = bad_url)
  then Return (HttpResponse 200 bad_text bad_text)
  else if decide (url = gone_url)
  then Return (HttpResponse 404 (lit "Not Found") (lit "Not Found"))
  else if Py.startswith url (lit "https://api.themoviedb.org/3/search/multi?")
  then Return (HttpResponse 200 (lit "{}") (lit "{}"))
  else Raise (Exn "ConnectionError" (lit "Max retries exceeded")).

(** The catalog: whatever the query, seven entries, two of them films
    called Dune. *)
Definition movie (id title : string) : gmap string (list N) :=
  {[ "id"%string := lit id; "media_type"%string := lit "movie";
     "title"%string := lit title ]}.

Definition series (id name : string) : gmap string (list N) :=
  {[ "id"%string := lit id; "media_type"%string := lit "tv";
     "name"%string := lit name ]}.

Definition catalog : list (gmap string (list N)) :=
  [ movie "841" "Dune"; series "90228" "DUNE"; movie "438631" "Dune";
    movie "374720" "Dunkirk"; series "1399" "The Dunes"; movie "9" "dune";
    movie "500" "Doom" ].

Definition response_json (r : http_response)
    : outcome (gmap string (list (gmap string (list N)))) :=
  Return {[ "results"%string := catalog ]}.

(** Sessions of the browser. *)
Definition quiet : call := Call [] false.

(** Nothing to click, nothing requested. *)
Definition idle_session : session :=
  Session false quiet (fun _ => Probe quiet None) quiet (fun _ => quiet) quiet.

(** The page never finishes loading; a click on the video element starts
    the player, which asks for two manifests during the third wait. *)
Definition playing_session : session :=
  Session false
    (Call [lit "http://player.example/embed/1"] true)
    (fun sel => if decide (sel = "video"%string)
                then Probe quiet (Some (Call [lit "http://player.example/poster.jpg"] false))
                else Probe quiet None)
    quiet
    (fun i => if decide (i = 2%nat)
              then Call [ lit "http://cdn.example/live/key.bin";
                          lit "http://cdn.example/live/master.m3u8?t=1";
                          lit "http://cdn.example/live/hi/index.m3u8" ] false
              else quiet)
    quiet.

(** The browser does not start. *)
Definition broken_session : session :=
  Session true quiet (fun _ => Probe quiet None) quiet (fun _ => quiet) quiet.

(** The player starts at the third launch. *)
Definition browser_third (page_url : list N) (attempt : nat) : session :=
  if decide (attempt = 3%nat) then playing_session else idle_session.

Definition browser_never (page_url : list N) (attempt : nat) : session :=
  idle_session.

Definition browser_broken (page_url : list N) (attempt : nat) : session :=
  if decide (attempt = 2%nat) then broken_session else idle_session.

(** The resolver's side: the catalog knows the IMDb id of every title, the
    embed page of a film frames a player, and the player's manifest is the
    master playlist above. *)
Definition embed_url : list N := lit "https://vsrc.su/embed/movie?imdb=tt1160419&dts=dd".

Definition player_url : list N := lit "https://player.example/rcp/abc".

Definition embed_page : list N :=
  lit "<html><body><div id='x'><iframe id='player_iframe' src='//player.example/rcp/abc' frameborder='0'></iframe></div></body></html>".

Definition site_get (url : list N) : outcome http_response :=
  if decide (url = embed_url)
  then Return (HttpResponse 200 embed_page embed_page)
  else if Py.startswith url (lit "https://api.themoviedb.org/3/")
  then Return (HttpResponse 200 (lit "{}") (lit "{}"))
  else requests_get url.

Definition json_object (r : http_response) : outcome (gmap string (list N)) :=
  Return {[ "imdb_id"%string := lit "tt1160419" ]}.

(** The player starts at the second launch and asks for the master
    playlist. *)
Definition starting_session : session :=
  Session false quiet (fun _ => Probe quiet None)
    (Call [lit "http://cdn.example/live/master.m3u8"] false)
    (fun _ => quiet) quiet.

Definition browser_second (page_url : list N) (attempt : nat) : session :=
  if bool_decide (page_url = player_url) && bool_decide (attempt = 2%nat)
  then starting_session else idle_session.

(** A transport stream of seven packets behind three bytes of another
    kind, the last packet cut short. *)
Definition ts_packet (fill : N) : list N := 0x47 :: replicate 187 fill.

Definition ts_stream : list N :=
  [0x00; 0x47; 0x01]
  ++ ts_packet 1 ++ ts_packet 2 ++ ts_packet 3 ++ ts_packet 4
  ++ ts_packet 5 ++ ts_packet 6 ++ take 100 (ts_packet 7).

End Sample.

Section App.

Set Default Proof Using "Type*".

(** [urllib.parse.urljoin]: the joined URL, or the [ValueError] of a
    reference that [urlsplit] refuses. *)
Variable urljoin : list N → list N → outcome (list N).

(** [requests.get(url, headers=HEADERS, timeout=...)]: the response, or
    the exception of an origin that cannot be reached. *)
Variable requests_get : list N → outcome http_response.

(** The decimal digits of the Unicode database, with their values: what
    [\d] matches and what [int] reads. *)
Variable unicode_decimal : N → option N.

(** [fuzz.token_sort_ratio] as [process.extractOne] and [process.extract]
    apply it to the query and one choice: a score between 0 and 100. *)
Variable token_sort_ratio : list N → list N → Q.

(** [r.json()] on an answer of the catalog: a dictionary whose values are
    lists of dictionaries (the application reads the key [results] only),
    or the exception of a body that is not JSON. *)
Variable response_json :
  http_response → outcome (gmap string (list (gmap string (list N)))).

(** [String.prototype.toLowerCase] of the page script. *)
Variable toLowerCase : list N → list N.

(** [str.lower] *)
Variable str_lower : list N → list N.

(** [r.json()] on an answer that is one JSON object, as far as the
    application reads it (the key [imdb_id] of the external ids): the
    keys whose value is a string; an exception for a body that is not
    such an object. *)
Variable json_object : http_response → outcome (gmap string (list N)).

(** [requests.get(url, ...)], recorded in [upstream]. *)
Definition http_get (url : list N) : action http_response := fun st =>
  (requests_get url, AppState (playlist_cache st) (upstream st ++ [url])).

(** *** TMDb helpers *)

Definition TMDB_API_KEY : list N := lit "123240ec331a97bb476ad9a05f86c3bf".

Definition search_tmdb (query : list N) : action (list (gmap string (list N))) :=
  q ← lift (Url.quote_plus query);
  r ← http_get (lit "https://api.themoviedb.org/3/search/multi?api_key="
                ++ TMDB_API_KEY ++ lit "&query=" ++ q);
  data ← lift (response_json r);
  (* data.get("results", []) *)
  mret (default [] (data !! "results"%string)).

Definition KeyError (k : string) : exn := Exn "KeyError" (lit k).

(** [r[k]] *)
Definition getitem (r : gmap string (list N)) (k : string) : outcome (list N) :=
  match r !! k with
  | Some v => Return v
  | None => Raise (KeyError k)
  end.

(** [r["title"] if r["media_type"] == "movie" else r["name"]] *)
Definition display_name (r : gmap string (list N)) : outcome (list N) :=
  mt ← getitem r "media_type";
  if decide (mt = lit "movie") then getitem r "title" else getitem r "name".

(** [process.extractOne(query, choices, scorer=...)]: the best choice with
    its score and index, the first one among equals. *)
Fixpoint extractOne_from (query : list N) (i : nat) (choices : list (list N))
    (best : list N * Q * nat) : list N * Q * nat :=
  match choices with
  | [] => best
  | c :: rest =>
      let sc := token_sort_ratio query c in
      if Qltb (best.1.2) sc
      then extractOne_from query (S i) rest (c, sc, i)
      else extractOne_from query (S i) rest best
  end.

Definition extractOne (query : list N) (choices : list (list N))
    : option (list N * Q * nat) :=
  match choices with
  | [] => None
  | c :: rest =>
      Some (extractOne_from query 1 rest (c, token_sort_ratio query c, 0%nat))
  end.

Definition TypeError : exn :=
  Exn "TypeError" (lit "cannot unpack non-iterable NoneType object").

Definition IndexError : exn := Exn "IndexError" (lit "list index out of range").

Definition get_best_match (title : list N) (results : list (gmap string (list N)))
    : outcome (option (gmap string (list N))) :=
  names ← mapM display_name results;
  match names with
  | [] => Return None
  | _ =>
      match extractOne title names with
      | None => Raise TypeError
      | Some (best_name, score, idx) =>
          if negb (Qeq_bool score 0) && Qltb 60 score then
            match results !! idx with
            | Some r => Return (Some r)
            | None => Raise IndexError
            end
          else Return None
      end
  end.

(** *** The player frame *)

Definition not_gt (c : N) : bool := negb (c =? 62).

Definition is_quote (c : N) : bool := (c =? 34) || (c =? 39).

Definition not_quote (c : N) : bool := negb (is_quote c).

(** The pattern of [re.search]: [<iframe], one or more characters other
    than [>], [src=], a quote of either kind, as the group one or more
    characters that are no quote, and a quote of either kind. *)
Definition iframe_re : regex_ext :=
  Seq (Base (Cat (Lit (lit "<iframe")) (Cat (Plus not_gt) (Lit (lit "src=")))))
      (Seq (One is_quote)
           (Seq (Capture (Base (Plus not_quote))) (One is_quote))).

Definition get_player_iframe_src (vsrc_url : list N) : action (option (list N)) :=
  r ← http_get vsrc_url;
  match ReExt.search iframe_re (text r) with
  | None => mret None
  | Some groups =>
      let src := groups !!! 0%nat in
      if Py.startswith src (lit "//") then mret (Some (lit "https:" ++ src))
      else if Py.startswith src (lit "/")
      then src ← lift (urljoin vsrc_url src); mret (Some src)
      else mret (Some src)
  end.

(** *** m3u8 capture *)

(** [captured["url"]] is [None] or a string; its truth value. *)
Definition slot_set (captured : option (list N)) : bool :=
  match captured with
  | Some u => Py.truthy u
  | None => false
  end.

(** The test of [on_request]: when it holds, the slot is assigned. *)
Definition on_request_assigns (url : list N) (captured : option (list N)) : bool :=
  Py.contains url (lit ".m3u8") && negb (slot_set captured).

Definition on_request (url : list N) (captured : option (list N))
    : option (list N) :=
  if on_request_assigns url captured then Some url else captured.

(** The listener runs on every request of a call, whether or not the call
    then raises. *)
Definition listen (urls : list (list N)) (captured : option (list N))
    : option (list N) :=
  foldl (fun cap url => on_request url cap) captured urls.

Definition during (c : call) (captured : option (list N)) : option (list N) :=
  listen (requests c) captured.

Definition selectors : list string :=
  ["button.vjs-play-control"; ".jw-icon-play"; ".play-btn"; "video"]%string.

(** The loop over [selectors]: the slot afterwards and [clicked]. *)
Fixpoint click_first (s : session) (sels : list string)
    (captured : option (list N)) : option (list N) * bool :=
  match sels with
  | [] => (captured, false)
  | sel :: rest =>
      let p := select s sel in
      let captured := during (query p) captured in
      if raises (query p) then click_first s rest captured
      else
        match element p with
        | None => click_first s rest captured
        | Some click =>
            let captured := during click captured in
            if raises click then click_first s rest captured
            else (captured, true)
        end
  end.

(** [for _ in range(n): if captured["url"]: break; page.wait_for_timeout(500)];
    [i] is the number of waits already made. *)
Fixpoint poll (s : session) (n : nat) (i : nat) (captured : option (list N))
    : outcome (option (list N)) :=
  match n with
  | O => Return captured
  | S n' =>
      if slot_set captured then Return captured
      else
        let captured := during (wait s i) captured in
        if raises (wait s i) then Raise PlaywrightError
        else poll s n' (S i) captured
  end.

(** The body of the [with sync_playwright()] block up to the two
    [close] calls: the slot at the end of the session. *)
Definition run_session (s : session) : outcome (option (list N)) :=
  if launch_raises s then Raise PlaywrightError
  else
    let captured := None in
    let captured := during (goto s) captured in
    let '(captured, clicked) := click_first s selectors captured in
    let captured :=
      if clicked then captured else during (mouse_click s) captured in
    captured ← poll s 30 0 captured;
    let captured := during (close s) captured in
    if raises (close s) then Raise PlaywrightError else Return captured.

(** [capture_first_m3u8(page_url, retries)]: [browser n] is the session
    that the [n]-th launch for [page_url] opens.  The result comes with
    the number of sessions opened. *)
Fixpoint capture_attempts (browser : nat → session) (attempt : nat)
    (remaining : nat) (opened : nat) : outcome (option (list N)) * nat :=
  match remaining with
  | O => (Return None, opened)
  | S remaining' =>
      match run_session (browser attempt) with
      | Raise e => (Raise e, S opened)
      | Return captured =>
          if slot_set captured then (Return captured, S opened)
          else capture_attempts browser (S attempt) remaining' (S opened)
      end
  end.

Definition capture_first_m3u8 (browser : list N → nat → session)
    (page_url : list N) (retries : nat) : outcome (option (list N)) * nat :=
  capture_attempts (browser page_url) 1 retries 0.

(** *** Variant selection *)

Definition not_newline (c : N) : bool := negb (c =? 10).

Definition is_digit (c : N) : bool :=
  match unicode_decimal c with Some _ => true | None => false end.

(** [(#EXT-X-STREAM-INF:[^\n]+\n)([^\n]+\.m3u8)] *)
Definition variant_re : regex :=
  Cat (Group (Cat (Lit (lit "#EXT-X-STREAM-INF:"))
                  (Cat (Plus not_newline) (Lit [10]))))
      (Group (Cat (Plus not_newline) (Lit (lit ".m3u8")))).

(** [RESOLUTION=(\d+)x(\d+)] *)
Definition resolution_re : regex :=
  Cat (Lit (lit "RESOLUTION="))
      (Cat (Group (Plus is_digit))
           (Cat (Lit (lit "x")) (Group (Plus is_digit)))).

(** [sys.int_max_str_digits] of CPython 3.11. *)
Definition int_max_str_digits : nat := 4300.

(** The [ValueError] of [int] on a string of [n] digits. *)
Definition IntDigitsError (n : nat) : exn :=
  Exn "ValueError"
    (lit "Exceeds the limit (4300 digits) for integer string conversion: value has "
     ++ Py.str_of_int (N.of_nat n)
     ++ lit " digits; use sys.set_int_max_str_digits() to increase the limit").

(** [int(s)] on a string of decimal digits; more than 4300 of them are
    refused. *)
Definition int_of_digits (s : list N) : outcome N :=
  if (int_max_str_digits <? length s)%nat then Raise (IntDigitsError (length s))
  else Return (foldl (fun acc c => 10 * acc + default 0 (unicode_decimal c)) 0 s).

(** The key of [max]: the second group of [RESOLUTION=(\d+)x(\d+)] in
    [v[0]] as an integer, or 0 without a match. *)
Definition variant_key (v : list (list N)) : outcome N :=
  match Re.search resolution_re (v !!! 0%nat) with
  | Some groups => int_of_digits (groups !!! 1%nat)
  | None => Return 0
  end.

(** [max(items, key=key)] from the second item on: the key of every item
    is computed, in order, and an item replaces the current one only when
    its key is greater. *)
Fixpoint max_from {A} (key : A → outcome N) (best : A) (best_key : N)
    (items : list A) : outcome A :=
  match items with
  | [] => Return best
  | x :: rest =>
      k ← key x;
      if best_key <? k then max_from key x k rest
      else max_from key best best_key rest
  end.

Definition get_best_variant (m3u8_url : list N) : action (list N) :=
  r ← http_get m3u8_url;
  match Re.findall variant_re (text r) with
  | [] => mret m3u8_url
  | v :: rest =>
      k ← lift (variant_key v);
      best ← lift (max_from variant_key v k rest);
      let best_variant := best !!! 1%nat in
      lift (urljoin m3u8_url best_variant)
  end.

(** *** MPEG-TS extraction *)

(** The loop over [k] of [find_mpeg_ts_start], from [k] on with [count]
    turns to go: [good] at its end. *)
Fixpoint following_sync (data : list N) (idx k count : nat) : bool :=
  match count with
  | O => true
  | S count' =>
      let pos := (idx + k * 188)%nat in
      if (length data <=? pos)%nat || negb (data !!! pos =? 0x47) then false
      else following_sync data idx (S k) count'
  end.

(** The loop over [idx] of [find_mpeg_ts_start], from [idx] on with
    [count] turns to go. *)
Fixpoint scan_sync (data : list N) (min_consecutive_packets_check : nat)
    (idx count : nat) : option nat :=
  match count with
  | O => None
  | S count' =>
      if negb (data !!! idx =? 0x47)
      then scan_sync data min_consecutive_packets_check (S idx) count'
      else if following_sync data idx 1 min_consecutive_packets_check
      then Some idx
      else scan_sync data min_consecutive_packets_check (S idx) count'
  end.

Definition find_mpeg_ts_start (data : list N)
    (min_consecutive_packets_check : nat) : option nat :=
  let n := length data in
  let max_scan := (4096 `min` n)%nat in
  scan_sync data min_consecutive_packets_check 0 max_scan.

(** [data[i:j]] for [i <= j] *)
Definition slice (data : list N) (i j : nat) : list N :=
  take (j - i) (drop i data).

(** [data.index(bytes([b]))]: the first place of [b], [None] for the
    [ValueError] of a byte that does not occur. *)
Fixpoint index_of (b : N) (data : list N) : option nat :=
  match data with
  | [] => None
  | c :: rest => if c =? b then Some 0%nat else S <$> index_of b rest
  end.

(** [while i + 188 <= len(data): out.extend(data[i:i + 188]); i += 188]
    for at most [fuel] turns: [out] and [i] afterwards. *)
Fixpoint copy_packets (fuel : nat) (data out : list N) (i : nat)
    : list N * nat :=
  match fuel with
  | O => (out, i)
  | S fuel' =>
      if (i + 188 <=? length data)%nat
      then copy_packets fuel' data (out ++ slice data i (i + 188)) (i + 188)
      else (out, i)
  end.

(** The same loop with the test of the sync byte that ends it. *)
Fixpoint copy_synced (fuel : nat) (data out : list N) (i : nat)
    : list N * nat :=
  match fuel with
  | O => (out, i)
  | S fuel' =>
      if (i + 188 <=? length data)%nat
      then
        let packet := slice data i (i + 188) in
        if negb (packet !!! 0%nat =? 0x47) then (out, i)
        else copy_synced fuel' data (out ++ packet) (i + 188)
      else (out, i)
  end.

(** [extract_ts_packets(data)]; every turn of a loop moves [i] on by 188,
    so that [len(data)] turns are enough. *)
Definition extract_ts_packets (data : list N) : list N :=
  match find_mpeg_ts_start data 5 with
  | None =>
      match index_of 0x47 data with
      | Some fallback => (copy_packets (length data) data [] fallback).1
      | None => []
      end
  | Some start => (copy_synced (length data) data [] start).1
  end.

(** *** HLS proxy helpers *)

(** [r.raise_for_status()] *)
Definition raise_for_status (r : http_response) : outcome unit :=
  if (400 <=? status_code r) && (status_code r <? 600) then Raise HTTPError
  else Return ().

Definition fetch_bytes (url : list N) : action (list N) :=
  r ← http_get url;
  _ ← lift (raise_for_status r);
  mret (content r).

(** One turn of the loop of [rewrite_playlist] on [(new_lines, seq)]. *)
Definition rewrite_line (original_playlist_url : list N)
    (acc : list (list N) * N) (line : list N) : outcome (list (list N) * N) :=
  let '(new_lines, seq) := acc in
  let line_stripped := Py.strip line in
  if negb (Py.truthy line_stripped) || Py.startswith line_stripped (lit "#")
  then Return (new_lines ++ [line], seq)
  else
    abs_url ← urljoin original_playlist_url line_stripped;
    q ← Url.quote_plus abs_url;
    let proxied := lit "/segment?u=" ++ q ++ lit "&i=" ++ Py.str_of_int seq in
    Return (new_lines ++ [proxied], seq + 1).

(** [for x in xs: acc = step acc x], stopping at the first exception. *)
Fixpoint for_each {A S} (step : S → A → outcome S) (acc : S) (xs : list A)
    : outcome S :=
  match xs with
  | [] => Return acc
  | x :: rest => acc' ← step acc x; for_each step acc' rest
  end.

Definition rewrite_playlist (original_playlist_url playlist_text : list N)
    : outcome (list N) :=
  let lines := Py.splitlines playlist_text in
  acc ← for_each (rewrite_line original_playlist_url) ([], 0) lines;
  Return (Py.join [10] acc.1).

(** *** Flask endpoints *)

Definition mpegurl : string := "application/vnd.apple.mpegurl".

(** [proxy_playlist] from the [try] on: the cache had no fresh entry. *)
Definition proxy_playlist_fetch (url : list N) (now : Q) : action response :=
  fetched ← action_try (pl_bytes ← fetch_bytes url; mret (inl pl_bytes))
    (fun e =>
       mret (inr (plain (lit "Failed to fetch playlist: " ++ exn_text e) 502)));
  match fetched with
  | inr failure => mret failure
  | inl pl_bytes =>
      let pl_text := Url.utf8_decode Url.errors_ignore pl_bytes in
      rewritten ← lift (rewrite_playlist url pl_text);
      _ ← cache_set url (CacheEntry rewritten now);
      mret (Response 200 (Text rewritten) mpegurl ∅)
  end.

(** [GET /proxy_playlist]: [url] is [request.args.get("url")] and [now]
    the value of [time.time()]. *)
Definition proxy_playlist (url : option (list N)) (now : Q) : action response :=
  match url with
  | None => mret (plain (lit "Missing url param") 400)
  | Some url =>
      if negb (Py.truthy url) then mret (plain (lit "Missing url param") 400)
      else
        cached ← cache_get url;
        match cached with
        | Some c =>
            if Qltb (now - ts c) CACHE_TTL
            then mret (Response 200 (Text (data c)) mpegurl ∅)
            else proxy_playlist_fetch url now
        | None => proxy_playlist_fetch url now
        end
  end.

(** [GET /segment]: [u] is [request.args.get("u")]. *)
Definition segment (u : option (list N)) : action response :=
  match u with
  | None => mret (plain (lit "Missing u param") 400)
  | Some u =>
      if negb (Py.truthy u) then mret (plain (lit "Missing u param") 400)
      else
        let url := Url.unquote_plus u in
        fetched ← action_try (remote_bytes ← fetch_bytes url; mret (inl remote_bytes))
          (fun e =>
             mret (inr (plain (lit "Failed to fetch remote segment: "
                               ++ exn_text e) 502)));
        match fetched with
        | inr failure => mret failure
        | inl remote_bytes =>
            mret (Response 200 (Bytes remote_bytes) "video/MP2T"
                    {[ "Content-Length"%string :=
                         Py.str_of_int (N.of_nat (length remote_bytes)) ]})
        end
  end.

(** [GET /segment?<query_string>], from the query string of the request
    on. *)
Definition segment_route (query_string : list N) : action response :=
  segment (Flask.args_get (lit "u") query_string).


(** *** Autocomplete *)

(** Insertion of a scored choice into a list sorted by falling score; a
    choice goes behind those of equal score that came before it. *)
Fixpoint insert_scored (x : list N * Q * nat) (sorted : list (list N * Q * nat))
    : list (list N * Q * nat) :=
  match sorted with
  | [] => [x]
  | y :: rest =>
      if Qltb (y.1.2) (x.1.2) then x :: sorted
      else y :: insert_scored x rest
  end.

Fixpoint score_all (query : list N) (i : nat) (choices : list (list N))
    : list (list N * Q * nat) :=
  match choices with
  | [] => []
  | c :: rest => (c, token_sort_ratio query c, i) :: score_all query (S i) rest
  end.

(** [process.extract(query, choices, scorer=..., limit=limit)]: the
    [limit] best choices, best first, equal scores in the order of the
    choices. *)
Definition extract (query : list N) (choices : list (list N)) (limit : nat)
    : list (list N * Q * nat) :=
  take limit
    (foldl (fun sorted x => insert_scored x sorted) [] (score_all query 0 choices)).

(** [GET /autocomplete]: [q] is [request.args.get("q", "")]; the result is
    the list given to [jsonify]. *)
Definition autocomplete (q : list N) : action (list (list N)) :=
  let query := Py.strip q in
  if negb (Py.truthy query) then mret []
  else
    results ← search_tmdb query;
    names ← lift (mapM display_name results);
    let matches := map (fun m => m.1.1) (extract query names 5) in
    mret matches.

(** The page script on the answer of [/autocomplete]:
    [suggestions.filter(s => ...)] with the set [seen]. *)
Fixpoint unique_from (seen : gset (list N)) (suggestions : list (list N))
    : list (list N) :=
  match suggestions with
  | [] => []
  | s :: rest =>
      let lower := toLowerCase s in
      if decide (lower ∈ seen) then unique_from seen rest
      else s :: unique_from ({[ lower ]} ∪ seen) rest
  end.

Definition uniqueSuggestions (suggestions : list (list N)) : list (list N) :=
  unique_from ∅ suggestions.

(** *** The resolver endpoint *)

(** The truth value of a request parameter or of a result that is [None]
    or a string. *)
Definition present (v : option (list N)) : bool :=
  match v with
  | Some s => Py.truthy s
  | None => false
  end.

(** [get_m3u8] from the search to the player frame: the response of an
    early [return], or [iframe_src]. *)
Definition find_player (title : list N) (season episode : option (list N))
    : action (response + list N) :=
  results ← search_tmdb title;
  best ← lift (get_best_match title results);
  match best with
  | None => mret (inl (plain [] 404))
  | Some best =>
      if decide (best = ∅) then mret (inl (plain [] 404))
      else
        tmdb_id ← lift (getitem best "id");
        let type_ := str_lower (default (lit "movie") (best !! "media_type"%string)) in
        let external_url :=
          if decide (type_ = lit "movie")
          then lit "https://api.themoviedb.org/3/movie/" ++ tmdb_id
               ++ lit "/external_ids?api_key=" ++ TMDB_API_KEY
          else lit "https://api.themoviedb.org/3/tv/" ++ tmdb_id
               ++ lit "/external_ids?api_key=" ++ TMDB_API_KEY in
        r ← http_get external_url;
        external_resp ← lift (json_object r);
        let imdb_id := external_resp !! "imdb_id"%string in
        if negb (present imdb_id) then mret (inl (plain [] 404))
        else
          let imdb_id := default [] imdb_id in
          let vsrc_embed :=
            if bool_decide (type_ = lit "tv") && present season && present episode
            then lit "https://vsrc.su/embed/tv?imdb=" ++ imdb_id
                 ++ lit "&season=" ++ default [] season
                 ++ lit "&episode=" ++ default [] episode ++ lit "&dts=dd"
            else lit "https://vsrc.su/embed/movie?imdb=" ++ imdb_id ++ lit "&dts=dd" in
          iframe_src ← get_player_iframe_src vsrc_embed;
          if negb (present iframe_src) then mret (inl (plain [] 404))
          else mret (inr (default [] iframe_src))
  end.

(** [GET /get_m3u8]: [title], [season] and [episode] are the values of
    [request.args.get].  The result comes with the state afterwards and
    the number of browser sessions opened. *)
Definition get_m3u8 (browser : list N → nat → session)
    (title season episode : option (list N)) (st : app_state)
    : outcome response * app_state * nat :=
  if negb (present title) then (Return (plain [] 400), st, 0%nat)
  else
    match find_player (default [] title) season episode st with
    | (Raise e, st) => (Raise e, st, 0%nat)
    | (Return (inl early), st) => (Return early, st, 0%nat)
    | (Return (inr iframe_src), st) =>
        match capture_first_m3u8 browser iframe_src 3 with
        | (Raise e, opened) => (Raise e, st, opened)
        | (Return first_m3u8, opened) =>
            if negb (present first_m3u8) then (Return (plain [] 404), st, opened)
            else
              match get_best_variant (default [] first_m3u8) st with
              | (Raise e, st) => (Raise e, st, opened)
              | (Return final_m3u8, st) => (Return (plain final_m3u8 200), st, opened)
              end
        end
    end.

(** *** Requests served at the same time

    The development server started by [app.run] serves every request on a
    thread of its own.  A request to [/proxy_playlist] gives way to the
    others where it waits for the origin, so it runs in two parts: up to
    the moment [requests.get] is sent, and from its answer on. *)

Inductive thread :=
| Arrived (url : option (list N))
| Fetching (url : list N) (now : Q)
| Done (r : outcome response).

(** First part: the test of the parameter and of the cache; [t] is what
    [time.time()] returns. *)
Definition arrive (url : option (list N)) (t : Q) (st : app_state)
    : thread * app_state :=
  match url with
  | None => (Done (Return (plain (lit "Missing url param") 400)), st)
  | Some url =>
      if negb (Py.truthy url)
      then (Done (Return (plain (lit "Missing url param") 400)), st)
      else
        let sent := AppState (playlist_cache st) (upstream st ++ [url]) in
        match playlist_cache st !! url with
        | Some c =>
            if Qltb (t - ts c) CACHE_TTL
            then (Done (Return (Response 200 (Text (data c)) mpegurl ∅)), st)
            else (Fetching url t, sent)
        | None => (Fetching url t, sent)
        end
  end.

(** Second part: the answer of the origin has come in. *)
Definition answer (url : list N) (now : Q) (st : app_state)
    : thread * app_state :=
  let failed e :=
    Done (Return (plain (lit "Failed to fetch playlist: " ++ exn_text e) 502)) in
  match requests_get url with
  | Raise e => (failed e, st)
  | Return r =>
      match raise_for_status r with
      | Raise e => (failed e, st)
      | Return _ =>
          match rewrite_playlist url
                  (Url.utf8_decode Url.errors_ignore (content r)) with
          | Raise e => (Done (Raise e), st)
          | Return rewritten =>
              (Done (Return (Response 200 (Text rewritten) mpegurl ∅)),
               AppState (<[url := CacheEntry rewritten now]> (playlist_cache st))
                        (upstream st))
          end
      end
  end.

(** The thread [i] runs its next part at clock reading [t]. *)
Definition step (pool : list thread * app_state) (turn : nat * Q)
    : list thread * app_state :=
  let '(threads, st) := pool in
  let '(i, t) := turn in
  match threads !! i with
  | Some (Arrived url) =>
      let '(th, st') := arrive url t st in (<[i := th]> threads, st')
  | Some (Fetching url now) =>
      let '(th, st') := answer url now st in (<[i := th]> threads, st')
  | _ => pool
  end.

Definition run (schedule : list (nat * Q)) (pool : list thread * app_state)
    : list thread * app_state :=
  foldl step pool schedule.

(** *** Vocabulary of the properties *)

(** A line that [rewrite_playlist] keeps: blank once stripped, or
    starting with [#] once stripped. *)
Definition is_directive (line : list N) : bool :=
  negb (Py.truthy (Py.strip line)) || Py.startswith (Py.strip line) (lit "#").

(** The number of segment lines among the first [i] lines. *)
Definition segments_before (lines : list (list N)) (i : nat) : N :=
  N.of_nat (length (filter (fun l => is_directive l = false) (take i lines))).

(** A code point that UTF-8 can encode: below [0x110000] and no
    surrogate. *)
Definition scalar (c : N) : bool :=
  (c <? 0xD800) || ((0xDFFF <? c) && (c <? 0x110000)).

Definition encodable (s : list N) : bool := forallb scalar s.

(** The line is kept by the rewrite, or [urljoin] resolves it, without
    an exception, to a URL that [quote_plus] can encode. *)
Definition ref_encodable (url line : list N) : bool :=
  is_directive line
  || match urljoin url (Py.strip line) with
     | Return abs_url => encodable abs_url
     | Raise _ => false
     end.

(** Every segment line of [playlist_text] resolves to a URL that
    [quote_plus] can encode. *)
Definition refs_encodable (url playlist_text : list N) : bool :=
  forallb (ref_encodable url) (Py.splitlines playlist_text).

(** What [fetch_bytes(url)] comes to: the body of the origin's answer, or
    the exception of an origin out of reach or of an error status. *)
Definition fetched (url : list N) : outcome (list N) :=
  r ← requests_get url; _ ← raise_for_status r; Return (content r).

(** The state after one more request upstream. *)
Definition sent (url : list N) (st : app_state) : app_state :=
  AppState (playlist_cache st) (upstream st ++ [url]).

(** The cache holds an entry for [url] younger than the TTL at [now]. *)
Definition fresh (st : app_state) (url : list N) (now : Q) : option cache_entry :=
  match playlist_cache st !! url with
  | Some c => if Qltb (now - ts c) CACHE_TTL then Some c else None
  | None => None
  end.

(** The first URL with the manifest extension among [urls]. *)
Definition first_match (urls : list (list N)) : option (list N) :=
  head (filter (fun u => Py.contains u (lit ".m3u8") = true) urls).

(** The number of requests, among [urls] handed to the listener in turn
    from the slot [captured], on which the slot is assigned. *)
Fixpoint assignments (urls : list (list N)) (captured : option (list N)) : nat :=
  match urls with
  | [] => 0
  | u :: rest =>
      (if on_request_assigns u captured then 1 else 0)
      + assignments rest (on_request u captured)
  end%nat.

(** Names equal when compared ignoring case. *)
Definition same_name (a b : list N) : Prop := toLowerCase a = toLowerCase b.

(** No two entries of [names], at different places, are the same name. *)
Definition distinct_names (names : list (list N)) : Prop :=
  ∀ i j a b, names !! i = Some a → names !! j = Some b → i ≠ j → ¬ same_name a b.

(** The safe characters that [quote_plus] adds: none, or the space. *)
Definition spaces_only (safe : list N) : Prop := Forall (fun c => c = 32) safe.

(** The Playwright calls that [capture_first_m3u8] can make on a
    session. *)
Inductive call_of (s : session) : call → Prop :=
| call_goto : call_of s (goto s)
| call_query sel : sel ∈ selectors → call_of s (query (select s sel))
| call_click sel c :
    sel ∈ selectors → element (select s sel) = Some c → call_of s c
| call_mouse : call_of s (mouse_click s)
| call_wait i : (i < 30)%nat → call_of s (wait s i)
| call_close : call_of s (close s).

(** The slot is empty, or holds a URL with the manifest extension that
    the page requested during one of the calls of the session. *)
Definition captured_in (s : session) (captured : option (list N)) : Prop :=
  match captured with
  | None => True
  | Some u =>
      Py.contains u (lit ".m3u8") = true
      ∧ ∃ c, call_of s c ∧ u ∈ requests c
  end.

(** The calls that the loop over the selectors makes on a session, in
    order, and whether an element was clicked. *)
Fixpoint click_calls (s : session) (sels : list string) : list call * bool :=
  match sels with
  | [] => ([], false)
  | sel :: rest =>
      let p := select s sel in
      let later := click_calls s rest in
      if raises (query p) then (query p :: later.1, later.2)
      else
        match element p with
        | None => (query p :: later.1, later.2)
        | Some click =>
            if raises click then (query p :: click :: later.1, later.2)
            else ([query p; click], true)
        end
  end.

(** The calls of a session before it waits: the page load, the loop
    over the selectors and, when no element was clicked, the click in
    the middle of the page. *)
Definition opening (s : session) : list call :=
  goto s :: (click_calls s selectors).1
  ++ (if (click_calls s selectors).2 then [] else [mouse_click s]).

(** The requests that the page makes during [calls], in order. *)
Definition requests_during (calls : list call) : list (list N) :=
  flat_map requests calls.

(** The waits of a session from the [i]-th on, at most [n] of them,
    after the requests [seen]: a wait is made as long as no URL with the
    manifest extension was requested and no wait raised. *)
Fixpoint waits_made (s : session) (n i : nat) (seen : list (list N))
    : list call :=
  match n with
  | O => []
  | S n' =>
      match first_match seen with
      | Some _ => []
      | None =>
          wait s i
          :: (if raises (wait s i) then []
              else waits_made s n' (S i) (seen ++ requests (wait s i)))
      end
  end.

Definition waiting (s : session) : list call :=
  waits_made s 30 0 (requests_during (opening s)).

(** The session does not come to its end: the launch raises, one of its
    waits does, or the closing does. *)
Definition raising (s : session) : bool :=
  launch_raises s || existsb raises (waiting s) || raises (close s).

(** The requests of the page during a session that comes to its end: those
    of the calls before the waits, of the waits, and of the closing. *)
Definition heard (s : session) : list (list N) :=
  requests_during (opening s ++ waiting s ++ [close s]).

(** Two requests for the same manifest, both just arrived. *)
Definition two_requests (url : list N) : list thread :=
  [Arrived (Some url); Arrived (Some url)].

Definition is_done (th : thread) : bool :=
  match th with Done _ => true | _ => false end.

(** Coalescing, as a property of the server for the manifest [url]:
    however two requests for [url] that start on an empty cache and run
    within one TTL window take turns, once both are answered exactly one
    request has gone upstream. *)
Definition coalesces (url : list N) : Prop :=
  ∀ schedule threads st,
    Forall (fun turn : nat * Q => (0 <= turn.2)%Q ∧ (turn.2 < CACHE_TTL)%Q)
           schedule →
    run schedule (two_requests url, AppState ∅ []) = (threads, st) →
    forallb is_done threads = true →
    length (upstream st) = 1%nat.

(** A sync byte at [j] and at each of the [m] places that follow it 188
    bytes apart. *)
Definition sync_run (data : list N) (m j : nat) : Prop :=
  ∀ k, (k ≤ m)%nat → data !! (j + k * 188)%nat = Some 0x47.

(** A character of a quoted query string: a letter, a digit, one of
    [_.-~], [+] or [%]. *)
Definition query_char (c : N) : bool :=
  Url.always_safe c || (c =? 43) || (c =? 37).

(** The pattern of [get_player_iframe_src] read as a description: behind
    [pre], the text goes on with [<iframe], the characters [attrs] (at
    least one, none of them [>]), [src=], a quote, the characters [g] (at
    least one, none of them a quote) and a quote. *)
Definition iframe_src_at (text pre attrs g : list N) : Prop :=
  ∃ q1 q2 rest,
    text = pre ++ lit "<iframe" ++ attrs ++ lit "src=" ++ q1 :: g ++ q2 :: rest
    ∧ attrs ≠ [] ∧ Forall (fun c => not_gt c = true) attrs
    ∧ is_quote q1 = true ∧ is_quote q2 = true
    ∧ g ≠ [] ∧ Forall (fun c => not_quote c = true) g.

(** The part of the pattern from the opening quote on. *)
Definition quoted_re : regex_ext :=
  Seq (One is_quote) (Seq (Capture (Base (Plus not_quote))) (One is_quote)).

(** What a computation does to the state: it leaves the cache as it is
    and sends at most [n] requests upstream; when it returns [a] after
    [k] requests, [Q a k] holds. *)
Definition tracks {A} (m : action A) (n : nat) (Q : A → nat → Prop) : Prop :=
  ∀ st,
    playlist_cache (m st).2 = playlist_cache st
    ∧ ∃ reqs,
        upstream (m st).2 = upstream st ++ reqs
        ∧ (length reqs ≤ n)%nat
        ∧ ∀ a, (m st).1 = Return a → Q a (length reqs).

(** A request to one of the endpoints modelled here, with what the view
    reads from outside: the parameters, the clock, the browser. *)
Inductive request :=
| ProxyPlaylist (url : option (list N)) (now : Q)
| Segment (u : option (list N))
| Autocomplete (q : list N)
| GetM3u8 (browser : list N → nat → session)
    (title season episode : option (list N)).

(** The state after a request was served. *)
Definition serve (st : app_state) (req : request) : app_state :=
  match req with
  | ProxyPlaylist url now => (proxy_playlist url now st).2
  | Segment u => (segment u st).2
  | Autocomplete q => (autocomplete q st).2
  | GetM3u8 browser title season episode =>
      (get_m3u8 browser title season episode st).1.2
  end.

(** The state of a server that started with an empty cache and served
    [reqs] one after the other. *)
Definition after (reqs : list request) : app_state :=
  foldl serve (AppState ∅ []) reqs.

(** Every entry of the cache is under a key that is not empty and holds
    the rewritten form of what the origin serves for that key. *)
Definition cache_sound (st : app_state) : Prop :=
  ∀ k e, playlist_cache st !! k = Some e →
    k ≠ []
    ∧ ∃ pl_bytes,
        fetched k = Return pl_bytes
        ∧ rewrite_playlist k (Url.utf8_decode Url.errors_ignore pl_bytes)
          = Return (data e).

(** The tag that opens a variant of a multivariant manifest. *)
Definition stream_inf : list N := lit "#EXT-X-STREAM-INF:".

(** One variant of a manifest: what follows the tag on its line, the
    playlist URL, and the digits of the height that the line declares, if
    it declares one. *)
Record variant := Variant {
  attributes : list N;
  uri : list N;
  height : option (list N)
}.










(** The variant that an entry of [re.findall] stands for. *)
Definition variant_of_groups (groups : list (list N)) : variant :=
  Variant (removelast (drop (length stream_inf) (groups !!! 0%nat)))
          (groups !!! 1%nat)
          ((fun caps => caps !!! 1%nat)
           <$> Re.search resolution_re (groups !!! 0%nat)).


(** ** Properties *)

(** *** Tactics *)

(** Case analysis on the comparisons of natural numbers in the goal,
    those decided by the context first. *)
Ltac nbool_step :=
  match goal with
  | |- context [?a <? ?b] =>
      first [ replace (a <? b) with true by (symmetry; apply N.ltb_lt; lia)
            | replace (a <? b) with false by (symmetry; apply N.ltb_ge; lia) ]
  | |- context [?a <=? ?b] =>
      first [ replace (a <=? b) with true by (symmetry; apply N.leb_le; lia)
            | replace (a <=? b) with false by (symmetry; apply N.leb_gt; lia) ]
  | |- context [?a =? ?b] =>
      first [ replace (a =? b) with true by (symmetry; apply N.eqb_eq; lia)
            | replace (a =? b) with false by (symmetry; apply N.eqb_neq; lia)
            | destruct (N.eqb_spec a b) ]
  end; cbn [andb orb negb].

Ltac nbool := repeat nbool_step.

(** Linear arithmetic with quotients and remainders by constants, on the
    numbers of the goal alone: the functions in the context play no part. *)
Ltac forget_functions :=
  repeat match goal with
  | f : ?T |- _ =>
      lazymatch T with
      | _ → _ =>
          lazymatch type of T with
          | Prop => fail
          | _ => clear f
          end
      end
  end.

Ltac ndiv := forget_functions; zify; Z.to_euclidean_division_equations; lia.

(** *** The UTF-8 codec *)

(** The bytes of a two-byte character. *)
Lemma encode2_bytes c :
  0x80 <= c → c < 0x800 →
  ∃ b0 b1, 0xC0 + c / 64 = b0 ∧ 0x80 + c mod 64 = b1
    ∧ 0xC2 <= b0 <= 0xDF ∧ 0x80 <= b1 <= 0xBF
    ∧ (b0 - 0xC0) * 64 + (b1 - 0x80) = c.
Proof. intros. eexists _, _. split; [reflexivity|]. split; [reflexivity|]. ndiv. Qed.

(** The bytes of a three-byte character that is no surrogate. *)
Lemma encode3_bytes c :
  0x800 <= c → c < 0x10000 → ¬ (0xD800 <= c <= 0xDFFF) →
  ∃ b0 b1 b2, 0xE0 + c / 4096 = b0 ∧ 0x80 + (c / 64) mod 64 = b1
    ∧ 0x80 + c mod 64 = b2
    ∧ 0xE0 <= b0 <= 0xEF ∧ 0x80 <= b1 <= 0xBF ∧ 0x80 <= b2 <= 0xBF
    ∧ (b0 = 0xE0 → 0xA0 <= b1) ∧ (b0 = 0xED → b1 <= 0x9F)
    ∧ (b0 - 0xE0) * 4096 + (b1 - 0x80) * 64 + (b2 - 0x80) = c.
Proof.
  intros. eexists _, _, _. do 3 (split; [reflexivity|]). ndiv.
Qed.

(** The bytes of a four-byte character. *)
Lemma encode4_bytes c :
  0x10000 <= c → c < 0x110000 →
  ∃ b0 b1 b2 b3, 0xF0 + c / 262144 = b0 ∧ 0x80 + (c / 4096) mod 64 = b1
    ∧ 0x80 + (c / 64) mod 64 = b2 ∧ 0x80 + c mod 64 = b3
    ∧ 0xF0 <= b0 <= 0xF4 ∧ 0x80 <= b1 <= 0xBF ∧ 0x80 <= b2 <= 0xBF
    ∧ 0x80 <= b3 <= 0xBF
    ∧ (b0 = 0xF0 → 0x90 <= b1) ∧ (b0 = 0xF4 → b1 <= 0x8F)
    ∧ (b0 - 0xF0) * 262144 + (b1 - 0x80) * 4096 + (b2 - 0x80) * 64
      + (b3 - 0x80) = c.
Proof.
  intros. eexists _, _, _, _. do 4 (split; [reflexivity|]). ndiv.
Qed.

(** Decoding reads back one encoded character, whatever the error
    handler. *)
Lemma decode_encode_char repl c bs rest :
  Url.encode_char c = Some bs →
  Url.utf8_decode repl (bs ++ rest) = c :: Url.utf8_decode repl rest.
Proof.
  unfold Url.encode_char. intros H.
  destruct (N.ltb_spec c 0x80).
  { injection H as <-. simpl. destruct (N.ltb_spec c 128); [done|lia]. }
  destruct (N.ltb_spec c 0x800).
  { injection H as <-.
    destruct (encode2_bytes c) as (b0 & b1 & -> & -> & ? & ? & Hc); [done..|].
    remember (Url.utf8_decode repl rest) as tail.
    simpl. unfold Url.cont. nbool. subst tail. by rewrite Hc. }
  destruct (N.ltb_spec c 0x10000).
  { destruct (N.leb_spec 0xD800 c), (N.leb_spec c 0xDFFF);
      simpl in H; try discriminate; injection H as <-.
    all: try (exfalso; lia).
    all: destruct (encode3_bytes c)
      as (b0 & b1 & b2 & -> & -> & -> & ? & ? & ? & ? & ? & Hc); [lia..|].
    all: remember (Url.utf8_decode repl rest) as tail.
    all: simpl; unfold Url.second3, Url.cont.
    all: nbool; subst tail; by rewrite Hc. }
  destruct (N.ltb_spec c 0x110000); [|discriminate].
  injection H as <-.
  destruct (encode4_bytes c)
    as (b0 & b1 & b2 & b3 & -> & -> & -> & -> & ? & ? & ? & ? & ? & ? & Hc);
    [lia..|].
  remember (Url.utf8_decode repl rest) as tail.
  simpl; unfold Url.second4, Url.cont.
  nbool; subst tail; by rewrite Hc.
Qed.

Lemma decode_encode repl s bs :
  Url.utf8_encode s = Return bs → Url.utf8_decode repl bs = s.
Proof.
  revert bs. induction s as [|c s IH]; intros bs H; simpl in H.
  - by injection H as <-.
  - destruct (Url.encode_char c) as [cs|] eqn:Hc; [|discriminate].
    destruct (Url.utf8_encode s) as [rest|] eqn:Hs; [|discriminate].
    injection H as <-.
    rewrite (decode_encode_char _ _ _ _ Hc). f_equal. by apply IH.
Qed.

Lemma encode_char_ascii c bs :
  Url.encode_char c = Some bs → c < 128 → bs = [c].
Proof.
  unfold Url.encode_char. intros H Hc.
  destruct (N.ltb_spec c 0x80); [|lia]. by injection H as <-.
Qed.

Lemma encode_char_high c bs :
  Url.encode_char c = Some bs → 128 <= c →
  Forall (fun b => 128 <= b < 256) bs.
Proof.
  unfold Url.encode_char. intros H Hc.
  destruct (N.ltb_spec c 0x80); [lia|].
  destruct (N.ltb_spec c 0x800).
  { injection H as <-. repeat constructor; ndiv. }
  destruct (N.ltb_spec c 0x10000).
  { destruct ((0xD800 <=? c) && (c <=? 0xDFFF)); [discriminate|].
    injection H as <-. repeat constructor; ndiv. }
  destruct (N.ltb_spec c 0x110000); [|discriminate].
  injection H as <-. repeat constructor; ndiv.
Qed.

Lemma encode_char_bound c bs :
  Url.encode_char c = Some bs → Forall (fun b => b < 256) bs.
Proof.
  intros H. destruct (N.lt_ge_cases c 128) as [Hc|Hc].
  - rewrite (encode_char_ascii _ _ H Hc). repeat constructor. lia.
  - eapply Forall_impl; [by eapply encode_char_high|]. simpl. lia.
Qed.

Lemma utf8_encode_bound s bs :
  Url.utf8_encode s = Return bs → Forall (fun b => b < 256) bs.
Proof.
  revert bs. induction s as [|c s IH]; intros bs H; simpl in H.
  - injection H as <-. constructor.
  - destruct (Url.encode_char c) as [cs|] eqn:Hc; [|discriminate].
    destruct (Url.utf8_encode s) as [rest|] eqn:Hs; [|discriminate].
    injection H as <-. apply Forall_app. split; [by eapply encode_char_bound|by apply IH].
Qed.

(** A string is encodable exactly when [encode] does not raise. *)
Lemma encode_char_scalar c :
  scalar c = true ↔ ∃ bs, Url.encode_char c = Some bs.
Proof.
  unfold scalar, Url.encode_char.
  destruct (N.ltb_spec c 0x80), (N.ltb_spec c 0x800), (N.ltb_spec c 0x10000),
    (N.ltb_spec c 0x110000), (N.leb_spec 0xD800 c), (N.leb_spec c 0xDFFF),
    (N.ltb_spec c 0xD800), (N.ltb_spec 0xDFFF c); simpl; try lia.
  all: split; eauto; try discriminate; intros [? ?]; discriminate.
Qed.

Lemma utf8_encode_encodable s :
  encodable s = true ↔ ∃ bs, Url.utf8_encode s = Return bs.
Proof.
  unfold encodable. induction s as [|c s IH]; simpl.
  - split; eauto.
  - rewrite andb_true_iff, IH, encode_char_scalar. split.
    + intros [[cs ->] [rest ->]]. simpl. eauto.
    + intros [bs H]. destruct (Url.encode_char c); [|discriminate].
      destruct (Url.utf8_encode s); [|discriminate]. eauto.
Qed.

Lemma utf8_encode_raises s :
  encodable s = false → Url.utf8_encode s = Raise Url.UnicodeEncodeError.
Proof.
  unfold encodable. induction s as [|c s IH]; simpl; [done|].
  intros H. destruct (Url.encode_char c) as [cs|] eqn:Hc; [|done].
  assert (scalar c = true) as Hs by (apply encode_char_scalar; eauto).
  rewrite Hs in H. simpl in H. by rewrite (IH H).
Qed.

(** *** Quoting *)

#[local] Arguments N.eqb : simpl never.
#[local] Arguments N.ltb : simpl never.
#[local] Arguments N.leb : simpl never.

Lemma always_safe_spec b :
  Url.always_safe b = true → b < 128 ∧ b ≠ 37 ∧ b ≠ 43 ∧ b ≠ 32 ∧ b ≠ 38.
Proof.
  unfold Url.always_safe.
  rewrite !orb_true_iff, !andb_true_iff, !N.leb_le, !N.eqb_eq. lia.
Qed.

Lemma hex_upper_spec d :
  d < 16 →
  Url.hex_value (Url.hex_upper d) = Some d
  ∧ Url.hex_upper d < 128 ∧ Url.hex_upper d ≠ 37 ∧ Url.hex_upper d ≠ 43
  ∧ Url.hex_upper d ≠ 32 ∧ Url.hex_upper d ≠ 38.
Proof.
  intros Hd. unfold Url.hex_value, Url.hex_upper.
  destruct (N.ltb_spec d 10); nbool; (split; [f_equal; lia | lia]).
Qed.

Lemma in_safe_space safe b :
  spaces_only safe → existsb (N.eqb b) safe = true → b = 32.
Proof.
  intros Hs H. apply existsb_exists in H as (x & Hx & Hb).
  apply N.eqb_eq in Hb as ->. by apply (proj1 (List.Forall_forall _ _) Hs).
Qed.

(** What [quoter] produces: ASCII without [+] and [&]; a space only for
    a space. *)
Lemma quoter_chars safe b :
  spaces_only safe → b < 256 →
  Forall (fun c => c < 128 ∧ c ≠ 43 ∧ c ≠ 38 ∧ (c = 32 → b = 32))
         (Url.quoter safe b).
Proof.
  intros Hs Hb. unfold Url.quoter.
  destruct (Url.always_safe b) eqn:Ha; simpl.
  { apply always_safe_spec in Ha. repeat constructor; lia. }
  destruct (existsb (N.eqb b) safe) eqn:He.
  { apply (in_safe_space _ _ Hs) in He as ->. repeat constructor; lia. }
  destruct (hex_upper_spec (b / 16)) as (_ & ? & ? & ? & ? & ?); [ndiv|].
  destruct (hex_upper_spec (b mod 16)) as (_ & ? & ? & ? & ? & ?); [ndiv|].
  repeat constructor; lia.
Qed.

Lemma quote_chars safe bs :
  spaces_only safe → Forall (fun b => b < 256) bs →
  Forall (fun c => c < 128 ∧ c ≠ 43 ∧ c ≠ 38 ∧ (c = 32 → 32 ∈ bs))
         (flat_map (Url.quoter safe) bs).
Proof.
  intros Hs. induction 1 as [|b bs Hb Hbs IH]; simpl; [constructor|].
  apply Forall_app. split.
  - eapply Forall_impl; [by apply quoter_chars|]. simpl.
    intros c (? & ? & ? & Hc). repeat split; try done.
    intros ->. rewrite Hc by done. by left.
  - eapply Forall_impl; [exact IH|]. simpl.
    intros c (? & ? & ? & Hc). repeat split; try done.
    intros E. right. by apply Hc.
Qed.

(** Percent-decoding undoes [quoter]. *)
Lemma unquote_to_bytes_quoter safe b rest :
  spaces_only safe → b < 256 →
  Url.unquote_to_bytes (Url.quoter safe b ++ rest)
  = b :: Url.unquote_to_bytes rest.
Proof.
  intros Hs Hb. unfold Url.quoter.
  destruct (Url.always_safe b) eqn:Ha; simpl.
  { apply always_safe_spec in Ha. by nbool. }
  destruct (existsb (N.eqb b) safe) eqn:He.
  { apply (in_safe_space _ _ Hs) in He as ->. done. }
  destruct (hex_upper_spec (b / 16)) as (Hh & _); [ndiv|].
  destruct (hex_upper_spec (b mod 16)) as (Hl & _); [ndiv|].
  simpl. rewrite Hh, Hl. f_equal. ndiv.
Qed.

Lemma unquote_to_bytes_quote safe bs :
  spaces_only safe → Forall (fun b => b < 256) bs →
  Url.unquote_to_bytes (flat_map (Url.quoter safe) bs) = bs.
Proof.
  intros Hs. induction 1 as [|b bs Hb Hbs IH]; simpl; [done|].
  rewrite unquote_to_bytes_quoter by done. by rewrite IH.
Qed.

(** On ASCII, [unquote] is one run. *)
Lemma unquote_parts_ascii run s :
  Forall (fun c => c < 128) s →
  Url.unquote_parts run s = Url.unquote_run (rev run ++ s).
Proof.
  intros H. revert run. induction H as [|c s Hc Hs IH]; intros run; simpl.
  - by rewrite app_nil_r.
  - destruct (N.ltb_spec c 128); [|lia]. rewrite IH. simpl.
    by rewrite <- app_assoc.
Qed.

Lemma utf8_decode_ascii repl s :
  Forall (fun c => c < 128) s → Url.utf8_decode repl s = s.
Proof.
  induction 1 as [|c s Hc Hs IH]; simpl; [done|].
  destruct (N.ltb_spec c 128); [|lia]. by rewrite IH.
Qed.

Lemma unquote_to_bytes_plain s :
  existsb (N.eqb 37) s = false → Url.unquote_to_bytes s = s.
Proof.
  induction s as [|c s IH]; simpl; [done|].
  rewrite orb_false_iff. intros [Hc Hs].
  rewrite N.eqb_sym, Hc. by rewrite IH.
Qed.

Lemma unquote_ascii s :
  Forall (fun c => c < 128) s → Url.unquote s = Url.unquote_run s.
Proof.
  intros H. unfold Url.unquote.
  destruct (existsb (N.eqb 37) s) eqn:Hp.
  - by rewrite unquote_parts_ascii.
  - unfold Url.unquote_run. rewrite (unquote_to_bytes_plain _ Hp).
    by rewrite utf8_decode_ascii.
Qed.

Lemma replace1_absent a b s : a ∉ s → Py.replace1 a b s = s.
Proof.
  unfold Py.replace1. induction s as [|c s IH]; simpl; [done|].
  intros H. apply not_elem_of_cons in H as [Hc Hs].
  destruct (N.eqb_spec c a); [congruence|]. by rewrite IH.
Qed.

Lemma replace1_back a b s :
  b ∉ s → Py.replace1 b a (Py.replace1 a b s) = Py.replace1 a a s.
Proof.
  unfold Py.replace1. induction s as [|c s IH]; simpl; [done|].
  intros H. apply not_elem_of_cons in H as [Hc Hs]. rewrite IH by done.
  f_equal. destruct (N.eqb_spec c a).
  - by rewrite N.eqb_refl.
  - destruct (N.eqb_spec c b); congruence.
Qed.

Lemma replace1_same a s : Py.replace1 a a s = s.
Proof.
  unfold Py.replace1. induction s as [|c s IH]; simpl; [done|].
  rewrite IH. by destruct (N.eqb_spec c a) as [->|].
Qed.

(** [unquote_plus] undoes [quote_plus]. *)
Lemma unquote_plus_quote_plus s q :
  Url.quote_plus s = Return q → Url.unquote_plus q = s.
Proof.
  unfold Url.quote_plus, Url.quote. intros H.
  destruct (Url.utf8_encode s) as [bs|] eqn:Hbs;
    [|by destruct (existsb (N.eqb 32) s)].
  pose proof (utf8_encode_bound _ _ Hbs) as Hb.
  assert (∀ safe, spaces_only safe →
            Url.unquote (flat_map (Url.quoter safe) bs) = s) as Hun.
  { intros safe Hs. rewrite unquote_ascii.
    - unfold Url.unquote_run. rewrite unquote_to_bytes_quote by done.
      by apply decode_encode.
    - eapply Forall_impl; [by apply quote_chars|]. simpl. by intros c [? _]. }
  assert (∀ safe, spaces_only safe → 43 ∉ flat_map (Url.quoter safe) bs) as Hplus.
  { intros safe Hs Hin.
    pose proof (quote_chars safe bs Hs Hb) as Hq.
    rewrite List.Forall_forall in Hq. apply list_elem_of_In in Hin.
    destruct (Hq _ Hin) as (_ & ? & _). done. }
  unfold Url.unquote_plus.
  destruct (existsb (N.eqb 32) s) eqn:Hsp; simpl in H; injection H as <-.
  - rewrite replace1_back by (apply Hplus; repeat constructor).
    rewrite replace1_same. apply Hun. repeat constructor.
  - rewrite replace1_absent by (apply Hplus; constructor).
    apply Hun. constructor.
Qed.

(** *** Lines without line breaks *)



(** [quote_plus] produces no newline. *)
Lemma quoter_no_newline safe b :
  spaces_only safe → b < 256 → 10 ∉ Url.quoter safe b.
Proof.
  intros Hs Hb Hin.
  pose proof (quoter_chars safe b Hs Hb) as Hq.
  destruct (proj1 (Forall_forall _ _) Hq 10 Hin) as (_ & _ & _ & H10).
  revert Hin. unfold Url.quoter.
  destruct (Url.always_safe b) eqn:Ha; simpl.
  { intros Hin. apply list_elem_of_singleton in Hin as <-. done. }
  destruct (existsb (N.eqb b) safe) eqn:He.
  { apply (in_safe_space _ _ Hs) in He as ->. intros Hin.
    by apply list_elem_of_singleton in Hin. }
  intros Hin.
  destruct (hex_upper_spec (b / 16)) as (_ & _ & _ & _ & _ & _); [ndiv|].
  assert (∀ d, d < 16 → Url.hex_upper d ≠ 10) as Hhex.
  { intros d Hd. unfold Url.hex_upper. destruct (N.ltb_spec d 10); lia. }
  repeat (apply elem_of_cons in Hin as [Hin|Hin]).
  - done.
  - symmetry in Hin. revert Hin. apply Hhex. ndiv.
  - symmetry in Hin. revert Hin. apply Hhex. ndiv.
  - by apply elem_of_nil in Hin.
Qed.

Lemma quote_plus_no_newline s q : Url.quote_plus s = Return q → 10 ∉ q.
Proof.
  unfold Url.quote_plus, Url.quote. intros H.
  destruct (Url.utf8_encode s) as [bs|] eqn:Hbs;
    [|by destruct (existsb (N.eqb 32) s)].
  pose proof (utf8_encode_bound _ _ Hbs) as Hb.
  assert (∀ safe, spaces_only safe → 10 ∉ flat_map (Url.quoter safe) bs) as Hq.
  { intros safe Hs Hin. apply list_elem_of_In, in_flat_map in Hin as (b & Hbin & Hin).
    apply (quoter_no_newline safe b Hs).
    - by apply (proj1 (List.Forall_forall _ _) Hb).
    - by apply list_elem_of_In. }
  destruct (existsb (N.eqb 32) s); simpl in H; injection H as <-.
  - intros Hin. unfold Py.replace1 in Hin.
    apply list_elem_of_In, in_map_iff in Hin as (c & Hc & Hin).
    destruct (N.eqb_spec c 32); [done|]. subst c.
    apply (Hq [32]); [repeat constructor|by apply list_elem_of_In].
  - apply Hq. constructor.
Qed.

Lemma str_of_int_no_newline n : 10 ∉ Py.str_of_int n.
Proof.
  unfold Py.str_of_int. generalize (N.to_uint n) as d.
  induction d; simpl; intros Hin;
    try (apply elem_of_cons in Hin as [Hin|Hin]; [done|by apply IHd]).
  by apply elem_of_nil in Hin.
Qed.

(** *** The playlist rewrite *)

Lemma bind_return {A B} (a : A) (k : A → outcome B) : (Return a ≫= k) = k a.
Proof. reflexivity. Qed.

Lemma bind_raise {A B} (e : exn) (k : A → outcome B) : (Raise e ≫= k) = Raise e.
Proof. reflexivity. Qed.

Lemma segments_before_0 lines : segments_before lines 0 = 0.
Proof. unfold segments_before. by rewrite take_0. Qed.

Lemma segments_before_S line lines i :
  segments_before (line :: lines) (S i)
  = (if is_directive line then 0 else 1) + segments_before lines i.
Proof.
  unfold segments_before. rewrite firstn_cons.
  destruct (is_directive line) eqn:Hd.
  - rewrite filter_cons_False by (by rewrite Hd). lia.
  - rewrite filter_cons_True by done. simpl length. lia.
Qed.

(** The loop of [rewrite_playlist], started on any [new_lines] and [seq]. *)
Lemma rewrite_lines_spec url lines new_lines seq :
  forallb (ref_encodable url) lines = true →
  ∃ out seq',
    for_each (rewrite_line url) (new_lines, seq) lines
      = Return (new_lines ++ out, seq')
    ∧ length out = length lines
    ∧ (Forall (fun line => 10 ∉ line) lines → Forall (fun line => 10 ∉ line) out)
    ∧ ∀ i line, lines !! i = Some line →
        if is_directive line then out !! i = Some line
        else ∃ abs_url E,
          urljoin url (Py.strip line) = Return abs_url
          ∧ out !! i = Some (lit "/segment?u=" ++ E ++ lit "&i="
                             ++ Py.str_of_int (seq + segments_before lines i))
          ∧ Url.quote_plus abs_url = Return E.
Proof.
  revert new_lines seq.
  induction lines as [|line lines IH]; intros new_lines seq H.
  { exists [], seq. simpl. rewrite app_nil_r. repeat split; try done. }
  simpl in H. apply andb_true_iff in H as [Hline Hrest].
  cbn [for_each]. unfold rewrite_line at 2. fold (is_directive line).
  unfold ref_encodable in Hline.
  destruct (is_directive line) eqn:Hd.
  - destruct (IH (new_lines ++ [line]) seq Hrest)
      as (out & seq' & Hrun & Hlen & Hbreaks & Hout).
    exists (line :: out), seq'. split; [|split; [|split]].
    + rewrite bind_return, Hrun. by rewrite <- app_assoc.
    + simpl. by rewrite Hlen.
    + intros Hl. apply Forall_cons in Hl as [? ?]. constructor; [done|].
      by apply Hbreaks.
    + intros [|i] l Hl; simpl in Hl.
      * injection Hl as <-. by rewrite Hd.
      * specialize (Hout i l Hl). rewrite segments_before_S, Hd, N.add_0_l.
        exact Hout.
  - simpl in Hline.
    destruct (urljoin url (Py.strip line)) as [abs_url|e] eqn:Hjoin; [|done].
    rewrite bind_return.
    apply utf8_encode_encodable in Hline as [bs Hbs].
    destruct (Url.quote_plus abs_url) as [E|e] eqn:HE.
    2:{ exfalso. revert HE. unfold Url.quote_plus, Url.quote. rewrite Hbs.
        by destruct (existsb _ _). }
    destruct (IH (new_lines ++ [lit "/segment?u=" ++ E ++ lit "&i=" ++ Py.str_of_int seq])
                 (seq + 1) Hrest) as (out & seq' & Hrun & Hlen & Hbreaks & Hout).
    exists ((lit "/segment?u=" ++ E ++ lit "&i=" ++ Py.str_of_int seq) :: out), seq'.
    split; [|split; [|split]].
    + rewrite !bind_return, Hrun. by rewrite <- app_assoc.
    + simpl. by rewrite Hlen.
    + intros Hl. apply Forall_cons in Hl as [? ?]. constructor; [|by apply Hbreaks].
      rewrite !elem_of_app. intros [Hin|[Hin|[Hin|Hin]]].
      * revert Hin. apply (bool_decide_unpack (10 ∉ lit "/segment?u=")).
        vm_compute. exact I.
      * by apply (quote_plus_no_newline _ _ HE).
      * revert Hin. apply (bool_decide_unpack (10 ∉ lit "&i=")).
        vm_compute. exact I.
      * by apply str_of_int_no_newline in Hin.
    + intros [|i] l Hl; simpl in Hl.
      * injection Hl as <-. rewrite Hd. exists abs_url, E.
        by rewrite segments_before_0, N.add_0_r.
      * specialize (Hout i l Hl). rewrite segments_before_S, Hd.
        by replace (seq + (1 + segments_before lines i))
          with (seq + 1 + segments_before lines i) by lia.
Qed.

(** With segment lines that resolve to URLs that can be encoded, the
    rewrite returns. *)
Lemma rewrite_playlist_returns url playlist_text :
  refs_encodable url playlist_text = true →
  ∃ rewritten, rewrite_playlist url playlist_text = Return rewritten.
Proof.
  intros H. unfold rewrite_playlist.
  destruct (rewrite_lines_spec url _ [] 0 H) as (out & seq' & Hrun & _).
  rewrite Hrun. by eexists.
Qed.


(** When some segment line is refused by [urljoin], or resolves to a URL
    with a lone surrogate, the rewrite raises instead of returning: the
    exception is the one of the first such line. *)
Lemma rewrite_lines_raise url lines new_lines seq :
  forallb (ref_encodable url) lines = false →
  ∃ e line,
    for_each (rewrite_line url) (new_lines, seq) lines = Raise e
    ∧ line ∈ lines ∧ is_directive line = false
    ∧ (urljoin url (Py.strip line) = Raise e
       ∨ ∃ abs_url, urljoin url (Py.strip line) = Return abs_url
                    ∧ encodable abs_url = false
                    ∧ e = Url.UnicodeEncodeError).
Proof.
  revert new_lines seq.
  induction lines as [|line lines IH]; intros new_lines seq H; [done|].
  assert (Hlater : ∀ new_lines' seq',
    forallb (ref_encodable url) lines = false →
    ∃ e l,
      for_each (rewrite_line url) (new_lines', seq') lines = Raise e
      ∧ l ∈ line :: lines ∧ is_directive l = false
      ∧ (urljoin url (Py.strip l) = Raise e
         ∨ ∃ abs_url, urljoin url (Py.strip l) = Return abs_url
                      ∧ encodable abs_url = false
                      ∧ e = Url.UnicodeEncodeError)).
  { intros new_lines' seq' Hrest.
    destruct (IH new_lines' seq' Hrest) as (e & l & Hrun & Hin & Hl).
    exists e, l. split; [done|]. split; [by right|done]. }
  simpl in H. cbn [for_each]. unfold rewrite_line at 2. fold (is_directive line).
  unfold ref_encodable in H at 1.
  destruct (is_directive line) eqn:Hd; simpl in H.
  - rewrite bind_return. by apply Hlater.
  - destruct (urljoin url (Py.strip line)) as [abs_url|e] eqn:Hjoin.
    2:{ exists e, line. rewrite bind_raise. split; [done|].
        split; [by left|]. split; [done|by left]. }
    rewrite bind_return.
    destruct (encodable abs_url) eqn:He; simpl in H.
    + apply utf8_encode_encodable in He as [bs Hbs].
      unfold Url.quote_plus, Url.quote. rewrite Hbs.
      destruct (existsb _ _); rewrite !bind_return; by apply Hlater.
    + exists Url.UnicodeEncodeError, line. split.
      { unfold Url.quote_plus, Url.quote.
        rewrite (utf8_encode_raises _ He). by destruct (existsb _ _). }
      split; [by left|]. split; [done|]. right. by exists abs_url.
Qed.

Lemma rewrite_playlist_raises url playlist_text :
  refs_encodable url playlist_text = false →
  ∃ e line,
    rewrite_playlist url playlist_text = Raise e
    ∧ line ∈ Py.splitlines playlist_text ∧ is_directive line = false
    ∧ (urljoin url (Py.strip line) = Raise e
       ∨ ∃ abs_url, urljoin url (Py.strip line) = Return abs_url
                    ∧ encodable abs_url = false
                    ∧ e = Url.UnicodeEncodeError).
Proof.
  intros H. unfold rewrite_playlist.
  destruct (rewrite_lines_raise url _ [] 0 H) as (e & line & Hrun & Hrest).
  exists e, line. by rewrite Hrun.
Qed.

(** *** Text that can be encoded

    For a manifest that is fetched, the rewrite fails only where [urljoin]
    does, as long as [urljoin] makes no lone surrogate out of none. *)

Lemma lstrip_Forall (P : N → Prop) s : Forall P s → Forall P (Py.lstrip s).
Proof.
  induction 1 as [|c s Hc Hs IH]; simpl; [constructor|].
  destruct (Py.isspace c); [done|by constructor].
Qed.

Lemma strip_Forall (P : N → Prop) s : Forall P s → Forall P (Py.strip s).
Proof.
  intros H. unfold Py.strip, Py.rstrip.
  apply Forall_rev, lstrip_Forall, Forall_rev. by apply lstrip_Forall.
Qed.

Lemma splitlines_from_Forall (P : N → Prop) n cur s :
  (length s <= n)%nat → Forall P cur → Forall P s →
  Forall (Forall P) (Py.splitlines_from cur s).
Proof.
  revert cur s. induction n as [|n IH]; intros cur s Hn Hcur Hs.
  { destruct s; [|simpl in Hn; lia]. simpl.
    destruct cur; repeat constructor. by apply Forall_rev. }
  destruct Hs as [|c t Hc Ht]; simpl.
  { destruct cur; repeat constructor. by apply Forall_rev. }
  simpl in Hn. destruct (c =? 13).
  - destruct Ht as [|d t' Hd Ht'].
    + repeat constructor. by apply Forall_rev.
    + simpl in Hn. destruct (d =? 10).
      * constructor; [by apply Forall_rev|]. apply IH; [lia|constructor|done].
      * constructor; [by apply Forall_rev|].
        apply IH; [simpl; lia|constructor|by constructor].
  - destruct (Py.is_linebreak c).
    + constructor; [by apply Forall_rev|]. apply IH; [lia|constructor|done].
    + apply IH; [lia|by constructor|done].
Qed.

Lemma splitlines_Forall (P : N → Prop) s :
  Forall P s → Forall (Forall P) (Py.splitlines s).
Proof.
  intros H. apply (splitlines_from_Forall P (length s)); [lia|constructor|done].
Qed.

Lemma encodable_Forall s : encodable s = true ↔ Forall (fun c => scalar c = true) s.
Proof.
  unfold encodable. rewrite forallb_forall, List.Forall_forall. done.
Qed.

Lemma scalar_spec c :
  scalar c = true ↔ c < 0xD800 ∨ (0xDFFF < c ∧ c < 0x110000).
Proof.
  unfold scalar. rewrite orb_true_iff, andb_true_iff, !N.ltb_lt. done.
Qed.

(** Whatever the bytes, decoding yields no surrogate and nothing above
    U+10FFFF, provided the replacement has none. *)
Lemma utf8_decode_scalar repl n bs :
  (length bs <= n)%nat →
  Forall (fun c => scalar c = true) repl →
  Forall (fun c => scalar c = true) (Url.utf8_decode repl bs).
Proof.
  intros Hn Hrepl. revert bs Hn. induction n as [|n IH]; intros bs Hn.
  { destruct bs; [constructor|simpl in Hn; lia]. }
  assert (∀ t, (length t <= n)%nat →
            Forall (fun c => scalar c = true) (repl ++ Url.utf8_decode repl t))
    as Hskip by (intros t Ht; apply Forall_app; split; [done|by apply IH]).
  destruct bs as [|b0 t]; [constructor|]. simpl in Hn.
  cbn [Url.utf8_decode].
  destruct (N.ltb_spec b0 0x80).
  { constructor; [|apply IH; lia]. apply scalar_spec. lia. }
  destruct ((0xC2 <=? b0) && (b0 <=? 0xDF)) eqn:H2.
  { apply andb_true_iff in H2 as [?%N.leb_le ?%N.leb_le].
    destruct t as [|b1 t1]; [done|]. simpl in Hn.
    unfold Url.cont. destruct ((0x80 <=? b1) && (b1 <=? 0xBF)) eqn:Hc1.
    - apply andb_true_iff in Hc1 as [?%N.leb_le ?%N.leb_le].
      constructor; [|apply IH; lia]. apply scalar_spec. lia.
    - apply Hskip. simpl. lia. }
  destruct ((0xE0 <=? b0) && (b0 <=? 0xEF)) eqn:H3.
  { apply andb_true_iff in H3 as [?%N.leb_le ?%N.leb_le].
    destruct t as [|b1 t1]; [done|]. simpl in Hn.
    destruct (Url.second3 b0 b1) eqn:Hs; [|apply Hskip; simpl; lia].
    destruct t1 as [|b2 t2]; [done|]. simpl in Hn.
    unfold Url.cont. destruct ((0x80 <=? b2) && (b2 <=? 0xBF)) eqn:Hc2;
      [|apply Hskip; simpl; lia].
    apply andb_true_iff in Hc2 as [?%N.leb_le ?%N.leb_le].
    constructor; [|apply IH; lia].
    revert Hs. unfold Url.second3, Url.cont.
    destruct (N.eqb_spec b0 0xE0); [|destruct (N.eqb_spec b0 0xED)];
      rewrite andb_true_iff, !N.leb_le; intros [? ?]; apply scalar_spec; lia. }
  destruct ((0xF0 <=? b0) && (b0 <=? 0xF4)) eqn:H4; [|apply Hskip; lia].
  apply andb_true_iff in H4 as [?%N.leb_le ?%N.leb_le].
  destruct t as [|b1 t1]; [done|]. simpl in Hn.
  destruct (Url.second4 b0 b1) eqn:Hs; [|apply Hskip; simpl; lia].
  destruct t1 as [|b2 t2]; [done|]. simpl in Hn.
  unfold Url.cont. destruct ((0x80 <=? b2) && (b2 <=? 0xBF)) eqn:Hc2;
    [|apply Hskip; simpl; lia].
  apply andb_true_iff in Hc2 as [?%N.leb_le ?%N.leb_le].
  destruct t2 as [|b3 t3]; [done|]. simpl in Hn.
  destruct ((0x80 <=? b3) && (b3 <=? 0xBF)) eqn:Hc3; [|apply Hskip; simpl; lia].
  apply andb_true_iff in Hc3 as [?%N.leb_le ?%N.leb_le].
  constructor; [|apply IH; lia].
  revert Hs. unfold Url.second4, Url.cont.
  destruct (N.eqb_spec b0 0xF0); [|destruct (N.eqb_spec b0 0xF4)];
    rewrite andb_true_iff, !N.leb_le; intros [? ?]; apply scalar_spec; lia.
Qed.

Section Encodable.

Hypothesis urljoin_encodable :
  ∀ base ref abs_url,
    encodable base = true → encodable ref = true →
    urljoin base ref = Return abs_url → encodable abs_url = true.

Lemma rewrite_playlist_text_raises url playlist_text e :
  encodable url = true → encodable playlist_text = true →
  rewrite_playlist url playlist_text = Raise e →
  ∃ line, line ∈ Py.splitlines playlist_text
          ∧ urljoin url (Py.strip line) = Raise e.
Proof using urljoin_encodable.
  intros Hu Ht Hraise.
  destruct (refs_encodable url playlist_text) eqn:Henc.
  { destruct (rewrite_playlist_returns _ _ Henc) as [? H]. congruence. }
  destruct (rewrite_playlist_raises _ _ Henc)
    as (e' & line & Hrun & Hin & _ & [Hjoin|(abs_url & Hjoin & Hbad & _)]).
  - exists line. split; [done|]. congruence.
  - exfalso. rewrite (urljoin_encodable url (Py.strip line) abs_url) in Hbad;
      [done|done| |done].
    apply encodable_Forall, strip_Forall. apply encodable_Forall in Ht.
    apply list_elem_of_In in Hin.
    by apply (proj1 (List.Forall_forall _ _) (splitlines_Forall _ _ Ht)).
Qed.

(** The text of a manifest is decoded with ['ignore']: it can always be
    encoded again, and its rewrite raises only what [urljoin] raises. *)
Lemma rewrite_playlist_fetched_raises url pl_bytes e :
  encodable url = true →
  rewrite_playlist url (Url.utf8_decode Url.errors_ignore pl_bytes) = Raise e →
  ∃ line, line ∈ Py.splitlines (Url.utf8_decode Url.errors_ignore pl_bytes)
          ∧ urljoin url (Py.strip line) = Raise e.
Proof using urljoin_encodable.
  intros Hu. apply rewrite_playlist_text_raises; [done|]. apply encodable_Forall.
  apply (utf8_decode_scalar _ (length pl_bytes)); [lia|constructor].
Qed.

End Encodable.

(** *** The relay endpoints *)

Lemma fetch_bytes_run url st : fetch_bytes url st = (fetched url, sent url st).
Proof.
  unfold fetch_bytes, fetched, http_get, sent, mbind, action_bind, lift.
  destruct (requests_get url) as [r|e]; [|done].
  simpl. by destruct (raise_for_status r).
Qed.

Lemma truthy_nonempty (s : list N) : s ≠ [] → Py.truthy s = true.
Proof. by destruct s. Qed.

(** [proxy_playlist] on a request that has its parameter: the cached text
    when it is fresh, the fetch otherwise. *)
Lemma proxy_playlist_run url now st :
  url ≠ [] →
  proxy_playlist (Some url) now st
  = match fresh st url now with
    | Some c => (Return (Response 200 (Text (data c)) mpegurl ∅), st)
    | None => proxy_playlist_fetch url now st
    end.
Proof.
  intros Hu. unfold proxy_playlist, fresh.
  rewrite (truthy_nonempty _ Hu). simpl.
  unfold mbind, action_bind, cache_get.
  destruct (playlist_cache st !! url) as [c|]; [|done].
  by destruct (Qltb (now - ts c) CACHE_TTL).
Qed.

Lemma proxy_playlist_fetch_failed url now st e :
  fetched url = Raise e →
  proxy_playlist_fetch url now st
  = (Return (plain (lit "Failed to fetch playlist: " ++ exn_text e) 502),
     sent url st).
Proof.
  intros H. unfold proxy_playlist_fetch, mbind, action_bind, action_try.
  by rewrite fetch_bytes_run, H.
Qed.

Lemma proxy_playlist_fetch_stored url now st pl_bytes rewritten :
  fetched url = Return pl_bytes →
  rewrite_playlist url (Url.utf8_decode Url.errors_ignore pl_bytes)
    = Return rewritten →
  proxy_playlist_fetch url now st
  = (Return (Response 200 (Text rewritten) mpegurl ∅),
     AppState (<[url := CacheEntry rewritten now]> (playlist_cache st))
              (upstream st ++ [url])).
Proof.
  intros H Hrw. unfold proxy_playlist_fetch, mbind, action_bind, action_try.
  rewrite fetch_bytes_run, H. simpl. unfold lift. by rewrite Hrw.
Qed.

Lemma proxy_playlist_fetch_raised url now st pl_bytes e :
  fetched url = Return pl_bytes →
  rewrite_playlist url (Url.utf8_decode Url.errors_ignore pl_bytes) = Raise e →
  proxy_playlist_fetch url now st = (Raise e, sent url st).
Proof.
  intros H Hrw. unfold proxy_playlist_fetch, mbind, action_bind, action_try.
  rewrite fetch_bytes_run, H. simpl. unfold lift. by rewrite Hrw.
Qed.



(** C10.  When the fetch made for [GET /proxy_playlist?url=U] raises (the
    origin is out of reach, or answers with an error status), the answer
    has status 502 and the playlist cache is what it was: no entry is
    created, replaced or removed. *)
Theorem proxy_playlist_failed_fetch url now st e :
  url ≠ [] → fresh st url now = None → fetched url = Raise e →
  ∃ text st',
    proxy_playlist (Some url) now st = (Return (plain text 502), st')
    ∧ playlist_cache st' = playlist_cache st
    ∧ upstream st' = upstream st ++ [url].
Proof.
  intros Hu Hmiss Hf. rewrite (proxy_playlist_run _ _ _ Hu), Hmiss.
  rewrite (proxy_playlist_fetch_failed _ _ _ _ Hf). by eexists _, _.
Qed.

(** *** The capture slot *)

Lemma contains_truthy u p : p ≠ [] → Py.contains u p = true → Py.truthy u = true.
Proof. destruct u, p; try done. Qed.

(** A slot that holds a URL with the manifest extension is set. *)
Lemma slot_set_match u :
  Py.contains u (lit ".m3u8") = true → slot_set (Some u) = true.
Proof. apply contains_truthy. done. Qed.

Lemma on_request_set u url :
  slot_set (Some u) = true → on_request url (Some u) = Some u.
Proof.
  intros H. unfold on_request, on_request_assigns. rewrite H.
  by rewrite andb_false_r.
Qed.

Lemma listen_set urls u :
  slot_set (Some u) = true → listen urls (Some u) = Some u.
Proof.
  intros H. unfold listen. induction urls as [|url urls IH]; [done|].
  simpl. by rewrite on_request_set.
Qed.

Lemma first_match_cons url urls :
  first_match (url :: urls)
  = if Py.contains url (lit ".m3u8") then Some url else first_match urls.
Proof.
  unfold first_match. destruct (Py.contains url (lit ".m3u8")) eqn:H.
  - by rewrite filter_cons_True.
  - rewrite filter_cons_False; [done|]. by rewrite H.
Qed.

Lemma listen_first_match urls : listen urls None = first_match urls.
Proof.
  induction urls as [|url urls IH]; [done|].
  rewrite first_match_cons. unfold listen in *. simpl.
  unfold on_request, on_request_assigns. simpl. rewrite andb_true_r.
  destruct (Py.contains url (lit ".m3u8")) eqn:H; [|done].
  apply listen_set. by apply slot_set_match.
Qed.

Lemma listen_app earlier later captured :
  listen (earlier ++ later) captured = listen later (listen earlier captured).
Proof. unfold listen. by rewrite foldl_app. Qed.

Lemma assignments_set urls u :
  slot_set (Some u) = true → assignments urls (Some u) = 0%nat.
Proof.
  intros H. induction urls as [|url urls IH]; [done|].
  simpl. rewrite on_request_set by done. rewrite IH.
  unfold on_request_assigns. rewrite H. by rewrite andb_false_r.
Qed.

Lemma assignments_once urls : (assignments urls None <= 1)%nat.
Proof.
  induction urls as [|url urls IH]; simpl; [lia|].
  unfold on_request, on_request_assigns. simpl. rewrite andb_true_r.
  destruct (Py.contains url (lit ".m3u8")) eqn:H; [|done].
  rewrite assignments_set; [lia|]. by apply slot_set_match.
Qed.

(** C4.  In a session, whose slot starts empty, the listener leaves in the
    slot the first requested URL that contains [.m3u8]; it assigns the
    slot at most once; and once the slot is set, the requests that follow
    leave it as it is and assign nothing. *)
Theorem capture_slot_written_once urls :
  listen urls None = first_match urls
  ∧ (assignments urls None <= 1)%nat
  ∧ ∀ earlier later,
      urls = earlier ++ later →
      slot_set (listen earlier None) = true →
      listen urls None = listen earlier None
      ∧ assignments later (listen earlier None) = 0%nat.
Proof.
  split; [apply listen_first_match|]. split; [apply assignments_once|].
  intros earlier later -> Hset. rewrite listen_app.
  destruct (listen earlier None) as [u|]; [|done].
  by rewrite listen_set, assignments_set.
Qed.

(** *** The capture loop *)

#[local] Arguments run_session : simpl never.

Lemma listen_captured_in s c captured :
  call_of s c → captured_in s captured → captured_in s (listen (requests c) captured).
Proof.
  intros Hc H. destruct captured as [u|].
  { destruct H as [Hu ?]. rewrite listen_set; [done|]. by apply slot_set_match. }
  rewrite listen_first_match.
  destruct (first_match (requests c)) as [u|] eqn:Hf; [|done].
  unfold first_match in Hf. apply head_Some_elem_of in Hf.
  apply list_elem_of_filter in Hf as [Hu Hin]. split; [done|]. eauto.
Qed.

Lemma during_captured_in s c captured :
  call_of s c → captured_in s captured → captured_in s (during c captured).
Proof. apply listen_captured_in. Qed.

Lemma click_first_captured_in s sels captured :
  sels ⊆ selectors → captured_in s captured →
  captured_in s (click_first s sels captured).1.
Proof.
  revert captured. induction sels as [|sel sels IH]; intros captured Hsub H; [done|].
  assert (sel ∈ selectors) as Hsel by (apply Hsub; left).
  assert (sels ⊆ selectors) as Hsels by (intros x Hx; apply Hsub; by right).
  assert (captured_in s (during (query (select s sel)) captured)) as Hq
    by (apply during_captured_in; [by constructor|done]).
  simpl. destruct (raises (query (select s sel))); [by apply IH|].
  destruct (element (select s sel)) as [click|] eqn:He; [|by apply IH].
  assert (captured_in s (during click (during (query (select s sel)) captured)))
    by (apply during_captured_in; [by econstructor|done]).
  destruct (raises click); [by apply IH|done].
Qed.

Lemma poll_captured_in s n i captured res :
  (i + n <= 30)%nat → captured_in s captured →
  poll s n i captured = Return res → captured_in s res.
Proof.
  revert i captured. induction n as [|n IH]; intros i captured Hi H; simpl.
  { by intros [= <-]. }
  destruct (slot_set captured); [by intros [= <-]|].
  destruct (raises (wait s i)); [done|].
  apply IH; [lia|]. apply during_captured_in; [constructor; lia|done].
Qed.

(** The slot at the end of a session. *)
Lemma run_session_captured_in s res :
  run_session s = Return res → captured_in s res.
Proof.
  unfold run_session. destruct (launch_raises s); [done|].
  pose proof (during_captured_in s (goto s) None (call_goto s) I) as Hg.
  pose proof (click_first_captured_in s selectors _ (reflexivity _) Hg) as Hc.
  destruct (click_first s selectors (during (goto s) None)) as [captured clicked].
  simpl in Hc.
  set (captured' := if clicked then captured else during (mouse_click s) captured).
  assert (captured_in s captured') as Hm.
  { unfold captured'. destruct clicked; [done|].
    apply during_captured_in; [constructor|done]. }
  destruct (poll s 30 0 captured') as [polled|e] eqn:Hp; [|done].
  apply poll_captured_in in Hp; [|lia|done].
  rewrite bind_return. destruct (raises (close s)); [done|].
  intros [= <-]. apply during_captured_in; [constructor|done].
Qed.

Lemma captured_in_unset s captured :
  captured_in s captured → slot_set captured = false → captured = None.
Proof.
  destruct captured as [u|]; [|done]. intros [Hu _] Hs.
  by rewrite slot_set_match in Hs.
Qed.

(** *** The requests of a session *)












#[local] Opaque run_session.

(** The loop of [capture_first_m3u8] from the attempt [attempt] on, with
    [remaining] attempts left. *)
Lemma capture_attempts_spec browser attempt remaining opened :
  ∃ n res,
    capture_attempts browser attempt remaining opened = (res, (opened + n)%nat)
    ∧ (n <= remaining)%nat
    ∧ (∀ k, (k + 1 < n)%nat → run_session (browser (attempt + k)%nat) = Return None)
    ∧ match res with
      | Return (Some u) =>
          (1 <= n)%nat
          ∧ run_session (browser (attempt + n - 1)%nat) = Return (Some u)
      | Return None =>
          n = remaining
          ∧ ∀ k, (k < n)%nat → run_session (browser (attempt + k)%nat) = Return None
      | Raise e =>
          (1 <= n)%nat ∧ run_session (browser (attempt + n - 1)%nat) = Raise e
      end.
Proof.
  revert attempt opened. induction remaining as [|remaining IH]; intros attempt opened.
  { exists 0%nat, (Return None). cbn [capture_attempts]. rewrite Nat.add_0_r.
    split; [reflexivity|]. split; [lia|]. split; [intros; lia|].
    split; [reflexivity|]. intros; lia. }
  cbn [capture_attempts].
  destruct (run_session (browser attempt)) as [captured|e] eqn:Hrun.
  2:{ exists 1%nat, (Raise e). rewrite Nat.add_1_r.
      split; [reflexivity|]. split; [lia|]. split; [intros; lia|].
      split; [lia|]. replace (attempt + 1 - 1)%nat with attempt by lia. exact Hrun. }
  pose proof (run_session_captured_in _ _ Hrun) as Hin.
  destruct (slot_set captured) eqn:Hset.
  { exists 1%nat, (Return captured). rewrite Nat.add_1_r.
    split; [reflexivity|]. split; [lia|]. split; [intros; lia|].
    destruct captured as [u|]; [|discriminate Hset].
    split; [lia|]. replace (attempt + 1 - 1)%nat with attempt by lia. exact Hrun. }
  apply (captured_in_unset _ _ Hin) in Hset. subst captured.
  destruct (IH (S attempt) (S opened)) as (n & res & Hcap & Hn & Hbefore & Hres).
  exists (S n), res. rewrite Hcap.
  split; [f_equal; lia|]. split; [lia|]. split.
  { intros [|k] Hk; [rewrite Nat.add_0_r; exact Hrun|].
    replace (attempt + S k)%nat with (S attempt + k)%nat by lia. apply Hbefore. lia. }
  destruct res as [[u|]|e].
  - destruct Hres as [? Hres]. split; [lia|].
    replace (attempt + S n - 1)%nat with (S attempt + n - 1)%nat by lia. exact Hres.
  - destruct Hres as [-> Hres]. split; [reflexivity|].
    intros [|k] Hk; [rewrite Nat.add_0_r; exact Hrun|].
    replace (attempt + S k)%nat with (S attempt + k)%nat by lia. apply Hres. lia.
  - destruct Hres as [? Hres]. split; [lia|].
    replace (attempt + S n - 1)%nat with (S attempt + n - 1)%nat by lia. exact Hres.
Qed.


(** *** Patterns *)

Lemma startswith_prefix s p :
  Py.startswith s p = true ↔ ∃ rest, s = p ++ rest.
Proof.
  revert s. induction p as [|a p IH]; intros [|b s]; cbn [Py.startswith].
  - split; [by exists []|done].
  - split; [by exists (b :: s)|done].
  - split; [done|by intros [? ?]].
  - rewrite andb_true_iff, N.eqb_eq, IH. split.
    + intros [-> [rest ->]]. by exists rest.
    + intros [rest [= -> ->]]. by eauto.
Qed.

Lemma startswith_drop s p :
  Py.startswith s p = true → s = p ++ drop (length p) s.
Proof.
  intros [rest ->]%startswith_prefix. by rewrite drop_app_length.
Qed.

(** [cls+] takes the longest run of the class after which the rest
    matches; it fails when no run will do. *)
Lemma plus_match_spec {R} cls s (k : list N → option R) :
  match Re.plus_match cls s k with
  | Some r =>
      ∃ run rest,
        s = run ++ rest ∧ run ≠ [] ∧ Forall (fun c => cls c = true) run
        ∧ k rest = Some r
        ∧ ∀ run' rest', s = run' ++ rest' → Forall (fun c => cls c = true) run' →
            (length run < length run')%nat → k rest' = None
  | None =>
      ∀ run rest, s = run ++ rest → run ≠ [] →
        Forall (fun c => cls c = true) run → k rest = None
  end.
Proof.
  induction s as [|c t IH]; cbn [Re.plus_match].
  { intros run rest H Hne. by destruct run. }
  destruct (cls c) eqn:Hc.
  - destruct (Re.plus_match cls t k) as [r|].
    + destruct IH as (run & rest & -> & Hne & Hrun & Hk & Hmax).
      exists (c :: run), rest. split; [done|]. split; [done|].
      split; [by constructor|]. split; [done|].
      intros [|c' run'] rest' Heq Hrun' Hlen; [cbn in Hlen; lia|].
      injection Heq as -> Heq. apply (Hmax run'); [done|by inversion Hrun'|].
      cbn in Hlen. lia.
    + destruct (k t) as [r|] eqn:Hk.
      * exists [c], t. split; [done|]. split; [done|].
        split; [by repeat constructor|]. split; [done|].
        intros [|c' [|c'' run']] rest' Heq Hrun' Hlen; cbn in Hlen; [lia..|].
        injection Heq as -> Heq. apply (IH (c'' :: run')); [done|done|].
        by inversion Hrun'.
      * intros [|c' [|c'' run]] rest Heq Hne Hrun; [done|..].
        -- by injection Heq as -> ->.
        -- injection Heq as -> Heq. apply (IH (c'' :: run)); [done|done|].
           by inversion Hrun.
  - intros [|c' run] rest Heq Hne Hrun; [done|].
    injection Heq as -> _. inversion Hrun; congruence.
Qed.

(** *** Variant selection *)


































(** *** The title resolver *)

Lemma Qltb_lt x y : Qltb x y = true ↔ (x < y)%Q.
Proof.
  unfold Qltb. rewrite negb_true_iff. split.
  - intros H. apply Qnot_le_lt. intros Hle.
    apply Qle_bool_iff in Hle. congruence.
  - intros H. destruct (Qle_bool y x) eqn:E; [|done].
    apply Qle_bool_iff in E. exfalso. by apply (Qlt_not_le _ _ H).
Qed.

Lemma Qltb_ge x y : Qltb x y = false ↔ (y <= x)%Q.
Proof.
  unfold Qltb. rewrite negb_false_iff. apply Qle_bool_iff.
Qed.

(** The loop of [extractOne]: [seen] are the choices already compared. *)
Lemma extractOne_from_spec query seen rest best score idx :
  seen !! idx = Some best →
  score = token_sort_ratio query best →
  (∀ c, c ∈ seen → (token_sort_ratio query c <= score)%Q) →
  (∀ (j : nat) c, (j < idx)%nat → seen !! j = Some c →
     (token_sort_ratio query c < score)%Q) →
  ∃ best' idx',
    extractOne_from query (length seen) rest (best, score, idx)
      = (best', token_sort_ratio query best', idx')
    ∧ (seen ++ rest) !! idx' = Some best'
    ∧ (∀ c, c ∈ seen ++ rest →
         (token_sort_ratio query c <= token_sort_ratio query best')%Q)
    ∧ (∀ (j : nat) c, (j < idx')%nat → (seen ++ rest) !! j = Some c →
         (token_sort_ratio query c < token_sort_ratio query best')%Q).
Proof.
  revert seen best score idx.
  induction rest as [|c rest IH]; intros seen best score idx Hbest -> Hall Hbefore.
  { exists best, idx. rewrite app_nil_r. done. }
  cbn [extractOne_from]. cbn [fst snd].
  assert (idx < length seen)%nat as Hidx by (by eapply lookup_lt_Some).
  replace (S (length seen)) with (length (seen ++ [c]))
    by (rewrite length_app; simpl; lia).
  replace (seen ++ c :: rest) with ((seen ++ [c]) ++ rest)
    by (by rewrite <- app_assoc).
  destruct (Qltb (token_sort_ratio query best) (token_sort_ratio query c)) eqn:Hlt.
  - apply Qltb_lt in Hlt.
    apply (IH (seen ++ [c]) c _ (length seen)); [|done| |].
    + by rewrite lookup_app_r, Nat.sub_diag.
    + intros x Hx. apply elem_of_app in Hx as [Hx|Hx].
      * apply Qlt_le_weak. eapply Qle_lt_trans; [by apply Hall|done].
      * apply list_elem_of_singleton in Hx as ->. apply Qle_refl.
    + intros j x Hj Hx. rewrite lookup_app_l in Hx by done.
      eapply Qle_lt_trans; [|exact Hlt]. apply Hall.
      by eapply list_elem_of_lookup_2.
  - apply Qltb_ge in Hlt.
    apply (IH (seen ++ [c]) best _ idx); [|done| |].
    + by rewrite lookup_app_l.
    + intros x Hx. apply elem_of_app in Hx as [Hx|Hx]; [by apply Hall|].
      by apply list_elem_of_singleton in Hx as ->.
    + intros j x Hj Hx. rewrite lookup_app_l in Hx by lia. by apply (Hbefore j).
Qed.

(** [extractOne] returns a choice of greatest score, the first of them. *)
Lemma extractOne_spec query c choices :
  ∃ best idx,
    extractOne query (c :: choices)
      = Some (best, token_sort_ratio query best, idx)
    ∧ (c :: choices) !! idx = Some best
    ∧ (∀ x, x ∈ c :: choices →
         (token_sort_ratio query x <= token_sort_ratio query best)%Q)
    ∧ (∀ (j : nat) x, (j < idx)%nat → (c :: choices) !! j = Some x →
         (token_sort_ratio query x < token_sort_ratio query best)%Q).
Proof.
  destruct (extractOne_from_spec query [c] choices c
              (token_sort_ratio query c) 0%nat)
    as (best & idx & Hrun & Hrest); [done|done| |intros; lia|].
  { intros x Hx. apply list_elem_of_singleton in Hx as ->. apply Qle_refl. }
  exists best, idx. split; [|exact Hrest]. unfold extractOne. by rewrite <- Hrun.
Qed.

(** The names run parallel to the results. *)
Lemma mapM_display_name results names :
  mapM display_name results = Return names →
  length names = length results
  ∧ ∀ (i : nat) name, names !! i = Some name →
      ∃ r, results !! i = Some r ∧ display_name r = Return name.
Proof.
  revert names. induction results as [|r results IH]; intros names H.
  { injection H as <-. split; [done|]. intros i name Hn. done. }
  cbn in H. destruct (display_name r) as [n|e] eqn:Hr; [|done].
  cbn in H. destruct (mapM display_name results) as [ns|e] eqn:Hrs; [|done].
  injection H as <-. destruct (IH ns eq_refl) as [Hlen Hnames].
  split; [simpl; by rewrite Hlen|].
  intros [|i] name Hn; simpl in Hn.
  - injection Hn as <-. by exists r.
  - by apply Hnames.
Qed.

(** C8.  For a result list whose entries carry the name the code reads:
    with no result, or when no name scores above 60, [get_best_match]
    returns [None]; when some name scores above 60, it returns the result
    whose name has the greatest score, the first of them, and that score
    is above 60. *)
Theorem get_best_match_threshold title results names :
  mapM display_name results = Return names →
  (results = [] → get_best_match title results = Return None)
  ∧ ((∀ name, name ∈ names → (token_sort_ratio title name <= 60)%Q) →
     get_best_match title results = Return None)
  ∧ ((∃ name, name ∈ names ∧ (60 < token_sort_ratio title name)%Q) →
     ∃ (idx : nat) r best,
       get_best_match title results = Return (Some r)
       ∧ results !! idx = Some r
       ∧ names !! idx = Some best
       ∧ (60 < token_sort_ratio title best)%Q
       ∧ (∀ name, name ∈ names →
            (token_sort_ratio title name <= token_sort_ratio title best)%Q)
       ∧ (∀ (j : nat) name, (j < idx)%nat → names !! j = Some name →
            (token_sort_ratio title name < token_sort_ratio title best)%Q)).
Proof.
  intros Hnames. destruct (mapM_display_name _ _ Hnames) as [Hlen Hpar].
  unfold get_best_match. rewrite Hnames, bind_return.
  destruct names as [|c choices].
  { split; [done|]. split; [done|]. intros (name & Hin & _). by inversion Hin. }
  split; [intros ->; done|].
  destruct (extractOne_spec title c choices)
    as (best & idx & -> & Hidx & Hall & Hbefore).
  split.
  - intros Hlow.
    assert (token_sort_ratio title best <= 60)%Q as Hb
      by (apply Hlow; by eapply list_elem_of_lookup_2).
    apply Qltb_ge in Hb. rewrite Hb. by rewrite andb_false_r.
  - intros (name & Hin & Hhigh).
    assert (60 < token_sort_ratio title best)%Q as Hb
      by (eapply Qlt_le_trans; [exact Hhigh|by apply Hall]).
    assert (Qeq_bool (token_sort_ratio title best) 0 = false) as Hnz.
    { destruct (Qeq_bool _ 0) eqn:E; [|done]. apply Qeq_bool_iff in E.
      rewrite E in Hb. apply Qlt_not_le in Hb. exfalso. apply Hb. by unfold Qle. }
    rewrite Hnz. apply Qltb_lt in Hb as Hb'. rewrite Hb'. simpl.
    destruct (Hpar idx best Hidx) as (r & Hr & _). rewrite Hr.
    by exists idx, r, best.
Qed.

(** *** Autocomplete *)

Lemma insert_scored_perm x sorted : insert_scored x sorted ≡ₚ x :: sorted.
Proof.
  induction sorted as [|y rest IH]; simpl; [done|].
  destruct (Qltb (y.1.2) (x.1.2)); [done|].
  rewrite IH. apply Permutation_swap.
Qed.

Lemma sort_scored_perm scored sorted :
  foldl (fun acc x => insert_scored x acc) sorted scored ≡ₚ sorted ++ scored.
Proof.
  revert sorted. induction scored as [|x scored IH]; intros sorted; simpl.
  - by rewrite app_nil_r.
  - rewrite IH, insert_scored_perm. simpl. apply Permutation_middle.
Qed.

(** Sorted by falling score. *)
Lemma insert_scored_sorted x sorted :
  StronglySorted (fun a b => (b.1.2 <= a.1.2)%Q) sorted →
  StronglySorted (fun a b => (b.1.2 <= a.1.2)%Q) (insert_scored x sorted).
Proof.
  induction 1 as [|y rest Hrest IH Hy]; simpl.
  { repeat constructor. }
  destruct (Qltb (y.1.2) (x.1.2)) eqn:Hlt.
  - apply Qltb_lt in Hlt. constructor; [by constructor|].
    constructor; [by apply Qlt_le_weak|].
    eapply Forall_impl; [exact Hy|]. simpl. intros z Hz.
    apply Qlt_le_weak. by eapply Qle_lt_trans.
  - apply Qltb_ge in Hlt. constructor; [done|].
    apply Forall_forall. intros z Hz.
    rewrite insert_scored_perm in Hz. apply elem_of_cons in Hz as [->|Hz]; [done|].
    by apply (proj1 (Forall_forall _ _) Hy).
Qed.

Lemma sort_scored_sorted scored sorted :
  StronglySorted (fun a b => (b.1.2 <= a.1.2)%Q) sorted →
  StronglySorted (fun a b => (b.1.2 <= a.1.2)%Q)
    (foldl (fun acc x => insert_scored x acc) sorted scored).
Proof.
  revert sorted. induction scored as [|x scored IH]; intros sorted H; simpl; [done|].
  apply IH. by apply insert_scored_sorted.
Qed.

Lemma sorted_app_le {A} (R : A → A → Prop) (l1 l2 : list A) :
  StronglySorted R (l1 ++ l2) → ∀ x y, x ∈ l1 → y ∈ l2 → R x y.
Proof.
  induction l1 as [|a l1 IH]; simpl; intros H x y Hx Hy; [by inversion Hx|].
  apply StronglySorted_inv in H as [Hs Ha].
  apply elem_of_cons in Hx as [->|Hx]; [|by apply IH].
  apply (proj1 (Forall_forall _ _) Ha). apply elem_of_app. by right.
Qed.

Lemma length_score_all query i choices :
  length (score_all query i choices) = length choices.
Proof.
  revert i. induction choices as [|c rest IH]; intros i; simpl; [done|].
  by rewrite IH.
Qed.

(** The filter of the page script keeps the first of the names that are
    the same ignoring case. *)
Lemma unique_from_spec seen suggestions :
  (∀ s, s ∈ unique_from seen suggestions →
     s ∈ suggestions ∧ toLowerCase s ∉ seen)
  ∧ NoDup (toLowerCase <$> unique_from seen suggestions)
  ∧ (∀ s, s ∈ suggestions →
       toLowerCase s ∈ seen
       ∨ ∃ s', s' ∈ unique_from seen suggestions ∧ same_name s s').
Proof.
  revert seen. induction suggestions as [|s rest IH]; intros seen; simpl.
  { split; [intros s Hs; by inversion Hs|]. split; [constructor|].
    intros s Hs. by inversion Hs. }
  destruct (decide (toLowerCase s ∈ seen)) as [Hseen|Hnew].
  - destruct (IH seen) as (Hin & Hnd & Hcov). split; [|split; [done|]].
    + intros x Hx. destruct (Hin x Hx). split; [by right|done].
    + intros x Hx. apply elem_of_cons in Hx as [->|Hx]; [by left|by apply Hcov].
  - destruct (IH ({[ toLowerCase s ]} ∪ seen)) as (Hin & Hnd & Hcov).
    split; [|split].
    + intros x Hx. apply elem_of_cons in Hx as [->|Hx]; [split; [by left|done]|].
      destruct (Hin x Hx) as [? Hx']. split; [by right|].
      intros Hs. apply Hx'. apply elem_of_union. by right.
    + rewrite fmap_cons. constructor; [|done]. intros Hs.
      apply list_elem_of_fmap in Hs as (x & Hx & Hxin).
      destruct (Hin x Hxin) as [_ Hx']. apply Hx'. apply elem_of_union. left.
      apply elem_of_singleton. congruence.
    + intros x Hx. apply elem_of_cons in Hx as [->|Hx].
      * right. exists s. split; [by left|done].
      * destruct (Hcov x Hx) as [Hx'|(s' & Hs' & Hsame)].
        -- apply elem_of_union in Hx' as [Hx'|Hx']; [|by left].
           apply elem_of_singleton in Hx'. right. exists s. split; [by left|done].
        -- right. exists s'. split; [by right|done].
Qed.

Lemma uniqueSuggestions_distinct suggestions :
  distinct_names (uniqueSuggestions suggestions).
Proof.
  destruct (unique_from_spec ∅ suggestions) as (_ & Hnd & _).
  intros i j a b Ha Hb Hij Hsame. apply Hij. unfold uniqueSuggestions in *.
  apply (NoDup_lookup _ i j (toLowerCase a) Hnd).
  - by rewrite list_lookup_fmap, Ha.
  - rewrite list_lookup_fmap, Hb. simpl. by rewrite Hsame.
Qed.

(** C9, as the code has it.  For a query that is not blank, when the
    catalog answers and its entries carry the name the code reads, the
    endpoint returns the names of the five entries of greatest score (all
    of them when there are fewer), best first, whatever the scores are; a
    name that occurs twice among them is returned twice.  The page script
    then keeps, of the names that are the same ignoring case, the first
    one: the names it shows are distinct ignoring case, are among the
    returned ones, and every returned name is the same as one shown. *)
Theorem autocomplete_top_names q st results st' names :
  Py.strip q ≠ [] →
  search_tmdb (Py.strip q) st = (Return results, st') →
  mapM display_name results = Return names →
  ∃ top rest,
    autocomplete q st = (Return (map (fun m => m.1.1) top), st')
    ∧ top ++ rest ≡ₚ score_all (Py.strip q) 0 names
    ∧ length top = (5 `min` length names)%nat
    ∧ StronglySorted (fun a b => (b.1.2 <= a.1.2)%Q) top
    ∧ (∀ x y, x ∈ top → y ∈ rest → (y.1.2 <= x.1.2)%Q)
    ∧ distinct_names (uniqueSuggestions (map (fun m => m.1.1) top))
    ∧ (∀ s, s ∈ uniqueSuggestions (map (fun m => m.1.1) top) →
         s ∈ map (fun m => m.1.1) top)
    ∧ (∀ s, s ∈ map (fun m => m.1.1) top →
         ∃ s', s' ∈ uniqueSuggestions (map (fun m => m.1.1) top)
               ∧ same_name s s').
Proof.
  intros Hq Hsearch Hnames.
  set (sorted := foldl (fun acc x => insert_scored x acc) []
                   (score_all (Py.strip q) 0 names)).
  assert (sorted ≡ₚ score_all (Py.strip q) 0 names) as Hperm
    by apply sort_scored_perm.
  assert (StronglySorted (fun a b => (b.1.2 <= a.1.2)%Q) sorted) as Hsorted
    by (apply sort_scored_sorted; constructor).
  exists (take 5 sorted), (drop 5 sorted). rewrite take_drop.
  split; [|split; [done|split; [|split; [|split; [|split; [|split]]]]]].
  - unfold autocomplete. rewrite (truthy_nonempty _ Hq). simpl.
    unfold mbind at 1, action_bind. rewrite Hsearch.
    unfold mbind, action_bind, lift. by rewrite Hnames.
  - rewrite length_take, Hperm, length_score_all. done.
  - rewrite <- (take_drop 5 sorted) in Hsorted.
    clear -Hsorted. revert Hsorted. generalize (take 5 sorted) as l1.
    induction l1 as [|a l1 IH]; simpl; intros H; [constructor|].
    apply StronglySorted_inv in H as [Hs Ha]. constructor; [by apply IH|].
    apply Forall_app in Ha as [Ha _]. done.
  - apply sorted_app_le. by rewrite take_drop.
  - apply uniqueSuggestions_distinct.
  - intros s Hs. by apply (unique_from_spec ∅) in Hs as [? _].
  - intros s Hs. destruct (unique_from_spec ∅ (map (fun m => m.1.1) (take 5 sorted)))
      as (_ & _ & Hcov).
    destruct (Hcov s Hs) as [Hin|Hex]; [by apply not_elem_of_empty in Hin|done].
Qed.

(** *** Requests served at the same time *)

(** A thread that runs its two parts without giving way does what
    [proxy_playlist] does. *)
Lemma thread_runs_proxy_playlist url t st :
  match arrive url t st with
  | (Fetching u now, st1) => answer u now st1
  | (th, st1) => (th, st1)
  end
  = (Done (proxy_playlist url t st).1, (proxy_playlist url t st).2).
Proof.
  destruct url as [url|]; [|done]. unfold arrive, proxy_playlist.
  destruct (Py.truthy url); [|done]. simpl.
  unfold mbind, action_bind, cache_get.
  assert (answer url t (AppState (playlist_cache st) (upstream st ++ [url]))
          = (Done (proxy_playlist_fetch url t st).1,
             (proxy_playlist_fetch url t st).2)) as Hfetch.
  { unfold answer, proxy_playlist_fetch, mbind, action_bind, action_try.
    rewrite fetch_bytes_run. unfold fetched, sent.
    destruct (requests_get url) as [r|e]; [|done]. rewrite bind_return.
    destruct (raise_for_status r) as [[]|e]; [|done]. rewrite bind_return.
    unfold lift. simpl. by destruct (rewrite_playlist _ _). }
  destruct (playlist_cache st !! url) as [c|]; [|done].
  by destruct (Qltb (t - ts c) CACHE_TTL).
Qed.

Lemma arrive_miss url t st :
  url ≠ [] → fresh st url t = None →
  arrive (Some url) t st = (Fetching url t, sent url st).
Proof.
  intros Hu. unfold arrive, fresh. rewrite (truthy_nonempty _ Hu). simpl.
  destruct (playlist_cache st !! url) as [c|]; [|done].
  by destruct (Qltb (t - ts c) CACHE_TTL).
Qed.

Lemma arrive_hit url t st c :
  url ≠ [] → fresh st url t = Some c →
  arrive (Some url) t st
  = (Done (Return (Response 200 (Text (data c)) mpegurl ∅)), st).
Proof.
  intros Hu. unfold arrive, fresh. rewrite (truthy_nonempty _ Hu). simpl.
  destruct (playlist_cache st !! url) as [c'|]; [|done].
  destruct (Qltb (t - ts c') CACHE_TTL); [|done]. by intros [= ->].
Qed.

Lemma answer_stored url now st pl_bytes rewritten :
  fetched url = Return pl_bytes →
  rewrite_playlist url (Url.utf8_decode Url.errors_ignore pl_bytes)
    = Return rewritten →
  answer url now st
  = (Done (Return (Response 200 (Text rewritten) mpegurl ∅)),
     AppState (<[url := CacheEntry rewritten now]> (playlist_cache st))
              (upstream st)).
Proof.
  unfold fetched, answer. intros Hf Hrw.
  destruct (requests_get url) as [r|e]; [|done]. rewrite bind_return in Hf.
  destruct (raise_for_status r) as [[]|e]; [|done]. rewrite bind_return in Hf.
  injection Hf as ->. by rewrite Hrw.
Qed.

Lemma answer_raised url now st pl_bytes e :
  fetched url = Return pl_bytes →
  rewrite_playlist url (Url.utf8_decode Url.errors_ignore pl_bytes) = Raise e →
  answer url now st = (Done (Raise e), st).
Proof.
  unfold fetched, answer. intros Hf Hrw.
  destruct (requests_get url) as [r|?]; [|done]. rewrite bind_return in Hf.
  destruct (raise_for_status r) as [[]|?]; [|done]. rewrite bind_return in Hf.
  injection Hf as ->. by rewrite Hrw.
Qed.

Lemma step_arrive threads st i t url th st' :
  threads !! i = Some (Arrived url) → arrive url t st = (th, st') →
  step (threads, st) (i, t) = (<[i := th]> threads, st').
Proof. intros Hi Ha. unfold step. by rewrite Hi, Ha. Qed.

Lemma step_answer threads st i t url now th st' :
  threads !! i = Some (Fetching url now) → answer url now st = (th, st') →
  step (threads, st) (i, t) = (<[i := th]> threads, st').
Proof. intros Hi Ha. unfold step. by rewrite Hi, Ha. Qed.

(** C3, as the code has it.  Take two requests for the same manifest on
    a cache without a fresh entry for it, and an origin that answers.
    With a manifest that the rewrite accepts: when the second request
    arrives after the first one is answered and less than 5 seconds
    after the first one arrived, one request goes upstream and both get
    the same text; when the second request arrives while the first one
    waits for the origin, it does not wait for that answer, whichever of
    the two is answered first: two requests go upstream, and the entry
    of the one answered last stays in the cache.  With a manifest on
    which the rewrite raises, nothing is stored, so that the second
    request goes upstream also when it arrives after the first one has
    ended. *)
Theorem proxy_playlist_no_coalescing url pl_bytes st t0 t1 t2 t3 :
  url ≠ [] →
  fresh st url t0 = None →
  fetched url = Return pl_bytes →
  match rewrite_playlist url (Url.utf8_decode Url.errors_ignore pl_bytes) with
  | Return rewritten =>
      ((t2 - t0 < CACHE_TTL)%Q →
       run [(0%nat, t0); (0%nat, t1); (1%nat, t2)] (two_requests url, st)
       = ([Done (Return (Response 200 (Text rewritten) mpegurl ∅));
           Done (Return (Response 200 (Text rewritten) mpegurl ∅))],
          AppState (<[url := CacheEntry rewritten t0]> (playlist_cache st))
                   (upstream st ++ [url])))
      ∧ (fresh st url t1 = None →
         run [(0%nat, t0); (1%nat, t1); (0%nat, t2); (1%nat, t3)]
             (two_requests url, st)
         = ([Done (Return (Response 200 (Text rewritten) mpegurl ∅));
             Done (Return (Response 200 (Text rewritten) mpegurl ∅))],
            AppState (<[url := CacheEntry rewritten t1]>
                        (<[url := CacheEntry rewritten t0]> (playlist_cache st)))
                     (upstream st ++ [url; url]))
         ∧ run [(0%nat, t0); (1%nat, t1); (1%nat, t2); (0%nat, t3)]
               (two_requests url, st)
           = ([Done (Return (Response 200 (Text rewritten) mpegurl ∅));
               Done (Return (Response 200 (Text rewritten) mpegurl ∅))],
              AppState (<[url := CacheEntry rewritten t0]>
                          (<[url := CacheEntry rewritten t1]> (playlist_cache st)))
                       (upstream st ++ [url; url])))
  | Raise e =>
      (fresh st url t2 = None →
       run [(0%nat, t0); (0%nat, t1); (1%nat, t2); (1%nat, t3)]
           (two_requests url, st)
       = ([Done (Raise e); Done (Raise e)],
          AppState (playlist_cache st) (upstream st ++ [url; url])))
      ∧ (fresh st url t1 = None →
         run [(0%nat, t0); (1%nat, t1); (0%nat, t2); (1%nat, t3)]
             (two_requests url, st)
         = ([Done (Raise e); Done (Raise e)],
            AppState (playlist_cache st) (upstream st ++ [url; url]))
         ∧ run [(0%nat, t0); (1%nat, t1); (1%nat, t2); (0%nat, t3)]
               (two_requests url, st)
           = ([Done (Raise e); Done (Raise e)],
              AppState (playlist_cache st) (upstream st ++ [url; url])))
  end.
Proof.
  intros Hu Hmiss Hf.
  assert (Hfirst :
    step (two_requests url, st) (0%nat, t0)
    = ([Fetching url t0; Arrived (Some url)], sent url st)).
  { erewrite step_arrive; [|reflexivity|by apply arrive_miss]. done. }
  assert (Hsecond : ∀ t th, fresh st url t = None →
    step ([th; Arrived (Some url)], sent url st) (1%nat, t)
    = ([th; Fetching url t], sent url (sent url st))).
  { intros t th Ht.
    erewrite step_arrive; [|reflexivity|by apply arrive_miss]. done. }
  assert (Hsent : sent url (sent url st)
                  = AppState (playlist_cache st) (upstream st ++ [url; url])).
  { unfold sent. cbn [playlist_cache upstream]. by rewrite <- app_assoc. }
  destruct (rewrite_playlist url (Url.utf8_decode Url.errors_ignore pl_bytes))
    as [rewritten|e] eqn:Hrw.
  - split; [|intros Hmiss1; split].
    + intros Hyoung. unfold run. cbn [foldl]. rewrite Hfirst.
      erewrite step_answer;
        [|reflexivity|by apply (answer_stored _ _ _ pl_bytes)].
      cbn [insert list_insert].
      erewrite step_arrive;
        [|reflexivity|apply (arrive_hit _ _ _ (CacheEntry rewritten t0) Hu)];
        [done|].
      unfold fresh. cbn [playlist_cache sent]. rewrite lookup_insert_eq.
      cbn [ts]. apply Qltb_lt in Hyoung. by rewrite Hyoung.
    + unfold run. cbn [foldl]. rewrite Hfirst, (Hsecond _ _ Hmiss1), Hsent.
      erewrite step_answer;
        [|reflexivity|by apply (answer_stored _ _ _ pl_bytes)].
      cbn [insert list_insert].
      erewrite step_answer;
        [|reflexivity|by apply (answer_stored _ _ _ pl_bytes)].
      done.
    + unfold run. cbn [foldl]. rewrite Hfirst, (Hsecond _ _ Hmiss1), Hsent.
      erewrite step_answer;
        [|reflexivity|by apply (answer_stored _ _ _ pl_bytes)].
      cbn [insert list_insert].
      erewrite step_answer;
        [|reflexivity|by apply (answer_stored _ _ _ pl_bytes)].
      done.
  - split; [|intros Hmiss1; split].
    + intros Hmiss2. unfold run. cbn [foldl]. rewrite Hfirst.
      erewrite step_answer;
        [|reflexivity|by apply (answer_raised _ _ _ pl_bytes)].
      cbn [insert list_insert]. rewrite (Hsecond _ _ Hmiss2), Hsent.
      erewrite step_answer;
        [|reflexivity|by apply (answer_raised _ _ _ pl_bytes)].
      done.
    + unfold run. cbn [foldl]. rewrite Hfirst, (Hsecond _ _ Hmiss1), Hsent.
      erewrite step_answer;
        [|reflexivity|by apply (answer_raised _ _ _ pl_bytes)].
      cbn [insert list_insert].
      erewrite step_answer;
        [|reflexivity|by apply (answer_raised _ _ _ pl_bytes)].
      done.
    + unfold run. cbn [foldl]. rewrite Hfirst, (Hsecond _ _ Hmiss1), Hsent.
      erewrite step_answer;
        [|reflexivity|by apply (answer_raised _ _ _ pl_bytes)].
      cbn [insert list_insert].
      erewrite step_answer;
        [|reflexivity|by apply (answer_raised _ _ _ pl_bytes)].
      done.
Qed.

(** *** MPEG-TS extraction *)

Lemma byte_at_sync (data : list N) i :
  (i < length data)%nat →
  (data !!! i =? 0x47) = true ↔ data !! i = Some 0x47.
Proof.
  intros Hi. rewrite (list_lookup_lookup_total_lt data i Hi).
  rewrite N.eqb_eq. split; [by intros -> | by intros [= ->]].
Qed.

Lemma following_sync_true data idx k count :
  following_sync data idx k count = true
  ↔ ∀ i, (k ≤ i < k + count)%nat → data !! (idx + i * 188)%nat = Some 0x47.
Proof.
  revert k. induction count as [|count IH]; intros k; cbn [following_sync].
  { split; [intros _ i Hi; lia | done]. }
  destruct (Nat.leb_spec (length data) (idx + k * 188)) as [Hout|Hin]; cbn [orb].
  { split; [done|]. intros H. specialize (H k ltac:(lia)).
    apply lookup_lt_Some in H. lia. }
  destruct (data !!! (idx + k * 188)%nat =? 0x47) eqn:Hb; cbn [negb].
  - rewrite IH. apply byte_at_sync in Hb; [|done]. split.
    + intros H i Hi. destruct (decide (i = k)) as [->|]; [done|]. apply H. lia.
    + intros H i Hi. apply H. lia.
  - split; [done|]. intros H. specialize (H k ltac:(lia)).
    apply byte_at_sync in H; [|done]. congruence.
Qed.

Lemma sync_run_following data m j :
  (j < length data)%nat →
  sync_run data m j
  ↔ (data !!! j =? 0x47) = true ∧ following_sync data j 1 m = true.
Proof.
  intros Hj. rewrite following_sync_true, (byte_at_sync data j Hj).
  unfold sync_run. split.
  - intros H. split.
    + specialize (H 0%nat ltac:(lia)). by rewrite Nat.add_0_r in H.
    + intros i Hi. apply H. lia.
  - intros [H0 H] k Hk. destruct k as [|k].
    + by rewrite Nat.add_0_r.
    + apply H. lia.
Qed.

Lemma scan_sync_spec data m idx count :
  (idx + count ≤ length data)%nat →
  match scan_sync data m idx count with
  | Some r =>
      (idx ≤ r < idx + count)%nat ∧ sync_run data m r
      ∧ ∀ j, (idx ≤ j < r)%nat → ¬ sync_run data m j
  | None => ∀ j, (idx ≤ j < idx + count)%nat → ¬ sync_run data m j
  end.
Proof.
  revert idx. induction count as [|count IH]; intros idx Hlen; cbn [scan_sync].
  { intros j Hj. lia. }
  assert (Hidx : (idx < length data)%nat) by lia.
  pose proof (sync_run_following data m idx Hidx) as Hrun.
  specialize (IH (S idx) ltac:(lia)).
  assert (Hnext : ¬ sync_run data m idx →
    match scan_sync data m (S idx) count with
    | Some r =>
        (idx ≤ r < idx + S count)%nat ∧ sync_run data m r
        ∧ ∀ j, (idx ≤ j < r)%nat → ¬ sync_run data m j
    | None => ∀ j, (idx ≤ j < idx + S count)%nat → ¬ sync_run data m j
    end).
  { intros Hno. destruct (scan_sync data m (S idx) count) as [r|].
    - destruct IH as (Hr & Hsync & Hmin). split; [lia|]. split; [done|].
      intros j Hj. destruct (decide (j = idx)) as [->|]; [done|]. apply Hmin. lia.
    - intros j Hj. destruct (decide (j = idx)) as [->|]; [done|]. apply IH. lia. }
  destruct (data !!! idx =? 0x47) eqn:Hb; cbn [negb].
  - destruct (following_sync data idx 1 m) eqn:Hf.
    + split; [lia|]. split; [by apply Hrun|]. intros j Hj. lia.
    + apply Hnext. rewrite Hrun. by intros [_ ?].
  - apply Hnext. rewrite Hrun. by intros [? _].
Qed.

Lemma slice_packet (data : list N) i :
  slice data i (i + 188) = take 188 (drop i data).
Proof. unfold slice. by replace (i + 188 - i)%nat with 188%nat by lia. Qed.

Lemma take_packets (data : list N) i count :
  take (188 * S count) (drop i data)
  = take 188 (drop i data) ++ take (188 * count) (drop (i + 188) data).
Proof.
  replace (188 * S count)%nat with (188 + 188 * count)%nat by lia.
  by rewrite <- take_take_drop, drop_drop.
Qed.

Lemma index_of_first (b : N) data :
  match index_of b data with
  | Some j => data !! j = Some b ∧ ∀ i, (i < j)%nat → data !! i ≠ Some b
  | None => b ∉ data
  end.
Proof.
  induction data as [|c rest IH]; cbn [index_of].
  { apply not_elem_of_nil. }
  destruct (N.eqb_spec c b) as [->|Hne].
  - split; [done|]. intros i Hi. lia.
  - destruct (index_of b rest) as [j|]; cbn.
    + destruct IH as [Hj Hmin]. split; [done|].
      intros [|i] Hi; cbn; [congruence|]. apply Hmin. lia.
    + rewrite elem_of_cons. intros [->|?]; [done|]. by apply IH.
Qed.

Lemma index_of_unique (b : N) data j :
  data !! j = Some b → (∀ i, (i < j)%nat → data !! i ≠ Some b) →
  index_of b data = Some j.
Proof.
  intros Hj Hmin. pose proof (index_of_first b data) as H.
  destruct (index_of b data) as [j'|].
  - destruct H as [Hj' Hmin']. f_equal.
    destruct (Nat.lt_trichotomy j j') as [Hlt|[->|Hlt]]; [|done|].
    + by destruct (Hmin' j Hlt).
    + by destruct (Hmin j' Hlt).
  - destruct H. by apply (list_elem_of_lookup_2 _ j).
Qed.

(** The loop of the fallback copies every whole packet from [i] on. *)
Lemma copy_packets_spec fuel data out i count :
  (188 * count ≤ length data - i < 188 * (count + 1))%nat →
  (i ≤ length data)%nat → (count ≤ fuel)%nat →
  copy_packets fuel data out i
  = (out ++ take (188 * count) (drop i data), (i + 188 * count)%nat).
Proof.
  revert out i count. induction fuel as [|fuel IH]; intros out i count Hc Hi Hf.
  { assert (count = 0%nat) as -> by lia. cbn [copy_packets].
    by rewrite Nat.mul_0_r, take_0, app_nil_r, Nat.add_0_r. }
  cbn [copy_packets]. destruct (Nat.leb_spec (i + 188) (length data)) as [Hin|Hout].
  - destruct count as [|count]; [lia|].
    rewrite (IH _ (i + 188)%nat count) by lia.
    rewrite slice_packet, take_packets, <- app_assoc. f_equal. lia.
  - assert (count = 0%nat) as -> by lia.
    by rewrite Nat.mul_0_r, take_0, app_nil_r, Nat.add_0_r.
Qed.

(** The loop from a start found copies packets as long as they are whole
    and begin with the sync byte. *)
Lemma copy_synced_spec fuel data out i :
  ∃ count,
    copy_synced fuel data out i
    = (out ++ take (188 * count) (drop i data), (i + 188 * count)%nat)
    ∧ (count ≤ fuel)%nat
    ∧ (count = 0%nat ∨ i + 188 * count ≤ length data)%nat
    ∧ (∀ j, (j < count)%nat → data !! (i + 188 * j)%nat = Some 0x47)
    ∧ (count = fuel
       ∨ (length data < i + 188 * (count + 1))%nat
       ∨ data !! (i + 188 * count)%nat ≠ Some 0x47).
Proof.
  revert out i. induction fuel as [|fuel IH]; intros out i; cbn [copy_synced].
  { exists 0%nat. rewrite Nat.mul_0_r, take_0, app_nil_r, Nat.add_0_r.
    repeat split; [lia|by left|intros j Hj; lia|by left]. }
  destruct (Nat.leb_spec (i + 188) (length data)) as [Hin|Hout].
  - rewrite slice_packet.
    assert (Hhead : take 188 (drop i data) !!! 0%nat = data !!! i).
    { rewrite !list_lookup_total_alt, lookup_take_lt, lookup_drop by lia.
      by rewrite Nat.add_0_r. }
    rewrite Hhead.
    destruct (data !!! i =? 0x47) eqn:Hb; cbn [negb].
    + apply byte_at_sync in Hb; [|lia].
      destruct (IH (out ++ take 188 (drop i data)) (i + 188)%nat)
        as (count & Hrun & Hle & Hend & Hsync & Hexit).
      exists (S count). rewrite Hrun, take_packets, <- app_assoc.
      split; [f_equal; lia|]. split; [lia|]. split; [right; lia|]. split.
      * intros [|j] Hj; [by rewrite Nat.mul_0_r, Nat.add_0_r|].
        replace (i + 188 * S j)%nat with (i + 188 + 188 * j)%nat by lia.
        apply Hsync. lia.
      * replace (i + 188 * S count)%nat with (i + 188 + 188 * count)%nat by lia.
        replace (i + 188 * (S count + 1))%nat
          with (i + 188 + 188 * (count + 1))%nat by lia.
        destruct Hexit as [->|[?|?]]; [by left|right; by left|right; by right].
    + exists 0%nat. rewrite Nat.mul_0_r, take_0, app_nil_r, Nat.add_0_r.
      repeat split; [lia|by left|intros j Hj; lia|].
      right; right. intros H. apply byte_at_sync in H; [congruence|lia].
  - exists 0%nat. rewrite Nat.mul_0_r, take_0, app_nil_r, Nat.add_0_r.
    repeat split; [lia|by left|intros j Hj; lia|]. right; left. lia.
Qed.

Lemma find_mpeg_ts_start_spec data m :
  match find_mpeg_ts_start data m with
  | Some idx =>
      (idx < 4096 `min` length data)%nat ∧ sync_run data m idx
      ∧ ∀ j, (j < idx)%nat → ¬ sync_run data m j
  | None => ∀ j, (j < 4096 `min` length data)%nat → ¬ sync_run data m j
  end.
Proof.
  unfold find_mpeg_ts_start.
  pose proof (scan_sync_spec data m 0 (4096 `min` length data) ltac:(lia)) as H.
  destruct (scan_sync data m 0 (4096 `min` length data)) as [r|].
  - destruct H as (Hr & Hsync & Hmin). split; [lia|]. split; [done|].
    intros j Hj. apply Hmin. lia.
  - intros j Hj. apply H. lia.
Qed.

(** X1.  [find_mpeg_ts_start] returns the first place, among the first 4096
    of the data, at which a sync byte is followed by [m] more sync bytes
    188 bytes apart, all within the data; it returns [None] exactly when
    there is no such place. *)
Theorem find_mpeg_ts_start_first data m :
  match find_mpeg_ts_start data m with
  | Some idx =>
      (idx < 4096 `min` length data)%nat ∧ sync_run data m idx
      ∧ ∀ j, (j < idx)%nat → ¬ sync_run data m j
  | None => ∀ j, (j < 4096 `min` length data)%nat → ¬ sync_run data m j
  end.
Proof. apply find_mpeg_ts_start_spec. Qed.

(** The result of [extract_ts_packets] when a start was found. *)
Lemma extract_from_start data start :
  find_mpeg_ts_start data 5 = Some start →
  ∃ count,
    extract_ts_packets data = take (188 * count) (drop start data)
    ∧ (5 ≤ count)%nat
    ∧ (start + 188 * count ≤ length data)%nat
    ∧ (∀ j, (j < count)%nat → data !! (start + 188 * j)%nat = Some 0x47)
    ∧ ((length data < start + 188 * (count + 1))%nat
       ∨ data !! (start + 188 * count)%nat ≠ Some 0x47).
Proof.
  intros Hstart. unfold extract_ts_packets. rewrite Hstart.
  pose proof (find_mpeg_ts_start_spec data 5) as Hspec. rewrite Hstart in Hspec.
  destruct Hspec as (_ & Hrun & _).
  assert (Hlast : (start + 5 * 188 < length data)%nat).
  { apply (lookup_lt_Some _ _ 0x47), Hrun. lia. }
  destruct (copy_synced_spec (length data) data [] start)
    as (count & -> & Hle & Hend & Hsync & Hexit).
  exists count. cbn [fst app]. split; [done|].
  assert (Hexit' : (length data < start + 188 * (count + 1))%nat
                   ∨ data !! (start + 188 * count)%nat ≠ Some 0x47).
  { destruct Hexit as [->|H]; [left; lia|done]. }
  assert (5 ≤ count)%nat.
  { destruct (Nat.le_gt_cases 5 count) as [|Hlt]; [done|]. exfalso.
    destruct Hexit' as [?|Hno]; [lia|]. apply Hno.
    replace (188 * count)%nat with (count * 188)%nat by lia. apply Hrun. lia. }
  split; [done|]. split; [lia|]. split; done.
Qed.

(** The result of [extract_ts_packets] when no start was found. *)
Lemma extract_from_fallback data :
  find_mpeg_ts_start data 5 = None →
  match index_of 0x47 data with
  | Some j =>
      extract_ts_packets data
      = take (188 * ((length data - j) `div` 188)) (drop j data)
  | None => extract_ts_packets data = []
  end.
Proof.
  intros Hstart. unfold extract_ts_packets. rewrite Hstart.
  pose proof (index_of_first 0x47 data) as Hidx.
  destruct (index_of 0x47 data) as [j|]; [|done].
  destruct Hidx as [Hj _]. apply lookup_lt_Some in Hj.
  rewrite (copy_packets_spec _ _ _ _ ((length data - j) `div` 188)).
  - done.
  - split; [apply Nat.Div0.mul_div_le|].
    replace ((length data - j) `div` 188 + 1)%nat
      with (S ((length data - j) `div` 188)) by lia.
    apply Nat.mul_succ_div_gt. lia.
  - lia.
  - etrans; [apply Nat.Div0.div_le_upper_bound with (q := (length data - j)%nat); lia|lia].
Qed.

(** X2.  When [find_mpeg_ts_start] finds a start, [extract_ts_packets]
    returns the packets from there on: at least five, each one 188 bytes
    of the data beginning with the sync byte, up to the first packet that
    is cut short or begins with another byte. *)
Theorem extract_ts_packets_synced data start :
  find_mpeg_ts_start data 5 = Some start →
  ∃ count,
    extract_ts_packets data = take (188 * count) (drop start data)
    ∧ (5 ≤ count)%nat
    ∧ (start + 188 * count ≤ length data)%nat
    ∧ (∀ j, (j < count)%nat → data !! (start + 188 * j)%nat = Some 0x47)
    ∧ ((length data < start + 188 * (count + 1))%nat
       ∨ data !! (start + 188 * count)%nat ≠ Some 0x47).
Proof. apply extract_from_start. Qed.

(** X3.  When [find_mpeg_ts_start] finds no start, [extract_ts_packets]
    returns nothing for data without the byte 0x47, and otherwise every
    whole run of 188 bytes from the first 0x47 on, whatever byte the runs
    after the first begin with. *)
Theorem extract_ts_packets_fallback data :
  find_mpeg_ts_start data 5 = None →
  (0x47 ∉ data → extract_ts_packets data = [])
  ∧ ∀ j, data !! j = Some 0x47 → (∀ i, (i < j)%nat → data !! i ≠ Some 0x47) →
      extract_ts_packets data
      = take (188 * ((length data - j) `div` 188)) (drop j data).
Proof.
  intros Hstart. pose proof (extract_from_fallback data Hstart) as H.
  pose proof (index_of_first 0x47 data) as Hidx. split.
  - intros Hno. destruct (index_of 0x47 data) as [j|]; [|done].
    destruct Hidx as [Hj _]. destruct Hno. by apply (list_elem_of_lookup_2 _ j).
  - intros j Hj Hmin. by rewrite (index_of_unique _ _ _ Hj Hmin) in H.
Qed.

(** X4.  Whatever the data, the result of [extract_ts_packets] is one
    stretch of the data, and its length is a multiple of 188. *)
Theorem extract_ts_packets_stretch data :
  ∃ start count,
    (start + 188 * count ≤ length data)%nat
    ∧ extract_ts_packets data = take (188 * count) (drop start data)
    ∧ length (extract_ts_packets data) = (188 * count)%nat.
Proof.
  assert (Hlen : ∀ start count, (start + 188 * count ≤ length data)%nat →
            length (take (188 * count) (drop start data)) = (188 * count)%nat).
  { intros start count H. rewrite length_take, length_drop. lia. }
  destruct (find_mpeg_ts_start data 5) as [start|] eqn:Hstart.
  - destruct (extract_from_start data start Hstart) as (count & Hout & _ & Hin & _).
    exists start, count. rewrite Hout. by split; [|split; [|apply Hlen]].
  - pose proof (extract_from_fallback data Hstart) as H.
    pose proof (index_of_first 0x47 data) as Hidx.
    destruct (index_of 0x47 data) as [j|].
    + destruct Hidx as [Hj _]. apply lookup_lt_Some in Hj.
      exists j, ((length data - j) `div` 188)%nat.
      assert (j + 188 * ((length data - j) `div` 188) ≤ length data)%nat.
      { pose proof (Nat.Div0.mul_div_le (length data - j) 188). lia. }
      rewrite H. by split; [|split; [|apply Hlen]].
    + exists 0%nat, 0%nat. rewrite H. cbn. split; [lia|done].
Qed.

(** X5.  On data in which [find_mpeg_ts_start] finds a start,
    [extract_ts_packets] applied to its own result gives that result
    again. *)
Theorem extract_ts_packets_idempotent data start :
  find_mpeg_ts_start data 5 = Some start →
  extract_ts_packets (extract_ts_packets data) = extract_ts_packets data.
Proof.
  intros Hstart.
  destruct (extract_from_start data start Hstart)
    as (c & -> & Hc & Hin & Hsync & _).
  set (out := take (188 * c) (drop start data)).
  assert (Hlen : length out = (188 * c)%nat).
  { unfold out. rewrite length_take, length_drop. lia. }
  assert (Hout : ∀ j, (j < c)%nat → out !! (188 * j)%nat = Some 0x47).
  { intros j Hj. unfold out. rewrite lookup_take_lt, lookup_drop by lia.
    by apply Hsync. }
  assert (Hwhole : take (188 * c) (drop 0 out) = out).
  { rewrite drop_0. apply take_ge. lia. }
  destruct (find_mpeg_ts_start out 5) as [idx|] eqn:Hfind.
  - pose proof (find_mpeg_ts_start_spec out 5) as Hspec. rewrite Hfind in Hspec.
    destruct Hspec as (_ & Hrun & Hmin).
    assert (Hlast : (idx + 5 * 188 < length out)%nat).
    { apply (lookup_lt_Some _ _ 0x47), Hrun. lia. }
    assert (idx = 0%nat) as ->.
    { destruct idx as [|idx]; [done|]. destruct (Hmin 0%nat); [lia|].
      intros k Hk. replace (0 + k * 188)%nat with (188 * k)%nat by lia.
      apply Hout. lia. }
    unfold extract_ts_packets. rewrite Hfind.
    destruct (copy_synced_spec (length out) out [] 0)
      as (c' & -> & _ & Hend & _ & Hexit). cbn [fst app].
    assert (c' = c) as ->; [|done].
    destruct (Nat.lt_trichotomy c' c) as [Hlt|[->|Hgt]]; [|done|lia].
    exfalso. destruct Hexit as [->|[?|Hno]]; [lia|lia|].
    apply Hno. cbn [Nat.add]. by apply Hout.
  - pose proof (extract_from_fallback out Hfind) as H.
    rewrite (index_of_unique 0x47 out 0) in H.
    + rewrite H, Nat.sub_0_r, Hlen.
      replace (188 * c)%nat with (c * 188)%nat at 1 by lia.
      rewrite Nat.div_mul by lia. done.
    + replace 0%nat with (188 * 0)%nat by lia. apply Hout. lia.
    + intros i Hi. lia.
Qed.

(** *** The endpoints and the state *)

(** The cache after a request to [/proxy_playlist]: as before, or with
    one entry written under the key of the request, the rewritten form
    of what the origin served. *)
Lemma proxy_playlist_cache_after url now st :
  playlist_cache (proxy_playlist url now st).2 = playlist_cache st
  ∨ ∃ u pl_bytes rewritten,
      url = Some u ∧ u ≠ [] ∧ fetched u = Return pl_bytes
      ∧ rewrite_playlist u (Url.utf8_decode Url.errors_ignore pl_bytes)
        = Return rewritten
      ∧ playlist_cache (proxy_playlist url now st).2
        = <[u := CacheEntry rewritten now]> (playlist_cache st).
Proof.
  destruct url as [u|]; [|by left].
  destruct u as [|c u]; [by left|].
  rewrite proxy_playlist_run by done.
  destruct (fresh st (c :: u) now); [by left|].
  destruct (fetched (c :: u)) as [pl_bytes|e] eqn:Hf.
  - destruct (rewrite_playlist (c :: u)
                (Url.utf8_decode Url.errors_ignore pl_bytes)) as [rewritten|e] eqn:Hrw.
    + right. exists (c :: u), pl_bytes, rewritten.
      by rewrite (proxy_playlist_fetch_stored _ _ _ _ _ Hf Hrw).
    + left. by rewrite (proxy_playlist_fetch_raised _ _ _ _ _ Hf Hrw).
  - left. by rewrite (proxy_playlist_fetch_failed _ _ _ _ Hf).
Qed.

(** X6.  A request to [/proxy_playlist] removes no entry of the cache and
    changes no entry but the one under its own [url]; an entry it writes
    carries the time of the request. *)
Theorem proxy_playlist_keeps_entries url now st k :
  (is_Some (playlist_cache st !! k) →
   is_Some (playlist_cache (proxy_playlist url now st).2 !! k))
  ∧ (url ≠ Some k →
     playlist_cache (proxy_playlist url now st).2 !! k = playlist_cache st !! k)
  ∧ (playlist_cache (proxy_playlist url now st).2 !! k ≠ playlist_cache st !! k →
     ∃ e, playlist_cache (proxy_playlist url now st).2 !! k = Some e ∧ ts e = now).
Proof.
  destruct (proxy_playlist_cache_after url now st)
    as [->|(u & pl_bytes & rewritten & -> & _ & _ & _ & ->)].
  { done. }
  destruct (decide (u = k)) as [->|Hne].
  - rewrite lookup_insert_eq. split; [by eauto|]. split; [done|]. by eauto.
  - rewrite lookup_insert_ne by done. split; [done|]. split; done.
Qed.

(** X7.  Whatever its parameter, a request to [/segment] ends with a
    response and not with an exception, leaves the playlist cache as it
    is, and sends at most one request upstream. *)
Theorem segment_answers u st :
  ∃ r,
    (segment u st).1 = Return r
    ∧ playlist_cache (segment u st).2 = playlist_cache st
    ∧ (upstream (segment u st).2 = upstream st
       ∨ ∃ url, upstream (segment u st).2 = upstream st ++ [url]).
Proof.
  destruct u as [u|]; [|by eexists; split; [|split; [|left]]].
  destruct u as [|c u]; [by eexists; split; [|split; [|left]]|].
  unfold segment. cbn [Py.truthy negb].
  unfold mbind, action_bind, action_try. rewrite fetch_bytes_run.
  destruct (fetched (Url.unquote_plus (c :: u))) as [remote_bytes|e];
    (eexists; split; [reflexivity|]; split; [reflexivity|]; right; by eexists).
Qed.

Lemma existsb_absent (a : N) s : a ∉ s → existsb (N.eqb a) s = false.
Proof.
  induction s as [|c s IH]; [done|]. rewrite not_elem_of_cons. intros [Hne Hs].
  cbn [existsb]. rewrite IH by done. by destruct (N.eqb_spec a c).
Qed.

Lemma unquote_plus_plain u : 43 ∉ u → 37 ∉ u → Url.unquote_plus u = u.
Proof.
  intros Hplus Hpct. unfold Url.unquote_plus, Url.unquote.
  rewrite replace1_absent by done. by rewrite existsb_absent.
Qed.

(** X8.  For a parameter [u] without [+] and without [%], [/segment]
    requests the very URL [u]: decoding changes nothing. *)
Theorem segment_plain_url u st :
  u ≠ [] → 43 ∉ u → 37 ∉ u →
  (segment (Some u) st).1
    = match fetched u with
      | Return remote_bytes =>
          Return (Response 200 (Bytes remote_bytes) "video/MP2T"
                    {[ "Content-Length"%string :=
                         Py.str_of_int (N.of_nat (length remote_bytes)) ]})
      | Raise e =>
          Return (plain (lit "Failed to fetch remote segment: " ++ exn_text e) 502)
      end
  ∧ (segment (Some u) st).2 = sent u st.
Proof.
  intros Hu Hplus Hpct. unfold segment.
  rewrite (truthy_nonempty _ Hu), (unquote_plus_plain _ Hplus Hpct). cbn [negb].
  unfold mbind, action_bind, action_try. rewrite fetch_bytes_run.
  by destruct (fetched u).
Qed.

(** *** A [+] in the parameter of the segment relay *)

Lemma unquote_to_bytes_length n s :
  (length s ≤ n)%nat →
  (length (Url.unquote_to_bytes s) ≤ length s)%nat
  ∧ (length (Url.unquote_to_bytes s) = length s → Url.unquote_to_bytes s = s).
Proof.
  revert s. induction n as [|n IH]; intros s Hn.
  { destruct s; [done|cbn in Hn; lia]. }
  destruct s as [|c t]; [done|]. cbn [length] in Hn.
  assert (Hkeep : (length (c :: Url.unquote_to_bytes t) ≤ length (c :: t))%nat
                  ∧ (length (c :: Url.unquote_to_bytes t) = length (c :: t) →
                     c :: Url.unquote_to_bytes t = c :: t)).
  { destruct (IH t ltac:(lia)) as [Hle Heq]. cbn [length]. split; [lia|].
    intros H. f_equal. apply Heq. lia. }
  cbn [Url.unquote_to_bytes]. destruct (c =? 37); [|done].
  destruct t as [|h [|l t']]; [done..|].
  destruct (Url.hex_value h); [|done]. destruct (Url.hex_value l); [|done].
  cbn [length] in *. destruct (IH t' ltac:(lia)) as [Hle _]. split; lia.
Qed.

Lemma utf8_decode_replace_length n bs :
  (length bs ≤ n)%nat →
  (length (Url.utf8_decode Url.errors_replace bs) ≤ length bs)%nat.
Proof.
  revert bs. induction n as [|n IH]; intros bs Hn.
  { destruct bs; [done|cbn in Hn; lia]. }
  assert (Hskip : ∀ t, (length t ≤ n)%nat →
            (length (Url.errors_replace ++ Url.utf8_decode Url.errors_replace t)
             ≤ S (length t))%nat).
  { intros t Ht. cbn [Url.errors_replace app length]. specialize (IH t Ht). lia. }
  assert (Hone : (length Url.errors_replace = 1)%nat) by done.
  destruct bs as [|b0 t]; [done|]. cbn [length] in Hn.
  cbn [Url.utf8_decode].
  destruct (b0 <? 0x80).
  { cbn [length]. specialize (IH t ltac:(lia)). lia. }
  destruct ((0xC2 <=? b0) && (b0 <=? 0xDF)).
  { destruct t as [|b1 t1]; [cbn; lia|]. cbn [length] in *.
    destruct (Url.cont b1).
    - cbn [length]. specialize (IH t1 ltac:(lia)). lia.
    - specialize (Hskip (b1 :: t1) ltac:(cbn; lia)). cbn [length] in Hskip. lia. }
  destruct ((0xE0 <=? b0) && (b0 <=? 0xEF)).
  { destruct t as [|b1 t1]; [cbn; lia|]. cbn [length] in *.
    destruct (Url.second3 b0 b1).
    2:{ specialize (Hskip (b1 :: t1) ltac:(cbn; lia)). cbn [length] in Hskip. lia. }
    destruct t1 as [|b2 t2]; [cbn; lia|]. cbn [length] in *.
    destruct (Url.cont b2).
    - cbn [length]. specialize (IH t2 ltac:(lia)). lia.
    - specialize (Hskip (b2 :: t2) ltac:(cbn; lia)). cbn [length] in Hskip. lia. }
  destruct ((0xF0 <=? b0) && (b0 <=? 0xF4)).
  2:{ specialize (Hskip t ltac:(lia)). cbn [length]. lia. }
  destruct t as [|b1 t1]; [cbn; lia|]. cbn [length] in *.
  destruct (Url.second4 b0 b1).
  2:{ specialize (Hskip (b1 :: t1) ltac:(cbn; lia)). cbn [length] in Hskip. lia. }
  destruct t1 as [|b2 t2]; [cbn; lia|]. cbn [length] in *.
  destruct (Url.cont b2).
  2:{ specialize (Hskip (b2 :: t2) ltac:(cbn; lia)). cbn [length] in Hskip. lia. }
  destruct t2 as [|b3 t3]; [cbn; lia|]. cbn [length] in *.
  destruct (Url.cont b3).
  - cbn [length]. specialize (IH t3 ltac:(lia)). lia.
  - specialize (Hskip (b3 :: t3) ltac:(cbn; lia)). cbn [length] in Hskip. lia.
Qed.

(** Decoding a run never makes it longer, and leaves it as long only by
    leaving it as it is. *)
Lemma unquote_run_length run :
  Forall (fun c => c < 128) run →
  (length (Url.unquote_run run) ≤ length run)%nat
  ∧ (length (Url.unquote_run run) = length run → Url.unquote_run run = run).
Proof.
  intros Hrun. unfold Url.unquote_run.
  destruct (unquote_to_bytes_length _ run (le_n _)) as [Hle Heq].
  pose proof (utf8_decode_replace_length _ (Url.unquote_to_bytes run) (le_n _)) as Hd.
  split; [lia|]. intros H. rewrite Heq by lia. by apply utf8_decode_ascii.
Qed.

Lemma unquote_parts_length run s :
  Forall (fun c => c < 128) run →
  (length (Url.unquote_parts run s) ≤ length run + length s)%nat
  ∧ (length (Url.unquote_parts run s) = (length run + length s)%nat →
     Url.unquote_parts run s = rev run ++ s).
Proof.
  revert run. induction s as [|c t IH]; intros run Hrun; cbn [Url.unquote_parts].
  { destruct (unquote_run_length (rev run)) as [Hle Heq]; [by apply Forall_rev|].
    rewrite length_rev in *. cbn [length]. rewrite Nat.add_0_r, app_nil_r.
    split; [done|]. done. }
  destruct (N.ltb_spec c 128) as [Hc|Hc].
  - destruct (IH (c :: run)) as [Hle Heq]; [by constructor|].
    cbn [length] in *. split; [lia|]. intros H.
    rewrite Heq by lia. cbn [rev]. by rewrite <- app_assoc.
  - destruct (unquote_run_length (rev run)) as [Hle Heq]; [by apply Forall_rev|].
    destruct (IH []) as [Hle' Heq']; [constructor|].
    rewrite length_rev in *. rewrite length_app. cbn [length] in *.
    split; [lia|]. intros H. rewrite Heq, Heq' by lia. done.
Qed.

Lemma unquote_plus_changes u : 43 ∈ u → Url.unquote_plus u ≠ u.
Proof.
  intros Hin. unfold Url.unquote_plus, Url.unquote.
  set (v := Py.replace1 43 32 u).
  assert (Hlen : length v = length u) by apply length_map.
  assert (Hv : v ≠ u).
  { intros Heq. rewrite <- Heq in Hin. unfold v, Py.replace1 in Hin.
    apply list_elem_of_fmap in Hin as (c & Hc & _).
    destruct (N.eqb_spec c 43); [done|congruence]. }
  destruct (existsb (N.eqb 37) v); [|done].
  intros Heq. destruct (unquote_parts_length [] v) as [_ Hsame]; [constructor|].
  assert (Url.unquote_parts [] v = v) as Hid
    by (apply Hsame; rewrite Heq; cbn [length]; lia).
  congruence.
Qed.

(** X9.  A parameter [u] with a [+] in it is never requested as it is:
    [/segment] sends its one request to a URL other than [u]. *)
Theorem segment_plus_decoded u st :
  43 ∈ u →
  ∃ url, (segment (Some u) st).2 = sent url st ∧ url ≠ u.
Proof.
  intros Hin. exists (Url.unquote_plus u). split; [|by apply unquote_plus_changes].
  assert (u ≠ []) as Hu by (intros ->; by apply elem_of_nil in Hin).
  unfold segment. rewrite (truthy_nonempty _ Hu). cbn [negb].
  unfold mbind, action_bind, action_try. rewrite fetch_bytes_run.
  by destruct (fetched (Url.unquote_plus u)).
Qed.

(** *** Errors during a capture *)

#[local] Transparent run_session.

Lemma poll_returns s n i captured :
  (∀ j, (i ≤ j < i + n)%nat → raises (wait s j) = false) →
  ∃ res, poll s n i captured = Return res.
Proof.
  revert i captured. induction n as [|n IH]; intros i captured Hw; cbn [poll].
  { by eexists. }
  destruct (slot_set captured); [by eexists|].
  rewrite (Hw i) by lia. apply IH. intros j Hj. apply Hw. lia.
Qed.

(** X10.  A capture attempt whose browser starts, whose waits and whose
    closing do not raise ends with a result, whatever [page.goto], the
    selector queries and the clicks do: their exceptions are caught.  The
    result is empty or a manifest URL requested during the attempt. *)
Theorem run_session_survives s :
  launch_raises s = false →
  (∀ i, (i < 30)%nat → raises (wait s i) = false) →
  raises (close s) = false →
  ∃ res, run_session s = Return res ∧ captured_in s res.
Proof.
  intros Hl Hw Hc.
  assert (∃ res, run_session s = Return res) as [res Hres].
  { unfold run_session. rewrite Hl.
    destruct (click_first s selectors (during (goto s) None)) as [captured clicked].
    destruct (poll_returns s 30 0
                (if clicked then captured else during (mouse_click s) captured))
      as [polled ->]; [intros j Hj; apply Hw; lia|].
    rewrite bind_return, Hc. by eexists. }
  exists res. split; [done|]. by apply run_session_captured_in.
Qed.

#[local] Opaque run_session.

(** *** The catalog request *)

Lemma hex_upper_safe d : d < 16 → Url.always_safe (Url.hex_upper d) = true.
Proof.
  intros Hd. unfold Url.always_safe, Url.hex_upper.
  destruct (N.ltb_spec d 10); by nbool.
Qed.

Lemma quoter_query_chars safe b :
  spaces_only safe → b < 256 →
  Forall (fun c => query_char c = true ∨ (c = 32 ∧ safe ≠ [])) (Url.quoter safe b).
Proof.
  intros Hs Hb. unfold Url.quoter.
  destruct (Url.always_safe b) eqn:Ha; cbn [orb].
  { apply Forall_singleton. left. unfold query_char. by rewrite Ha. }
  destruct (existsb (N.eqb b) safe) eqn:He.
  { pose proof (in_safe_space _ _ Hs He) as ->. apply Forall_singleton. right.
    split; [done|]. by intros ->. }
  apply Forall_cons_2; [|apply Forall_cons_2; [|apply Forall_singleton]];
    left; unfold query_char.
  - by rewrite orb_true_r.
  - rewrite hex_upper_safe; [done|ndiv].
  - rewrite hex_upper_safe; [done|ndiv].
Qed.

Lemma quote_plus_query_chars s q :
  Url.quote_plus s = Return q → Forall (fun c => query_char c = true) q.
Proof.
  unfold Url.quote_plus, Url.quote. intros H.
  destruct (Url.utf8_encode s) as [bs|] eqn:Hbs;
    [|by destruct (existsb (N.eqb 32) s)].
  pose proof (utf8_encode_bound _ _ Hbs) as Hb.
  assert (∀ safe, spaces_only safe →
            Forall (fun c => query_char c = true ∨ (c = 32 ∧ safe ≠ []))
                   (flat_map (Url.quoter safe) bs)) as Hq.
  { intros safe Hs. clear Hbs H.
    induction Hb as [|b bs' Hb' Hbs' IH]; cbn [flat_map]; [constructor|].
    apply Forall_app. split; [by apply quoter_query_chars|exact IH]. }
  destruct (existsb (N.eqb 32) s) eqn:Hsp; simpl in H; injection H as <-.
  - unfold Py.replace1. apply Forall_fmap.
    eapply Forall_impl; [apply (Hq [32]); repeat constructor|].
    intros c Hc. cbn. destruct (N.eqb_spec c 32) as [->|Hne]; [done|].
    destruct Hc as [Hc|[? _]]; done.
  - eapply Forall_impl; [apply (Hq []); constructor|].
    cbn. intros c [Hc|[_ ?]]; done.
Qed.

(** X11.  For a query without lone surrogates, [search_tmdb] sends one
    request, to the search URL of the catalog followed by the quoted
    query: a string of letters, digits and [_.-~+%] only, which decodes to
    the query.  The cache is not touched. *)
Theorem search_tmdb_request query st :
  encodable query = true →
  ∃ q,
    (search_tmdb query st).2
    = sent (lit "https://api.themoviedb.org/3/search/multi?api_key="
            ++ TMDB_API_KEY ++ lit "&query=" ++ q) st
    ∧ Forall (fun c => query_char c = true) q
    ∧ Url.unquote_plus q = query.
Proof.
  intros Henc.
  assert (∃ q, Url.quote_plus query = Return q) as [q Hq].
  { apply utf8_encode_encodable in Henc as [bs Hbs].
    unfold Url.quote_plus, Url.quote. rewrite Hbs.
    destruct (existsb (N.eqb 32) query); by eexists. }
  exists q. split; [|split].
  - unfold search_tmdb, mbind, action_bind, lift, http_get, sent. rewrite Hq.
    destruct (requests_get _) as [r|e]; [|done].
    by destruct (response_json r).
  - by apply (quote_plus_query_chars query).
  - by apply unquote_plus_quote_plus.
Qed.

(** *** Entries without their keys *)

Lemma mapM_raise {A B} (f : A → outcome B) pre x post e :
  Forall (fun y => ∃ b, f y = Return b) pre → f x = Raise e →
  mapM f (pre ++ x :: post) = Raise e.
Proof.
  intros Hpre Hx. induction Hpre as [|y pre [b Hy] _ IH]; cbn.
  - by rewrite Hx.
  - rewrite Hy. cbn. by rewrite IH.
Qed.

(** X12.  An entry of the results without the key the code reads from it
    ([media_type], and [title] or [name]) makes [get_best_match] raise the
    [KeyError] of the first such entry, also when another entry matches
    the title. *)
Theorem get_best_match_key_error title pre r post e :
  Forall (fun y => ∃ name, display_name y = Return name) pre →
  display_name r = Raise e →
  get_best_match title (pre ++ r :: post) = Raise e
  ∧ ∃ k, e = KeyError k ∧ r !! k = None.
Proof.
  intros Hpre Hr. split.
  - unfold get_best_match. by rewrite (mapM_raise _ _ _ _ _ Hpre Hr).
  - unfold display_name, getitem in Hr.
    destruct (r !! "media_type"%string) as [mt|] eqn:Hmt;
      rewrite ?bind_return, ?bind_raise in Hr.
    + destruct (decide (mt = lit "movie")).
      * destruct (r !! "title"%string) eqn:Ht; cbn in Hr; [done|].
        injection Hr as <-. eauto.
      * destruct (r !! "name"%string) eqn:Hn; cbn in Hr; [done|].
        injection Hr as <-. eauto.
    + injection Hr as <-. eauto.
Qed.

(** *** The query string of the segment relay *)

Lemma split_no_sep sep s : sep ∉ s → Url.split sep s = [s].
Proof.
  induction s as [|c s IH]; intros Hs; [done|]. cbn [Url.split].
  apply not_elem_of_cons in Hs as [Hc Hs].
  destruct (N.eqb_spec c sep) as [->|_]; [done|]. by rewrite IH.
Qed.

Lemma split_at_sep sep a b :
  sep ∉ a → Url.split sep (a ++ sep :: b) = a :: Url.split sep b.
Proof.
  induction a as [|c a IH]; intros Ha; cbn [app Url.split].
  { by rewrite N.eqb_refl. }
  apply not_elem_of_cons in Ha as [Hc Ha].
  destruct (N.eqb_spec c sep) as [->|_]; [done|]. by rewrite IH.
Qed.

Lemma quote_plus_no_amp s q : Url.quote_plus s = Return q → 38 ∉ q.
Proof.
  intros Hq Hin. apply quote_plus_query_chars in Hq.
  rewrite Forall_forall in Hq. by specialize (Hq 38 Hin).
Qed.

(** Flask decodes the parameter before the view sees it. *)
Lemma args_get_u U E tail :
  Url.quote_plus U = Return E →
  tail = [] ∨ (∃ more, tail = 38 :: more) →
  Flask.args_get (lit "u") (lit "u=" ++ E ++ tail) = Some U.
Proof.
  intros Hq Htail. pose proof (quote_plus_no_amp _ _ Hq) as Hamp.
  assert (38 ∉ lit "u=" ++ E) as Hpiece.
  { intros [H|H]%elem_of_app; [|done].
    by apply (bool_decide_unpack (38 ∉ lit "u=")). }
  assert (∃ later, Url.split 38 (lit "u=" ++ E ++ tail)
                   = (lit "u=" ++ E) :: later) as [later Hsplit].
  { destruct Htail as [->|[more ->]].
    - exists []. rewrite app_nil_r. by apply split_no_sep.
    - exists (Url.split 38 more). rewrite app_assoc. by apply split_at_sep. }
  unfold Flask.args_get, Url.parse_qsl. rewrite Hsplit. cbn [flat_map].
  change (lit "u=" ++ E) with (117 :: 61 :: E).
  cbn [Py.truthy negb app].
  change (Url.split_once 61 (117 :: 61 :: E)) with ([117], Some E).
  cbn [default]. change (id E) with E.
  rewrite (unquote_plus_quote_plus _ _ Hq).
  change (Url.unquote_plus [117]) with (lit "u"). cbn [app].
  by rewrite filter_cons_True.
Qed.

(** What the view does with the value that it is handed. *)
Lemma segment_view u st :
  u ≠ [] →
  segment (Some u) st
  = (match fetched (Url.unquote_plus u) with
     | Return remote_bytes =>
         Return (Response 200 (Bytes remote_bytes) "video/MP2T"
                   {[ "Content-Length"%string :=
                        Py.str_of_int (N.of_nat (length remote_bytes)) ]})
     | Raise e =>
         Return (plain (lit "Failed to fetch remote segment: " ++ exn_text e) 502)
     end, sent (Url.unquote_plus u) st).
Proof.
  intros Hu. unfold segment. rewrite (truthy_nonempty _ Hu). cbn [negb].
  unfold mbind, action_bind, action_try. rewrite fetch_bytes_run.
  by destruct (fetched (Url.unquote_plus u)).
Qed.

(** C7, as the code has it.  Take a request [GET /segment?u=E], with or
    without further parameters behind [E], where [E] is what
    [quote_plus] makes of the segment URL [U]: the form of every link
    that [rewrite_playlist] writes.  Flask hands the view the decoded
    parameter, [U].  The view decodes it once more and fetches
    [unquote_plus U], once: when the fetch returns, the answer is those
    bytes, with media type video/MP2T and a Content-Length header giving
    their number; when it raises, the answer has status 502.  For a
    segment URL with a [+] in it, the URL fetched is not [U]. *)
Theorem segment_decodes_twice U E tail st :
  Url.quote_plus U = Return E →
  U ≠ [] →
  tail = [] ∨ (∃ more, tail = 38 :: more) →
  Flask.args_get (lit "u") (lit "u=" ++ E ++ tail) = Some U
  ∧ segment_route (lit "u=" ++ E ++ tail) st
    = (match fetched (Url.unquote_plus U) with
       | Return remote_bytes =>
           Return (Response 200 (Bytes remote_bytes) "video/MP2T"
                     {[ "Content-Length"%string :=
                          Py.str_of_int (N.of_nat (length remote_bytes)) ]})
       | Raise e =>
           Return (plain (lit "Failed to fetch remote segment: "
                          ++ exn_text e) 502)
       end, sent (Url.unquote_plus U) st)
  ∧ (43 ∈ U → Url.unquote_plus U ≠ U).
Proof.
  intros Hq HU Htail. split; [by apply args_get_u|]. split.
  - unfold segment_route. rewrite (args_get_u _ _ _ Hq Htail).
    by apply segment_view.
  - apply unquote_plus_changes.
Qed.

(** *** The player frame *)

(** A quoted value at the start of [s]: the value and what follows the
    closing quote are determined by [s]. *)
Lemma quoted_value_unique (g g' : list N) q2 q2' rest rest' :
  g ++ q2 :: rest = g' ++ q2' :: rest' →
  Forall (fun c => not_quote c = true) g → is_quote q2 = true →
  Forall (fun c => not_quote c = true) g' → is_quote q2' = true →
  g = g' ∧ rest = rest'.
Proof.
  revert g'. induction g as [|c g IH]; intros [|c' g'] Heq Hg Hq Hg' Hq'.
  - by injection Heq as _ ->.
  - injection Heq as -> _. apply Forall_cons_1 in Hg' as [Hc _].
    unfold not_quote in Hc. by rewrite Hq in Hc.
  - injection Heq as -> _. apply Forall_cons_1 in Hg as [Hc _].
    unfold not_quote in Hc. by rewrite Hq' in Hc.
  - injection Heq as -> Heq. apply Forall_cons_1 in Hg as [_ Hg].
    apply Forall_cons_1 in Hg' as [_ Hg'].
    destruct (IH g' Heq Hg Hq Hg' Hq') as [-> ->]. done.
Qed.

Lemma quoted_re_spec s caps :
  match ReExt.ematch quoted_re s caps (fun s' caps' => Some (caps', s')) with
  | Some (caps', rest) =>
      ∃ q1 g q2,
        s = q1 :: g ++ q2 :: rest ∧ is_quote q1 = true ∧ is_quote q2 = true
        ∧ g ≠ [] ∧ Forall (fun c => not_quote c = true) g ∧ caps' = caps ++ [g]
  | None =>
      ∀ q1 g q2 rest,
        s = q1 :: g ++ q2 :: rest → is_quote q1 = true → is_quote q2 = true →
        g ≠ [] → Forall (fun c => not_quote c = true) g → False
  end.
Proof.
  unfold quoted_re. cbn [ReExt.ematch Re.rmatch].
  destruct s as [|q1 s].
  { intros q1 g q2 rest Heq. done. }
  destruct (is_quote q1) eqn:Hq1.
  2:{ intros q1' g q2 rest [= -> _]. congruence. }
  match goal with |- context [Re.plus_match ?cls ?s ?k] =>
    pose proof (plus_match_spec cls s k) as H;
    destruct (Re.plus_match cls s k) as [[caps' rest]|] end.
  - destruct H as (g & rest' & -> & Hne & Hg & Hk & _).
    destruct rest' as [|q2 rest']; [done|].
    destruct (is_quote q2) eqn:Hq2; [|done].
    injection Hk as <- <-. exists q1, g, q2.
    repeat split; try done. do 2 f_equal.
    rewrite length_app. cbn [length].
    replace (length g + S (length rest') - S (length rest'))%nat
      with (length g) by lia.
    by rewrite take_app_length.
  - intros q1' g q2 rest [= <- ->] _ Hq2 Hne Hg.
    specialize (H g (q2 :: rest) eq_refl Hne Hg). cbn in H.
    by rewrite Hq2 in H.
Qed.

Lemma iframe_re_unfold s :
  ReExt.match_here iframe_re s
  = if Py.startswith s (lit "<iframe")
    then Re.plus_match not_gt (drop 7 s)
           (fun s2 =>
              if Py.startswith s2 (lit "src=")
              then ReExt.ematch quoted_re (drop 4 s2) []
                     (fun s' caps' => Some (caps', s'))
              else None)
    else None.
Proof. reflexivity. Qed.

(** A match of the pattern at the start of [s]: it is one of the
    readings of [s] according to the pattern, the one with the longest
    [attrs]; there is no match when [s] has no such reading. *)
Lemma iframe_match_here s :
  match ReExt.match_here iframe_re s with
  | Some (caps, _) =>
      ∃ attrs g,
        iframe_src_at s [] attrs g ∧ caps = [g]
        ∧ ∀ attrs' g', iframe_src_at s [] attrs' g' →
            (length attrs' ≤ length attrs)%nat
  | None => ∀ attrs g, ¬ iframe_src_at s [] attrs g
  end.
Proof.
  rewrite iframe_re_unfold.
  destruct (Py.startswith s (lit "<iframe")) eqn:Hs.
  2:{ intros attrs g (q1 & q2 & rest & -> & _).
      assert (Py.startswith (lit "<iframe" ++ attrs ++ lit "src="
                             ++ q1 :: g ++ q2 :: rest) (lit "<iframe") = true)
        by (apply startswith_prefix; by eexists).
      cbn [app] in Hs. congruence. }
  apply startswith_drop in Hs. change (length (lit "<iframe")) with 7%nat in Hs.
  set (k := fun s2 : list N => _).
  assert (Hk : ∀ s2,
    match k s2 with
    | Some (caps, rest) =>
        ∃ q1 g q2, s2 = lit "src=" ++ q1 :: g ++ q2 :: rest
          ∧ is_quote q1 = true ∧ is_quote q2 = true
          ∧ g ≠ [] ∧ Forall (fun c => not_quote c = true) g ∧ caps = [g]
    | None =>
        ∀ q1 g q2 rest, s2 = lit "src=" ++ q1 :: g ++ q2 :: rest →
          is_quote q1 = true → is_quote q2 = true →
          g ≠ [] → Forall (fun c => not_quote c = true) g → False
    end).
  { intros s2. unfold k.
    destruct (Py.startswith s2 (lit "src=")) eqn:Hs2.
    2:{ intros q1 g q2 rest -> _ _ _ _.
        assert (Py.startswith (lit "src=" ++ q1 :: g ++ q2 :: rest) (lit "src=") = true)
          by (apply startswith_prefix; by eexists).
        congruence. }
    apply startswith_drop in Hs2. change (length (lit "src=")) with 4%nat in Hs2.
    pose proof (quoted_re_spec (drop 4 s2) []) as H.
    destruct (ReExt.ematch quoted_re (drop 4 s2) [] _) as [[caps rest]|].
    - destruct H as (q1 & g & q2 & Heq & ? & ? & ? & ? & ->).
      exists q1, g, q2. rewrite Hs2 at 1. rewrite Heq. done.
    - intros q1 g q2 rest Heq. apply (H q1 g q2 rest).
      rewrite Heq. by rewrite (drop_app_length (lit "src=")). }
  pose proof (plus_match_spec not_gt (drop 7 s) k) as H.
  destruct (Re.plus_match not_gt (drop 7 s) k) as [[caps rest]|].
  - destruct H as (attrs & s2 & Heq & Hne & Hattrs & Hres & Hmax).
    pose proof (Hk s2) as Hk2. rewrite Hres in Hk2.
    destruct Hk2 as (q1 & g & q2 & -> & Hq1 & Hq2 & Hg & Hgq & ->).
    exists attrs, g. split; [|split; [done|]].
    + exists q1, q2, rest. rewrite Hs at 1. rewrite Heq. done.
    + intros attrs' g' (q1' & q2' & rest' & Heq' & Hne' & Hattrs' & Hq1' & Hq2' & Hg' & Hgq').
      destruct (Nat.le_gt_cases (length attrs') (length attrs)) as [|Hlt]; [done|].
      exfalso.
      assert (Hd : drop 7 s = attrs' ++ lit "src=" ++ q1' :: g' ++ q2' :: rest')
        by (rewrite Heq'; apply (drop_app_length (lit "<iframe"))).
      specialize (Hmax attrs' _ Hd Hattrs' Hlt).
      pose proof (Hk (lit "src=" ++ q1' :: g' ++ q2' :: rest')) as Hk'.
      rewrite Hmax in Hk'. by apply (Hk' q1' g' q2' rest').
  - intros attrs g (q1 & q2 & rest & Heq & Hne & Hattrs & Hq1 & Hq2 & Hg & Hgq).
    assert (Hd : drop 7 s = attrs ++ lit "src=" ++ q1 :: g ++ q2 :: rest)
      by (rewrite Heq; apply (drop_app_length (lit "<iframe"))).
    specialize (H attrs _ Hd Hne Hattrs).
    pose proof (Hk (lit "src=" ++ q1 :: g ++ q2 :: rest)) as Hk'.
    rewrite H in Hk'. by apply (Hk' q1 g q2 rest).
Qed.

Lemma iframe_src_at_cons c text pre attrs g :
  iframe_src_at (c :: text) (c :: pre) attrs g ↔ iframe_src_at text pre attrs g.
Proof.
  unfold iframe_src_at. split.
  - intros (q1 & q2 & rest & [= Heq] & H). by exists q1, q2, rest.
  - intros (q1 & q2 & rest & -> & H). by exists q1, q2, rest.
Qed.

Lemma iframe_src_at_head c text pre attrs g :
  iframe_src_at (c :: text) pre attrs g →
  pre = [] ∨ ∃ pre', pre = c :: pre' ∧ iframe_src_at text pre' attrs g.
Proof.
  destruct pre as [|c' pre]; [by left|]. intros H. right.
  assert (c' = c) as -> by (by destruct H as (? & ? & ? & [= -> _] & _)).
  exists pre. split; [done|]. by apply iframe_src_at_cons in H.
Qed.

(** [re.search] finds the first place of the text at which the pattern
    can be read and there the reading with the longest [attrs]. *)
Lemma iframe_search text :
  match ReExt.search iframe_re text with
  | Some caps =>
      ∃ pre attrs g,
        iframe_src_at text pre attrs g ∧ caps = [g]
        ∧ ∀ pre' attrs' g', iframe_src_at text pre' attrs' g' →
            (length pre ≤ length pre')%nat
            ∧ (length pre' = length pre → length attrs' ≤ length attrs)%nat
  | None => ∀ pre attrs g, ¬ iframe_src_at text pre attrs g
  end.
Proof.
  assert (Hhere : ∀ s caps rest,
    ReExt.match_here iframe_re s = Some (caps, rest) →
    ∃ pre attrs g,
      iframe_src_at s pre attrs g ∧ caps = [g]
      ∧ ∀ pre' attrs' g', iframe_src_at s pre' attrs' g' →
          (length pre ≤ length pre')%nat
          ∧ (length pre' = length pre → length attrs' ≤ length attrs)%nat).
  { intros s caps rest Hm. pose proof (iframe_match_here s) as H.
    rewrite Hm in H. destruct H as (attrs & g & Hat & -> & Hmax).
    exists [], attrs, g. split; [done|]. split; [done|].
    intros pre' attrs' g' Hat'. split; [cbn; lia|].
    destruct pre' as [|? ?]; [|done]. intros _. by apply (Hmax attrs' g'). }
  induction text as [|c text IH]; cbn [ReExt.search].
  - destruct (ReExt.match_here iframe_re []) as [[caps rest]|] eqn:Hm.
    { by apply (Hhere [] caps rest). }
    intros pre attrs g (q1 & q2 & rest & Heq & _).
    by destruct pre.
  - pose proof (iframe_match_here (c :: text)) as Hno.
    destruct (ReExt.match_here iframe_re (c :: text)) as [[caps rest]|] eqn:Hm.
    { by apply (Hhere (c :: text) caps rest). }
    destruct (ReExt.search iframe_re text) as [caps|].
    + destruct IH as (pre & attrs & g & Hat & -> & Hmin).
      exists (c :: pre), attrs, g. split; [by apply iframe_src_at_cons|].
      split; [done|]. intros pre' attrs' g' Hat'.
      destruct (iframe_src_at_head _ _ _ _ _ Hat') as [->|(pre'' & -> & Hat'')].
      { by destruct (Hno attrs' g'). }
      destruct (Hmin _ _ _ Hat'') as [Hle Hsame]. cbn [length].
      split; [lia|]. intros Hlen. apply Hsame. lia.
    + intros pre attrs g Hat.
      destruct (iframe_src_at_head _ _ _ _ _ Hat) as [->|(pre' & -> & Hat')].
      * by apply (Hno attrs g).
      * by apply (IH pre' attrs g).
Qed.

(** X13.  On the page that answers the request for [vsrc_url],
    [get_player_iframe_src] returns [None] exactly when the text cannot
    be read anywhere as [<iframe], attributes without [>], [src=] and a
    quoted value.  Otherwise it takes the value at the first place where
    the text can be read so and, there, behind the longest stretch of
    attributes (so the last [src=] of that stretch).  A value that
    starts with two slashes is returned with [https:] in front; a value
    that starts with one slash is handed to [urljoin] with [vsrc_url],
    whose result is returned and whose exception is raised; any other
    value is returned unchanged.  Nothing else is raised, and one
    request has been sent. *)
Theorem get_player_iframe_src_first vsrc_url r st :
  requests_get vsrc_url = Return r →
  (get_player_iframe_src vsrc_url st).2 = sent vsrc_url st
  ∧ match (get_player_iframe_src vsrc_url st).1 with
    | Return (Some src) =>
        ∃ pre attrs g,
          iframe_src_at (text r) pre attrs g
          ∧ (∀ pre' attrs' g', iframe_src_at (text r) pre' attrs' g' →
               (length pre ≤ length pre')%nat
               ∧ (length pre' = length pre → length attrs' ≤ length attrs)%nat)
          ∧ if Py.startswith g (lit "//") then src = lit "https:" ++ g
            else if Py.startswith g (lit "/")
                 then urljoin vsrc_url g = Return src
                 else src = g
    | Return None => ∀ pre attrs g, ¬ iframe_src_at (text r) pre attrs g
    | Raise e =>
        ∃ pre attrs g,
          iframe_src_at (text r) pre attrs g
          ∧ (∀ pre' attrs' g', iframe_src_at (text r) pre' attrs' g' →
               (length pre ≤ length pre')%nat
               ∧ (length pre' = length pre → length attrs' ≤ length attrs)%nat)
          ∧ Py.startswith g (lit "//") = false
          ∧ Py.startswith g (lit "/") = true
          ∧ urljoin vsrc_url g = Raise e
    end.
Proof.
  intros Hr. unfold get_player_iframe_src, mbind, action_bind, http_get.
  rewrite Hr. pose proof (iframe_search (text r)) as H.
  destruct (ReExt.search iframe_re (text r)) as [caps|]; cbn [fst snd];
    [|by split].
  destruct H as (pre & attrs & g & Hat & -> & Hmin).
  change ([g] !!! 0%nat) with g.
  destruct (Py.startswith g (lit "//")) eqn:Hg2.
  { split; [done|]. exists pre, attrs, g. by rewrite Hg2. }
  destruct (Py.startswith g (lit "/")) eqn:Hg1.
  2:{ split; [done|]. exists pre, attrs, g. by rewrite Hg2, Hg1. }
  unfold lift. destruct (urljoin vsrc_url g) as [src|e] eqn:Hjoin; cbn [fst snd].
  - split; [done|]. exists pre, attrs, g. by rewrite Hg2, Hg1.
  - split; [done|]. by exists pre, attrs, g.
Qed.

(** *** The resolver endpoint *)

Lemma tracks_ret {A} (a : A) n (Q : A → nat → Prop) :
  Q a 0%nat → tracks (mret a) n Q.
Proof.
  intros HQ st. split; [done|]. exists []. cbn. rewrite app_nil_r.
  split; [done|]. split; [lia|]. by intros ? [= <-].
Qed.

Lemma tracks_lift {A} (o : outcome A) n (Q : A → nat → Prop) :
  (∀ a, o = Return a → Q a 0%nat) → tracks (lift o) n Q.
Proof.
  intros HQ st. split; [done|]. exists []. cbn. rewrite app_nil_r.
  split; [done|]. split; [lia|]. done.
Qed.

Lemma tracks_get url n (Q : http_response → nat → Prop) :
  (1 ≤ n)%nat → (∀ r, Q r 1%nat) → tracks (http_get url) n Q.
Proof.
  intros Hn HQ st. split; [done|]. exists [url]. cbn. split; [done|].
  split; [done|]. intros r _. apply HQ.
Qed.

Lemma tracks_bind {A B} (m : action A) (f : A → action B) n1 n2 n
    (Q1 : A → nat → Prop) (Q : B → nat → Prop) :
  tracks m n1 Q1 →
  (∀ a k1, Q1 a k1 → tracks (f a) n2 (fun b k2 => Q b (k1 + k2)%nat)) →
  (n1 + n2 ≤ n)%nat →
  tracks (m ≫= f) n Q.
Proof.
  intros Hm Hf Hn st. unfold mbind, action_bind.
  destruct (Hm st) as (Hc1 & reqs1 & Hu1 & Hl1 & HQ1).
  destruct (m st) as [[a|e] st1]; cbn [fst snd] in *.
  - destruct (Hf a _ (HQ1 a eq_refl) st1) as (Hc2 & reqs2 & Hu2 & Hl2 & HQ2).
    split; [congruence|]. exists (reqs1 ++ reqs2).
    rewrite Hu2, Hu1, <- app_assoc, length_app.
    split; [done|]. split; [lia|]. done.
  - split; [done|]. exists reqs1. split; [done|]. split; [lia|]. done.
Qed.

Lemma search_tmdb_tracks query :
  tracks (search_tmdb query) 1 (fun _ k => k = 1%nat).
Proof.
  unfold search_tmdb.
  eapply (tracks_bind _ _ 0 1 _ (fun _ k => k = 0%nat)); [by apply tracks_lift| |lia].
  intros q ? ->.
  eapply (tracks_bind _ _ 1 0 _ (fun _ k => k = 1%nat)); [by apply tracks_get| |lia].
  intros r ? ->.
  eapply (tracks_bind _ _ 0 0 _ (fun _ k => k = 0%nat)); [by apply tracks_lift| |lia].
  intros data ? ->. by apply tracks_ret.
Qed.

Lemma get_player_iframe_src_tracks vsrc_url :
  tracks (get_player_iframe_src vsrc_url) 1 (fun _ k => k = 1%nat).
Proof.
  unfold get_player_iframe_src.
  eapply (tracks_bind _ _ 1 0 _ (fun _ k => k = 1%nat)); [by apply tracks_get| |lia].
  intros r ? ->. destruct (ReExt.search iframe_re (text r)) as [groups|];
    [|by apply tracks_ret].
  cbn zeta. destruct (Py.startswith _ (lit "//")); [by apply tracks_ret|].
  destruct (Py.startswith _ (lit "/")); [|by apply tracks_ret].
  eapply (tracks_bind _ _ 0 0 _ (fun _ k => k = 0%nat)); [by apply tracks_lift| |lia].
  intros src ? ->. by apply tracks_ret.
Qed.

Lemma get_best_variant_tracks m3u8_url :
  tracks (get_best_variant m3u8_url) 1 (fun _ k => k = 1%nat).
Proof.
  unfold get_best_variant.
  eapply (tracks_bind _ _ 1 0 _ (fun _ k => k = 1%nat)); [by apply tracks_get| |lia].
  intros r ? ->. destruct (Re.findall variant_re (text r)) as [|v rest];
    [by apply tracks_ret|].
  eapply (tracks_bind _ _ 0 0 _ (fun _ k => k = 0%nat)); [by apply tracks_lift| |lia].
  intros k ? ->.
  eapply (tracks_bind _ _ 0 0 _ (fun _ k => k = 0%nat)); [by apply tracks_lift| |lia].
  intros best ? ->. by apply tracks_lift.
Qed.

(** [get_m3u8] up to the player frame: at most three requests, and
    exactly three before a frame is handed on. *)
Lemma find_player_tracks title season episode :
  tracks (find_player title season episode) 3
    (fun res k => match res with
                  | inl early => early = plain [] 404
                  | inr iframe_src => k = 3%nat ∧ iframe_src ≠ []
                  end).
Proof.
  unfold find_player.
  eapply (tracks_bind _ _ 1 2 _ (fun _ k => k = 1%nat));
    [apply search_tmdb_tracks| |lia].
  intros results ? ->.
  eapply (tracks_bind _ _ 0 2 _ (fun _ k => k = 0%nat)); [by apply tracks_lift| |lia].
  intros best ? ->. destruct best as [best|]; [|by apply tracks_ret].
  destruct (decide (best = ∅)); [by apply tracks_ret|].
  eapply (tracks_bind _ _ 0 2 _ (fun _ k => k = 0%nat)); [by apply tracks_lift| |lia].
  intros tmdb_id ? ->.
  eapply (tracks_bind _ _ 1 1 _ (fun _ k => k = 1%nat)); [by apply tracks_get| |lia].
  intros r ? ->.
  eapply (tracks_bind _ _ 0 1 _ (fun _ k => k = 0%nat)); [by apply tracks_lift| |lia].
  intros external_resp ? ->.
  destruct (present (external_resp !! "imdb_id"%string)); cbn [negb];
    [|by apply tracks_ret].
  eapply (tracks_bind _ _ 1 0 _ (fun _ k => k = 1%nat));
    [apply get_player_iframe_src_tracks| |lia].
  intros iframe_src ? ->.
  destruct iframe_src as [[|c src]|]; cbn [present Py.truthy negb default];
    by apply tracks_ret.
Qed.

Lemma capture_first_m3u8_spec browser page_url retries :
  ∃ res opened,
    capture_first_m3u8 browser page_url retries = (res, opened)
    ∧ (opened ≤ retries)%nat
    ∧ (∀ k, (1 ≤ k < opened)%nat → run_session (browser page_url k) = Return None)
    ∧ match res with
      | Return (Some u) =>
          (1 ≤ opened)%nat ∧ run_session (browser page_url opened) = Return (Some u)
      | Return None =>
          opened = retries
          ∧ ∀ k, (1 ≤ k ≤ retries)%nat → run_session (browser page_url k) = Return None
      | Raise e =>
          (1 ≤ opened)%nat ∧ run_session (browser page_url opened) = Raise e
      end.
Proof.
  unfold capture_first_m3u8.
  destruct (capture_attempts_spec (browser page_url) 1 retries 0)
    as (n & res & -> & Hn & Hbefore & Hres).
  exists res, n. split; [done|]. split; [done|]. split.
  - intros k Hk. replace k with (1 + (k - 1))%nat by lia. apply Hbefore. lia.
  - destruct res as [[u|]|e].
    + destruct Hres as [H1 Hrun]. split; [done|].
      by replace (1 + n - 1)%nat with n in Hrun by lia.
    + destruct Hres as [-> Hall]. split; [done|]. intros k Hk.
      replace k with (1 + (k - 1))%nat by lia. apply Hall. lia.
    + destruct Hres as [H1 Hrun]. split; [done|].
      by replace (1 + n - 1)%nat with n in Hrun by lia.
Qed.

(** What [get_m3u8] does to the state and how many browser sessions it
    opens. *)
Lemma get_m3u8_tracks browser title season episode st :
  playlist_cache (get_m3u8 browser title season episode st).1.2 = playlist_cache st
  ∧ ((get_m3u8 browser title season episode st).2 ≤ 3)%nat
  ∧ ∃ reqs,
      upstream (get_m3u8 browser title season episode st).1.2 = upstream st ++ reqs
      ∧ (length reqs ≤ 4)%nat
      ∧ ((0 < (get_m3u8 browser title season episode st).2)%nat →
         (3 ≤ length reqs)%nat)
      ∧ (length reqs = 4%nat →
         (1 ≤ (get_m3u8 browser title season episode st).2)%nat).
Proof.
  unfold get_m3u8. destruct (present title); cbn [negb].
  2:{ split; [done|]. split; [cbn; lia|]. exists []. cbn. rewrite app_nil_r.
      split; [done|]. split; [lia|]. split; lia. }
  destruct (find_player_tracks (default [] title) season episode st)
    as (Hc & reqs & Hu & Hl & HQ).
  destruct (find_player (default [] title) season episode st)
    as [[[early|iframe_src]|e] st1]; cbn [fst snd] in *.
  - split; [done|]. split; [lia|]. exists reqs. split; [done|].
    split; [lia|]. split; lia.
  - destruct (HQ _ eq_refl) as [Hk _].
    destruct (capture_first_m3u8_spec browser iframe_src 3)
      as (res & opened & -> & Hopened & _ & Hres).
    destruct res as [[first_m3u8|]|e]; cbn [present negb].
    + destruct Hres as [H1 _].
      destruct (Py.truthy first_m3u8); cbn [negb].
      * destruct (get_best_variant_tracks first_m3u8 st1)
          as (Hc2 & reqs2 & Hu2 & Hl2 & _).
        change (default [] (Some first_m3u8)) with first_m3u8.
        destruct (get_best_variant first_m3u8 st1) as [[final|e] st2];
          cbn [fst snd] in *;
          (split; [congruence|]); (split; [done|]);
          exists (reqs ++ reqs2); rewrite Hu2, Hu, <- app_assoc, length_app;
          (split; [done|]); (split; [lia|]); split; lia.
      * split; [done|]. split; [done|]. exists reqs. split; [done|].
        split; [lia|]. split; lia.
    + split; [done|]. split; [done|]. exists reqs. split; [done|].
      split; [lia|]. split; lia.
    + split; [done|]. split; [done|]. exists reqs. split; [done|].
      split; [lia|]. split; lia.
  - split; [done|]. split; [lia|]. exists reqs. split; [done|].
    split; [lia|]. split; lia.
Qed.

(** X14.  Whatever the parameters, [/get_m3u8] leaves the playlist cache as
    it is, opens at most three browser sessions and sends at most four
    requests upstream; a browser is opened only after three requests
    (the search, the external ids and the embed page), and the fourth
    request only after a browser was opened. *)
Theorem get_m3u8_effects browser title season episode st :
  playlist_cache (get_m3u8 browser title season episode st).1.2 = playlist_cache st
  ∧ ((get_m3u8 browser title season episode st).2 ≤ 3)%nat
  ∧ ∃ reqs,
      upstream (get_m3u8 browser title season episode st).1.2 = upstream st ++ reqs
      ∧ (length reqs ≤ 4)%nat
      ∧ ((0 < (get_m3u8 browser title season episode st).2)%nat →
         (3 ≤ length reqs)%nat)
      ∧ (length reqs = 4%nat →
         (1 ≤ (get_m3u8 browser title season episode st).2)%nat).
Proof. apply get_m3u8_tracks. Qed.



Lemma get_best_match_low title results names :
  mapM display_name results = Return names →
  (∀ name, name ∈ names → (token_sort_ratio title name <= 60)%Q) →
  get_best_match title results = Return None.
Proof.
  intros Hnames Hlow. unfold get_best_match. rewrite Hnames, bind_return.
  destruct names as [|c choices]; [done|].
  destruct (extractOne_spec title c choices) as (best & idx & -> & Hidx & _).
  assert (token_sort_ratio title best <= 60)%Q as Hb
    by (apply Hlow; by eapply list_elem_of_lookup_2).
  apply Qltb_ge in Hb. rewrite Hb. by rewrite andb_false_r.
Qed.

(** X16.  A title for which no name of the search results scores above 60
    is answered 404 by [/get_m3u8] after the one request of the search:
    no further request is sent and no browser is opened. *)
Theorem get_m3u8_unmatched browser title season episode st q r data names :
  title ≠ [] →
  Url.quote_plus title = Return q →
  requests_get (lit "https://api.themoviedb.org/3/search/multi?api_key="
                ++ TMDB_API_KEY ++ lit "&query=" ++ q) = Return r →
  response_json r = Return data →
  mapM display_name (default [] (data !! "results"%string)) = Return names →
  (∀ name, name ∈ names → (token_sort_ratio title name <= 60)%Q) →
  get_m3u8 browser (Some title) season episode st
  = (Return (plain [] 404),
     sent (lit "https://api.themoviedb.org/3/search/multi?api_key="
           ++ TMDB_API_KEY ++ lit "&query=" ++ q) st,
     0%nat).
Proof.
  intros Ht Hq Hr Hdata Hnames Hlow.
  unfold get_m3u8. cbn [present]. rewrite (truthy_nonempty _ Ht). cbn [negb].
  change (default [] (Some title)) with title.
  assert (find_player title season episode st
          = (Return (inl (plain [] 404)),
             sent (lit "https://api.themoviedb.org/3/search/multi?api_key="
                   ++ TMDB_API_KEY ++ lit "&query=" ++ q) st)) as ->; [|done].
  unfold find_player, search_tmdb, mbind, action_bind, lift, http_get.
  rewrite Hq, Hr, Hdata. cbn [mret action_ret].
  by rewrite (get_best_match_low _ _ _ Hnames Hlow).
Qed.

(** *** The cache of a running server *)

Lemma segment_cache u st :
  playlist_cache (segment u st).2 = playlist_cache st.
Proof.
  destruct u as [[|c u]|]; [done| |done].
  unfold segment. cbn [Py.truthy negb].
  unfold mbind, action_bind, action_try. rewrite fetch_bytes_run.
  by destruct (fetched (Url.unquote_plus (c :: u))).
Qed.

Lemma autocomplete_tracks q : tracks (autocomplete q) 1 (fun _ _ => True).
Proof.
  unfold autocomplete. destruct (Py.truthy (Py.strip q)); cbn [negb];
    [|by apply tracks_ret].
  eapply (tracks_bind _ _ 1 0 _ (fun _ k => k = 1%nat));
    [apply search_tmdb_tracks| |lia].
  intros results ? ->.
  eapply (tracks_bind _ _ 0 0 _ (fun _ k => k = 0%nat)); [by apply tracks_lift| |lia].
  intros names ? ->. by apply tracks_ret.
Qed.

Lemma serve_sound st req : cache_sound st → cache_sound (serve st req).
Proof.
  intros Hst. destruct req as [url now|u|q|browser title season episode];
    cbn [serve].
  - destruct (proxy_playlist_cache_after url now st)
      as [Heq|(u & pl_bytes & rewritten & _ & Hu & Hf & Hrw & Heq)];
      intros k e; rewrite Heq; [by apply Hst|].
    destruct (decide (u = k)) as [->|Hne].
    + rewrite lookup_insert_eq. intros [= <-]. split; [done|]. by exists pl_bytes.
    + rewrite lookup_insert_ne by done. by apply Hst.
  - intros k e. rewrite segment_cache. by apply Hst.
  - intros k e. destruct (autocomplete_tracks q st) as [-> _]. by apply Hst.
  - intros k e.
    destruct (get_m3u8_tracks browser title season episode st) as [-> _].
    by apply Hst.
Qed.

Lemma after_sound reqs : cache_sound (after reqs).
Proof.
  unfold after. induction reqs as [|req reqs IH] using rev_ind.
  - intros k e Hk. cbn [foldl playlist_cache] in Hk. by rewrite lookup_empty in Hk.
  - rewrite foldl_app. cbn [foldl]. by apply serve_sound.
Qed.

(** The answer to a request that goes to the origin does not depend on
    the state. *)
Lemma proxy_playlist_fetch_answer url now st st' :
  (proxy_playlist_fetch url now st).1 = (proxy_playlist_fetch url now st').1.
Proof.
  destruct (fetched url) as [pl_bytes|e] eqn:Hf.
  - destruct (rewrite_playlist url (Url.utf8_decode Url.errors_ignore pl_bytes))
      as [rewritten|e] eqn:Hrw.
    + by rewrite !(proxy_playlist_fetch_stored _ _ _ _ _ Hf Hrw).
    + by rewrite !(proxy_playlist_fetch_raised _ _ _ _ _ Hf Hrw).
  - by rewrite !(proxy_playlist_fetch_failed _ _ _ _ Hf).
Qed.

(** X17.  On a server that started with an empty cache and has served any
    requests one after the other, every cache entry is under a non-empty
    key and holds the rewritten form of what the origin serves for that
    key; so, towards an origin whose answers do not change, a request to
    [/proxy_playlist] is answered from the cache as it would be answered
    without any cache. *)
Theorem proxy_playlist_cache_transparent reqs url now :
  cache_sound (after reqs)
  ∧ (proxy_playlist url now (after reqs)).1
    = (proxy_playlist url now (AppState ∅ [])).1.
Proof.
  pose proof (after_sound reqs) as Hsound. split; [done|].
  destruct url as [[|c u]|]; [done| |done].
  rewrite !proxy_playlist_run by done.
  assert (fresh (AppState ∅ []) (c :: u) now = None) as -> by done.
  destruct (fresh (after reqs) (c :: u) now) as [entry|] eqn:Hfresh;
    [|apply proxy_playlist_fetch_answer].
  unfold fresh in Hfresh.
  destruct (playlist_cache (after reqs) !! (c :: u)) as [entry'|] eqn:Hk; [|done].
  destruct (Qltb (now - ts entry') CACHE_TTL); [|done]. injection Hfresh as ->.
  destruct (Hsound _ _ Hk) as (_ & pl_bytes & Hf & Hrw).
  by rewrite (proxy_playlist_fetch_stored _ _ _ _ _ Hf Hrw).
Qed.

End App.

(** ** The definitions at work *)

Example splitlines_crlf :
  Py.splitlines (lit "a" ++ [13; 10] ++ lit "b" ++ [10; 10] ++ lit "c" ++ [10])
  = [lit "a"; lit "b"; []; lit "c"].
Proof. reflexivity. Qed.

Example strip_directive : Py.strip (lit "  #EXTM3U  ") = lit "#EXTM3U".
Proof. reflexivity. Qed.

Example str_of_int_120 : Py.str_of_int 120 = lit "120".
Proof. reflexivity. Qed.

Example quote_plus_url :
  Url.quote_plus (lit "http://h/a b+c?x=1&y=" ++ [0xE9; 0x20AC; 0x1F600])
  = Return (lit "http%3A%2F%2Fh%2Fa+b%2Bc%3Fx%3D1%26y%3D%C3%A9%E2%82%AC%F0%9F%98%80").
Proof. reflexivity. Qed.

Example quote_plus_surrogate :
  Url.quote_plus (lit "a" ++ [0xD800]) = Raise Url.UnicodeEncodeError.
Proof. reflexivity. Qed.

Example unquote_plus_url :
  Url.unquote_plus
    (lit "http%3A%2F%2Fh%2Fa+b%2Bc%3Fx%3D1%26y%3D%C3%A9%E2%82%AC%F0%9F%98%80")
  = lit "http://h/a b+c?x=1&y=" ++ [0xE9; 0x20AC; 0x1F600].
Proof. reflexivity. Qed.

Example unquote_stray_percent : Url.unquote (lit "%zz%4") = lit "%zz%4".
Proof. reflexivity. Qed.

Example unquote_ill_formed :
  Url.unquote (lit "%E2%82x%C0%AF") = [0xFFFD] ++ lit "x" ++ [0xFFFD; 0xFFFD].
Proof. reflexivity. Qed.

Example decode_ignore :
  Url.utf8_decode Url.errors_ignore ([0xC3; 0xA9; 0xFF] ++ lit ".ts")
  = [0xE9] ++ lit ".ts".
Proof. reflexivity. Qed.

(** The variants of the sample master playlist, with their keys. *)
Example variant_keys :
  map (fun v => (v !!! 1%nat, variant_key Sample.ascii_decimal v))
      (Re.findall variant_re Sample.master_text)
  = [ (lit "lo/index.m3u8", Return 480); (lit "hi/index.m3u8", Return 1080);
      (lit "audio/index.m3u8", Return 0); (lit "alt/index.m3u8", Return 1080) ].
Proof. vm_compute. reflexivity. Qed.

(** The same variants, read off the text. *)
Example variants_of_master :
  map (variant_of_groups Sample.ascii_decimal)
      (Re.findall variant_re Sample.master_text)
  = [ Variant (lit "BANDWIDTH=800000,RESOLUTION=854x480") (lit "lo/index.m3u8")
        (Some (lit "480"));
      Variant (lit "BANDWIDTH=5000000,RESOLUTION=1920x1080") (lit "hi/index.m3u8")
        (Some (lit "1080"));
      Variant (lit "BANDWIDTH=64000") (lit "audio/index.m3u8") None;
      Variant (lit "BANDWIDTH=6000000,RESOLUTION=1440x1080") (lit "alt/index.m3u8")
        (Some (lit "1080")) ].
Proof. vm_compute. reflexivity. Qed.

(** [int] reads 4300 digits and refuses 4301. *)
Example int_of_long_digits :
  int_of_digits Sample.ascii_decimal (replicate 4300 48 ++ lit "7") = Raise (IntDigitsError 4301)
  ∧ int_of_digits Sample.ascii_decimal (replicate 4299 48 ++ lit "7") = Return 7
  ∧ exn_text (IntDigitsError 4301)
    = lit "Exceeds the limit (4300 digits) for integer string conversion: value has 4301 digits; use sys.set_int_max_str_digits() to increase the limit".
Proof. repeat split; vm_compute; reflexivity. Qed.

(** A height of 4301 digits in the manifest is the end of the
    selection. *)
Example best_variant_of_long_height :
  (get_best_variant Sample.urljoin
     (fun _ => Return (HttpResponse 200 []
                         (lit "#EXT-X-STREAM-INF:RESOLUTION=1x" ++ replicate 4301 49
                          ++ [10] ++ lit "a.m3u8")))
     Sample.ascii_decimal Sample.master_url (AppState ∅ [])).1
  = Raise (IntDigitsError 4301).
Proof. vm_compute. reflexivity. Qed.

(** 1080 lines beat 480, and the first of the two 1080 variants wins. *)
Example best_variant_of_master :
  (get_best_variant Sample.urljoin Sample.requests_get Sample.ascii_decimal
     Sample.master_url (AppState ∅ [])).1
  = Return (lit "http://cdn.example/live/hi/index.m3u8").
Proof. vm_compute. reflexivity. Qed.

(** A media playlist has no variants and stands for itself. *)
Example best_variant_of_media :
  (get_best_variant Sample.urljoin Sample.requests_get Sample.ascii_decimal
     Sample.media_url (AppState ∅ [])).1
  = Return Sample.media_url.
Proof. vm_compute. reflexivity. Qed.

Example rewrite_media_playlist :
  rewrite_playlist Sample.urljoin Sample.media_url Sample.media_text
  = Return (Py.join [10]
      [ lit "#EXTM3U"; lit "#EXT-X-TARGETDURATION:4"; []; lit "#EXTINF:4.0,";
        lit "/segment?u=http%3A%2F%2Fcdn.example%2Flive%2Fhi%2Fseg+1.ts&i=0";
        lit "  #EXTINF:4.0,";
        lit "/segment?u=http%3A%2F%2Fother.example%2Fb%2Fseg2.ts%3Ft%3Da%2Bb%26k%3D%C3%A9&i=1";
        lit "#EXT-X-ENDLIST" ]).
Proof. vm_compute. reflexivity. Qed.

(** A segment line that [urljoin] refuses is the end of the rewrite, and
    of the request to [/proxy_playlist]: nothing is stored. *)
Example rewrite_refused_line :
  rewrite_playlist Sample.urljoin Sample.bad_url Sample.bad_text
  = Raise (Exn "ValueError" (lit "Invalid IPv6 URL"))
  ∧ proxy_playlist Sample.urljoin Sample.requests_get (Some Sample.bad_url) 0
      (AppState ∅ [])
    = (Raise (Exn "ValueError" (lit "Invalid IPv6 URL")),
       AppState ∅ [Sample.bad_url]).
Proof. split; vm_compute; reflexivity. Qed.

(** Two requests for that manifest, one after the other: both go
    upstream. *)
Example two_requests_refused_line :
  run Sample.urljoin Sample.requests_get
    [(0%nat, 0%Q); (0%nat, 1%Q); (1%nat, 2%Q); (1%nat, 3%Q)]
    (two_requests Sample.bad_url, AppState ∅ [])
  = ([Done (Raise (Exn "ValueError" (lit "Invalid IPv6 URL")));
      Done (Raise (Exn "ValueError" (lit "Invalid IPv6 URL")))],
     AppState ∅ [Sample.bad_url; Sample.bad_url]).
Proof. vm_compute. reflexivity. Qed.

(** The calls of the playing session up to its end, and what the page
    requested during them. *)
Example heard_in_playing_session :
  length (opening Sample.playing_session) = 6%nat
  ∧ length (waiting Sample.playing_session) = 3%nat
  ∧ raising Sample.playing_session = false
  ∧ heard Sample.playing_session
    = [ lit "http://player.example/embed/1";
        lit "http://player.example/poster.jpg";
        lit "http://cdn.example/live/key.bin";
        lit "http://cdn.example/live/master.m3u8?t=1";
        lit "http://cdn.example/live/hi/index.m3u8" ].
Proof. repeat split; vm_compute; reflexivity. Qed.

(** The player starts at the third launch: three sessions, and the first
    of the two manifests requested. *)
Example capture_at_third_attempt :
  capture_first_m3u8 Sample.browser_third (lit "http://player.example/embed/1") 3
  = (Return (Some (lit "http://cdn.example/live/master.m3u8?t=1")), 3%nat).
Proof. vm_compute. reflexivity. Qed.

(** The player never starts: three sessions, then [None]. *)
Example capture_gives_up :
  capture_first_m3u8 Sample.browser_never (lit "http://player.example/embed/1") 3
  = (Return None, 3%nat).
Proof. vm_compute. reflexivity. Qed.

(** The browser does not start at the second launch: its exception ends
    the capture. *)
Example capture_raises :
  capture_first_m3u8 Sample.browser_broken (lit "http://player.example/embed/1") 3
  = (Raise PlaywrightError, 2%nat).
Proof. vm_compute. reflexivity. Qed.

Example best_match_dune :
  get_best_match Sample.ratio (lit "dune") Sample.catalog
  = Return (Some (Sample.movie "9" "dune")).
Proof. vm_compute. reflexivity. Qed.

Example best_match_nothing :
  get_best_match Sample.ratio (lit "zzzzzzzzzz") Sample.catalog = Return None.
Proof. vm_compute. reflexivity. Qed.

(** An entry without the name that the code reads. *)
Example best_match_key_error :
  get_best_match Sample.ratio (lit "dune")
    [ {[ "media_type"%string := lit "movie" ]} ]
  = Raise (KeyError "title").
Proof. vm_compute. reflexivity. Qed.

(** A request without its parameter is answered 400 and nothing goes
    upstream. *)
Example segment_without_u :
  segment Sample.requests_get (Some []) (AppState ∅ [])
  = (Return (plain (lit "Missing u param") 400), AppState ∅ []).
Proof. reflexivity. Qed.

(** A segment of a host out of reach is answered 502, after one request
    upstream. *)
Example segment_out_of_reach :
  segment Sample.requests_get (Some (lit "http%3A%2F%2Fdown.example%2F1.ts"))
    (AppState ∅ [])
  = (Return (plain (lit "Failed to fetch remote segment: Max retries exceeded") 502),
     AppState ∅ [lit "http://down.example/1.ts"]).
Proof. vm_compute. reflexivity. Qed.

Example proxy_playlist_without_url :
  proxy_playlist Sample.urljoin Sample.requests_get None 0 (AppState ∅ [])
  = (Return (plain (lit "Missing url param") 400), AppState ∅ []).
Proof. reflexivity. Qed.

(** The query string of a link that [rewrite_playlist] writes, as Flask
    reads it. *)
Example parse_qsl_segment_link :
  Url.parse_qsl (lit "u=http%3A%2F%2Fcdn.example%2Flive%2Fhi%2Fseg%2B1.ts&i=0")
  = [(lit "u", lit "http://cdn.example/live/hi/seg+1.ts"); (lit "i", lit "0")].
Proof. vm_compute. reflexivity. Qed.

Example parse_qsl_blanks :
  Url.parse_qsl (lit "a&b=&=c&&u=1=2;u=3")
  = [(lit "a", []); (lit "b", []); ([], lit "c"); (lit "u", lit "1=2;u=3")].
Proof. vm_compute. reflexivity. Qed.

(** A request without a [u] in its query string. *)
Example segment_route_without_u :
  segment_route Sample.requests_get (lit "i=0") (AppState ∅ [])
  = (Return (plain (lit "Missing u param") 400), AppState ∅ []).
Proof. vm_compute. reflexivity. Qed.

(** A frame whose source [urljoin] refuses. *)
Example iframe_refused_src :
  (get_player_iframe_src Sample.urljoin
     (fun _ => Return (HttpResponse 200 []
                         (lit "<iframe id='p' src='/" ++ [9] ++ lit "/[bad'>")))
     Sample.embed_url (AppState ∅ [])).1
  = Raise (Exn "ValueError" (lit "Invalid IPv6 URL")).
Proof. vm_compute. reflexivity. Qed.

(** The frame of the sample embed page. *)
Example iframe_of_embed_page :
  ReExt.search iframe_re Sample.embed_page = Some [lit "//player.example/rcp/abc"].
Proof. vm_compute. reflexivity. Qed.

(** Of two quoted [src=] before the first [>], the pattern takes the
    last, also when it belongs to another attribute name. *)
Example iframe_last_src :
  ReExt.search iframe_re (lit "<iframe src='a' data-src='b' width='1'>")
  = Some [lit "b"].
Proof. vm_compute. reflexivity. Qed.

(** The film Dune, resolved: search, external ids, embed page, two
    browser sessions, and the best variant of the captured manifest. *)
Example resolve_dune :
  get_m3u8 Sample.urljoin Sample.site_get Sample.ascii_decimal Sample.ratio
    Sample.response_json Sample.ascii_lower Sample.json_object
    Sample.browser_second (Some (lit "Dune")) None None (AppState ∅ [])
  = (Return (plain (lit "http://cdn.example/live/hi/index.m3u8") 200),
     AppState ∅
       [ lit "https://api.themoviedb.org/3/search/multi?api_key=123240ec331a97bb476ad9a05f86c3bf&query=Dune";
         lit "https://api.themoviedb.org/3/movie/841/external_ids?api_key=123240ec331a97bb476ad9a05f86c3bf";
         Sample.embed_url;
         Sample.master_url ],
     2%nat).
Proof. vm_compute. reflexivity. Qed.

(** The packets of the sample stream: the six whole ones. *)
Example extract_sample_stream :
  find_mpeg_ts_start Sample.ts_stream 5 = Some 3%nat
  ∧ extract_ts_packets Sample.ts_stream = take (6 * 188) (drop 3 Sample.ts_stream).
Proof. split; vm_compute; reflexivity. Qed.

(** Without five packets to follow there is no start, and the copy runs
    from the first byte 0x47, here a byte of another kind of data. *)
Example extract_short_stream :
  find_mpeg_ts_start (take 300 Sample.ts_stream) 5 = None
  ∧ extract_ts_packets (take 300 Sample.ts_stream)
    = take 188 (drop 1 Sample.ts_stream).
Proof. split; vm_compute; reflexivity. Qed.

(** ** The theorems on the sample surroundings *)



(** C10 on the sample origin: the manifest that is gone. *)
Lemma proxy_playlist_failed_fetch_witness :
  Sample.gone_url ≠ []
  ∧ fresh (AppState {[ Sample.media_url := CacheEntry (lit "#EXTM3U") 3 ]} [])
          Sample.gone_url 4 = None
  ∧ fetched Sample.requests_get Sample.gone_url = Raise HTTPError
  ∧ ∃ text st',
      proxy_playlist Sample.urljoin Sample.requests_get (Some Sample.gone_url) 4
        (AppState {[ Sample.media_url := CacheEntry (lit "#EXTM3U") 3 ]} [])
      = (Return (plain text 502), st')
      ∧ playlist_cache st'
        = {[ Sample.media_url := CacheEntry (lit "#EXTM3U") 3 ]}
      ∧ upstream st' = [] ++ [Sample.gone_url].
Proof.
  assert (Sample.gone_url ≠ []) as Hu by discriminate.
  assert (fresh (AppState {[ Sample.media_url := CacheEntry (lit "#EXTM3U") 3 ]} [])
            Sample.gone_url 4 = None) as Hmiss by (vm_compute; reflexivity).
  assert (fetched Sample.requests_get Sample.gone_url = Raise HTTPError) as Hf
    by (vm_compute; reflexivity).
  split; [exact Hu|]. split; [exact Hmiss|]. split; [exact Hf|].
  exact (proxy_playlist_failed_fetch Sample.urljoin Sample.requests_get
           Sample.gone_url 4 _ HTTPError Hu Hmiss Hf).
Defined.

(** C7, as the code has it, on a link to the segment with a [+] in its
    name: the relay fetches, and answers with, the segment with a space
    in its name. *)
Lemma segment_decodes_twice_witness :
  Url.quote_plus Sample.plus_url
  = Return (lit "http%3A%2F%2Fcdn.example%2Flive%2Fhi%2Fseg%2B1.ts")
  ∧ Flask.args_get (lit "u")
      (lit "u=http%3A%2F%2Fcdn.example%2Flive%2Fhi%2Fseg%2B1.ts&i=0")
    = Some Sample.plus_url
  ∧ segment_route Sample.requests_get
      (lit "u=http%3A%2F%2Fcdn.example%2Flive%2Fhi%2Fseg%2B1.ts&i=0")
      (AppState ∅ [])
    = (Return (Response 200 (Bytes Sample.segment_bytes) "video/MP2T"
                 {[ "Content-Length"%string :=
                      Py.str_of_int (N.of_nat (length Sample.segment_bytes)) ]}),
       sent (Url.unquote_plus Sample.plus_url) (AppState ∅ []))
  ∧ Url.unquote_plus Sample.plus_url = Sample.seg_url
  ∧ fetched Sample.requests_get Sample.plus_url = Return Sample.plus_bytes.
Proof.
  assert (Url.quote_plus Sample.plus_url
          = Return (lit "http%3A%2F%2Fcdn.example%2Flive%2Fhi%2Fseg%2B1.ts"))
    as Hq by (vm_compute; reflexivity).
  assert (Sample.plus_url ≠ []) as Hne by discriminate.
  destruct (segment_decodes_twice Sample.requests_get Sample.plus_url _
              (lit "&i=0") (AppState ∅ []) Hq Hne
              (or_intror (ex_intro _ (lit "i=0") eq_refl)))
    as (Hargs & Hrun & _).
  assert (fetched Sample.requests_get (Url.unquote_plus Sample.plus_url)
          = Return Sample.segment_bytes) as Hfetch by (vm_compute; reflexivity).
  rewrite Hfetch in Hrun.
  split; [exact Hq|]. split; [exact Hargs|]. split; [exact Hrun|].
  split; vm_compute; reflexivity.
Defined.

(** C4 on four requests, two of them for manifests. *)
Lemma capture_slot_written_once_witness :
  listen [lit "http://a/x.js"; lit "http://a/1.m3u8"; lit "http://a/y.ts";
          lit "http://a/2.m3u8"] None
  = Some (lit "http://a/1.m3u8")
  ∧ assignments [lit "http://a/y.ts"; lit "http://a/2.m3u8"]
      (listen [lit "http://a/x.js"; lit "http://a/1.m3u8"] None) = 0%nat.
Proof.
  destruct (capture_slot_written_once
              [lit "http://a/x.js"; lit "http://a/1.m3u8"; lit "http://a/y.ts";
               lit "http://a/2.m3u8"]) as (Hfirst & _ & Hlater).
  split; [exact Hfirst|].
  exact (proj2 (Hlater [lit "http://a/x.js"; lit "http://a/1.m3u8"]
                  [lit "http://a/y.ts"; lit "http://a/2.m3u8"] eq_refl eq_refl)).
Defined.




(** C8 on the sample catalog. *)
Lemma get_best_match_threshold_witness :
  mapM display_name Sample.catalog
  = Return [lit "Dune"; lit "DUNE"; lit "Dune"; lit "Dunkirk"; lit "The Dunes";
            lit "dune"; lit "Doom"]
  ∧ get_best_match Sample.ratio (lit "zzzzzzzzzz") Sample.catalog = Return None
  ∧ ∃ (idx : nat) r best,
      get_best_match Sample.ratio (lit "Dunes") Sample.catalog = Return (Some r)
      ∧ Sample.catalog !! idx = Some r
      ∧ (60 < Sample.ratio (lit "Dunes") best)%Q.
Proof.
  assert (mapM display_name Sample.catalog
          = Return [lit "Dune"; lit "DUNE"; lit "Dune"; lit "Dunkirk";
                    lit "The Dunes"; lit "dune"; lit "Doom"]) as Hnames
    by (vm_compute; reflexivity).
  split; [exact Hnames|]. split.
  - apply (proj1 (proj2 (get_best_match_threshold Sample.ratio (lit "zzzzzzzzzz")
                           _ _ Hnames))).
    intros name Hin. repeat (apply elem_of_cons in Hin as [->|Hin]);
      [vm_compute; discriminate..|by apply elem_of_nil in Hin].
  - destruct (proj2 (proj2 (get_best_match_threshold Sample.ratio (lit "Dunes")
                              _ _ Hnames)))
      as (idx & r & best & Hrun & Hr & _ & Hhigh & _).
    { exists (lit "Dune"). split; [left|vm_compute; reflexivity]. }
    by exists idx, r, best.
Defined.

(** C9, as the code has it, on the sample catalog. *)
Lemma autocomplete_top_names_witness :
  Py.strip (lit " dune ") ≠ []
  ∧ ∃ (top : list (list N * Q * nat)) st',
      autocomplete Sample.requests_get Sample.ratio Sample.response_json
        (lit " dune ") (AppState ∅ [])
      = (Return (map (fun m => m.1.1) top), st')
      ∧ length top = 5%nat
      ∧ distinct_names Sample.ascii_lower
          (uniqueSuggestions Sample.ascii_lower (map (fun m => m.1.1) top)).
Proof.
  assert (Py.strip (lit " dune ") ≠ []) as Hq by (vm_compute; discriminate).
  assert (mapM display_name Sample.catalog
          = Return [lit "Dune"; lit "DUNE"; lit "Dune"; lit "Dunkirk";
                    lit "The Dunes"; lit "dune"; lit "Doom"]) as Hnames
    by (vm_compute; reflexivity).
  assert (search_tmdb Sample.requests_get Sample.response_json
            (Py.strip (lit " dune ")) (AppState ∅ [])
          = (Return Sample.catalog,
             AppState ∅ [lit "https://api.themoviedb.org/3/search/multi?api_key=123240ec331a97bb476ad9a05f86c3bf&query=dune"]))
    as Hsearch by reflexivity.
  split; [exact Hq|].
  pose proof (autocomplete_top_names Sample.requests_get Sample.ratio
                Sample.response_json Sample.ascii_lower (lit " dune ")
                (AppState ∅ []) Sample.catalog _ _ Hq Hsearch Hnames) as Htop.
  destruct Htop as (top & rest & Hrun & _ & Hlen & _ & _ & Hdistinct & _).
  exists top. eexists. split; [exact Hrun|]. split; [exact Hlen|exact Hdistinct].
Defined.

(** C9 as stated fails on the sample catalog: the query [dune] is
    answered with the name [Dune] twice. *)
Lemma autocomplete_returns_duplicates :
  (autocomplete Sample.requests_get Sample.ratio Sample.response_json
     (lit "dune") (AppState ∅ [])).1
  = Return [lit "dune"; lit "Dune"; lit "Dune"; lit "Dunkirk"; lit "DUNE"]
  ∧ ¬ distinct_names Sample.ascii_lower
        [lit "dune"; lit "Dune"; lit "Dune"; lit "Dunkirk"; lit "DUNE"].
Proof.
  split; [vm_compute; reflexivity|].
  intros H. apply (H 1%nat 2%nat (lit "Dune") (lit "Dune")); try reflexivity.
  discriminate.
Defined.

(** C3, as the code has it, on the sample origin. *)
Lemma proxy_playlist_no_coalescing_witness :
  Sample.media_url ≠ []
  ∧ ∃ rewritten,
      (run Sample.urljoin Sample.requests_get
         [(0%nat, 10%Q); (0%nat, 11%Q); (1%nat, 12%Q)]
         (two_requests Sample.media_url, AppState ∅ [])).2
      = AppState (<[Sample.media_url := CacheEntry rewritten 10]> ∅)
                 ([] ++ [Sample.media_url])
      ∧ upstream
          (run Sample.urljoin Sample.requests_get
             [(0%nat, 10%Q); (1%nat, 11%Q); (0%nat, 12%Q); (1%nat, 13%Q)]
             (two_requests Sample.media_url, AppState ∅ [])).2
        = [] ++ [Sample.media_url; Sample.media_url]
      ∧ upstream
          (run Sample.urljoin Sample.requests_get
             [(0%nat, 10%Q); (1%nat, 11%Q); (1%nat, 12%Q); (0%nat, 13%Q)]
             (two_requests Sample.media_url, AppState ∅ [])).2
        = [] ++ [Sample.media_url; Sample.media_url].
Proof.
  assert (Sample.media_url ≠ []) as Hu by discriminate.
  split; [exact Hu|].
  pose proof (proxy_playlist_no_coalescing Sample.urljoin Sample.requests_get
                Sample.media_url
                (lit "#EXTM3U" ++ [10] ++ lit "a.ts" ++ [10]
                 ++ [0xC3; 0xA9; 0xFF] ++ lit ".ts")
                (AppState ∅ []) 10 11 12 13 Hu) as H.
  destruct (rewrite_playlist Sample.urljoin Sample.media_url
              (Url.utf8_decode Url.errors_ignore
                 (lit "#EXTM3U" ++ [10] ++ lit "a.ts" ++ [10]
                  ++ [0xC3; 0xA9; 0xFF] ++ lit ".ts")))
    as [rewritten|e] eqn:Hrw; [|vm_compute in Hrw; discriminate Hrw].
  destruct H as (Hserial & Htwice); [vm_compute; reflexivity..|].
  destruct Htwice as [Hfirst Hsecond]; [vm_compute; reflexivity|].
  exists rewritten. split; [|split].
  - rewrite Hserial; [reflexivity|]. vm_compute. reflexivity.
  - rewrite Hfirst. reflexivity.
  - rewrite Hsecond. reflexivity.
Defined.

(** C3 as stated fails on the sample origin: when the two requests take
    turns, both find the cache empty and both go upstream. *)
Lemma two_requests_two_fetches :
  ¬ coalesces Sample.urljoin Sample.requests_get Sample.media_url.
Proof.
  intros H.
  assert (length (upstream
            (run Sample.urljoin Sample.requests_get
               [(0%nat, 0%Q); (1%nat, 1%Q); (0%nat, 2%Q); (1%nat, 3%Q)]
               (two_requests Sample.media_url, AppState ∅ [])).2) = 1%nat)
    as Hone.
  { apply (H [(0%nat, 0%Q); (1%nat, 1%Q); (0%nat, 2%Q); (1%nat, 3%Q)]
             (run Sample.urljoin Sample.requests_get
                [(0%nat, 0%Q); (1%nat, 1%Q); (0%nat, 2%Q); (1%nat, 3%Q)]
                (two_requests Sample.media_url, AppState ∅ [])).1).
    - repeat constructor; vm_compute; congruence.
    - apply surjective_pairing.
    - vm_compute. reflexivity. }
  vm_compute in Hone. discriminate Hone.
Defined.

(** X1 on the sample stream: the byte 0x47 at place 1 has no packets
    behind it, the one at place 3 has. *)
Lemma find_mpeg_ts_start_first_witness :
  find_mpeg_ts_start Sample.ts_stream 5 = Some 3%nat
  ∧ sync_run Sample.ts_stream 5 3 ∧ ¬ sync_run Sample.ts_stream 5 1.
Proof.
  assert (find_mpeg_ts_start Sample.ts_stream 5 = Some 3%nat) as Hstart
    by (vm_compute; reflexivity).
  pose proof (find_mpeg_ts_start_first Sample.ts_stream 5) as H.
  rewrite Hstart in H. destruct H as (_ & Hrun & Hmin).
  split; [exact Hstart|]. split; [exact Hrun|]. apply Hmin. lia.
Defined.

(** X2 on the sample stream. *)
Lemma extract_ts_packets_synced_witness :
  find_mpeg_ts_start Sample.ts_stream 5 = Some 3%nat
  ∧ ∃ count,
      extract_ts_packets Sample.ts_stream
      = take (188 * count) (drop 3 Sample.ts_stream)
      ∧ (5 ≤ count)%nat.
Proof.
  assert (find_mpeg_ts_start Sample.ts_stream 5 = Some 3%nat) as Hstart
    by (vm_compute; reflexivity).
  split; [exact Hstart|].
  destruct (extract_ts_packets_synced _ _ Hstart) as (count & Hout & H5 & _).
  exists count. split; [exact Hout|exact H5].
Defined.

(** X3 on the first 300 bytes of the sample stream. *)
Lemma extract_ts_packets_fallback_witness :
  find_mpeg_ts_start (take 300 Sample.ts_stream) 5 = None
  ∧ extract_ts_packets (take 300 Sample.ts_stream)
    = take (188 * ((length (take 300 Sample.ts_stream) - 1) `div` 188))
           (drop 1 (take 300 Sample.ts_stream)).
Proof.
  assert (find_mpeg_ts_start (take 300 Sample.ts_stream) 5 = None) as Hstart
    by (vm_compute; reflexivity).
  split; [exact Hstart|].
  apply (proj2 (extract_ts_packets_fallback _ Hstart) 1%nat).
  - reflexivity.
  - intros i Hi. assert (i = 0%nat) as -> by lia. discriminate.
Defined.

(** X4 on the sample stream. *)
Lemma extract_ts_packets_stretch_witness :
  ∃ start count,
    extract_ts_packets Sample.ts_stream
    = take (188 * count) (drop start Sample.ts_stream).
Proof.
  destruct (extract_ts_packets_stretch Sample.ts_stream)
    as (start & count & _ & Hout & _).
  exists start, count. exact Hout.
Defined.

(** X5 on the sample stream. *)
Lemma extract_ts_packets_idempotent_witness :
  find_mpeg_ts_start Sample.ts_stream 5 = Some 3%nat
  ∧ extract_ts_packets (extract_ts_packets Sample.ts_stream)
    = extract_ts_packets Sample.ts_stream.
Proof.
  assert (find_mpeg_ts_start Sample.ts_stream 5 = Some 3%nat) as Hstart
    by (vm_compute; reflexivity).
  split; [exact Hstart|]. exact (extract_ts_packets_idempotent _ _ Hstart).
Defined.

(** X6 on the sample origin: a request for the master playlist leaves
    the entry of the media playlist where it is. *)
Lemma proxy_playlist_keeps_entries_witness :
  Some Sample.master_url ≠ Some Sample.media_url
  ∧ playlist_cache
      (proxy_playlist Sample.urljoin Sample.requests_get (Some Sample.master_url) 100
         (AppState {[ Sample.media_url := CacheEntry (lit "#EXTM3U") 1 ]} [])).2
    !! Sample.media_url
    = (AppState {[ Sample.media_url := CacheEntry (lit "#EXTM3U") 1 ]} []).(playlist_cache)
      !! Sample.media_url.
Proof.
  assert (Some Sample.master_url ≠ Some Sample.media_url) as Hne
    by (intros H; vm_compute in H; discriminate H).
  split; [exact Hne|].
  exact (proj1 (proj2 (proxy_playlist_keeps_entries Sample.urljoin
                         Sample.requests_get (Some Sample.master_url) 100
                         (AppState {[ Sample.media_url := CacheEntry (lit "#EXTM3U") 1 ]} [])
                         Sample.media_url)) Hne).
Defined.

(** X7 on a manifest that is gone. *)
Lemma segment_answers_witness :
  ∃ r, (segment Sample.requests_get (Some Sample.gone_url) (AppState ∅ [])).1
       = Return r.
Proof.
  destruct (segment_answers Sample.requests_get (Some Sample.gone_url)
              (AppState ∅ [])) as (r & Hr & _).
  exists r. exact Hr.
Defined.

(** X8 on the URL of the manifest that is gone. *)
Lemma segment_plain_url_witness :
  Sample.gone_url ≠ [] ∧ (43 ∉ Sample.gone_url) ∧ (37 ∉ Sample.gone_url)
  ∧ (segment Sample.requests_get (Some Sample.gone_url) (AppState ∅ [])).2
    = sent Sample.gone_url (AppState ∅ []).
Proof.
  assert (Sample.gone_url ≠ []) as Hu by discriminate.
  assert (43 ∉ Sample.gone_url) as Hplus
    by (apply (bool_decide_unpack (43 ∉ Sample.gone_url)); vm_compute; exact I).
  assert (37 ∉ Sample.gone_url) as Hpct
    by (apply (bool_decide_unpack (37 ∉ Sample.gone_url)); vm_compute; exact I).
  split; [exact Hu|]. split; [exact Hplus|]. split; [exact Hpct|].
  exact (proj2 (segment_plain_url Sample.requests_get _ (AppState ∅ [])
                  Hu Hplus Hpct)).
Defined.

(** X9 on a segment URL with a [+]. *)
Lemma segment_plus_decoded_witness :
  43 ∈ lit "http://cdn.example/live/hi/seg+1.ts"
  ∧ ∃ url,
      (segment Sample.requests_get
         (Some (lit "http://cdn.example/live/hi/seg+1.ts")) (AppState ∅ [])).2
      = sent url (AppState ∅ [])
      ∧ url ≠ lit "http://cdn.example/live/hi/seg+1.ts".
Proof.
  assert (43 ∈ lit "http://cdn.example/live/hi/seg+1.ts") as Hin
    by (apply (bool_decide_unpack (43 ∈ lit "http://cdn.example/live/hi/seg+1.ts"));
        vm_compute; exact I).
  split; [exact Hin|].
  exact (segment_plus_decoded Sample.requests_get _ (AppState ∅ []) Hin).
Defined.

(** X10 on the playing session, whose page never finishes loading:
    [page.goto] raises, and the attempt goes on. *)
Lemma run_session_survives_witness :
  raises (goto Sample.playing_session) = true
  ∧ ∃ res, run_session Sample.playing_session = Return res.
Proof.
  split; [reflexivity|].
  destruct (run_session_survives Sample.playing_session) as (res & Hres & _).
  - reflexivity.
  - intros i _. cbn. destruct (decide (i = 2%nat)); reflexivity.
  - reflexivity.
  - exists res. exact Hres.
Defined.

(** X11 on a query with a space. *)
Lemma search_tmdb_request_witness :
  encodable (lit "dune 2") = true
  ∧ ∃ q,
      (search_tmdb Sample.requests_get Sample.response_json (lit "dune 2")
         (AppState ∅ [])).2
      = sent (lit "https://api.themoviedb.org/3/search/multi?api_key="
              ++ TMDB_API_KEY ++ lit "&query=" ++ q) (AppState ∅ [])
      ∧ Url.unquote_plus q = lit "dune 2".
Proof.
  assert (encodable (lit "dune 2") = true) as Henc by reflexivity.
  split; [exact Henc|].
  destruct (search_tmdb_request Sample.requests_get Sample.response_json
              (lit "dune 2") (AppState ∅ []) Henc) as (q & Hrun & _ & Hback).
  exists q. split; [exact Hrun|exact Hback].
Defined.

(** X12 on a film without its title behind a complete entry. *)
Lemma get_best_match_key_error_witness :
  display_name {[ "media_type"%string := lit "movie" ]} = Raise (KeyError "title")
  ∧ get_best_match Sample.ratio (lit "Dune")
      ([Sample.movie "841" "Dune"] ++ {[ "media_type"%string := lit "movie" ]} :: [])
    = Raise (KeyError "title").
Proof.
  assert (display_name {[ "media_type"%string := lit "movie" ]}
          = Raise (KeyError "title")) as Hr by (vm_compute; reflexivity).
  split; [exact Hr|].
  apply (proj1 (get_best_match_key_error Sample.ratio (lit "Dune")
                  [Sample.movie "841" "Dune"] _ [] _
                  ltac:(repeat constructor; eexists; vm_compute; reflexivity) Hr)).
Defined.

(** X13 on the sample embed page. *)
Lemma get_player_iframe_src_first_witness :
  Sample.site_get Sample.embed_url
  = Return (HttpResponse 200 Sample.embed_page Sample.embed_page)
  ∧ ∃ pre attrs g,
      iframe_src_at Sample.embed_page pre attrs g
      ∧ if Py.startswith g (lit "//") then Sample.player_url = lit "https:" ++ g
        else if Py.startswith g (lit "/")
             then Sample.urljoin Sample.embed_url g = Return Sample.player_url
             else Sample.player_url = g.
Proof.
  assert (Sample.site_get Sample.embed_url
          = Return (HttpResponse 200 Sample.embed_page Sample.embed_page)) as Hr
    by (vm_compute; reflexivity).
  split; [exact Hr|].
  destruct (get_player_iframe_src_first Sample.urljoin Sample.site_get
              Sample.embed_url _ (AppState ∅ []) Hr) as [_ H].
  assert ((get_player_iframe_src Sample.urljoin Sample.site_get Sample.embed_url
             (AppState ∅ [])).1 = Return (Some Sample.player_url)) as Hrun
    by (vm_compute; reflexivity).
  rewrite Hrun in H. destruct H as (pre & attrs & g & Hat & _ & Hsrc).
  exists pre, attrs, g. split; [exact Hat|exact Hsrc].
Defined.

(** X14 on the film Dune. *)
Lemma get_m3u8_effects_witness :
  playlist_cache
    (get_m3u8 Sample.urljoin Sample.site_get Sample.ascii_decimal Sample.ratio
       Sample.response_json Sample.ascii_lower Sample.json_object
       Sample.browser_second (Some (lit "Dune")) None None (AppState ∅ [])).1.2
  = ∅.
Proof.
  exact (proj1 (get_m3u8_effects Sample.urljoin Sample.site_get
                  Sample.ascii_decimal Sample.ratio Sample.response_json
                  Sample.ascii_lower Sample.json_object Sample.browser_second
                  (Some (lit "Dune")) None None (AppState ∅ []))).
Defined.


(** X16 on a title that matches nothing in the sample catalog. *)
Lemma get_m3u8_unmatched_witness :
  get_m3u8 Sample.urljoin Sample.site_get Sample.ascii_decimal Sample.ratio
    Sample.response_json Sample.ascii_lower Sample.json_object
    Sample.browser_second (Some (lit "zzzzzzzzzz")) None None (AppState ∅ [])
  = (Return (plain [] 404),
     sent (lit "https://api.themoviedb.org/3/search/multi?api_key="
           ++ TMDB_API_KEY ++ lit "&query=" ++ lit "zzzzzzzzzz") (AppState ∅ []),
     0%nat).
Proof.
  apply (get_m3u8_unmatched Sample.urljoin Sample.site_get Sample.ascii_decimal
           Sample.ratio Sample.response_json Sample.ascii_lower Sample.json_object
           Sample.browser_second (lit "zzzzzzzzzz") None None (AppState ∅ [])
           (lit "zzzzzzzzzz") (HttpResponse 200 (lit "{}") (lit "{}"))
           {[ "results"%string := Sample.catalog ]}
           [lit "Dune"; lit "DUNE"; lit "Dune"; lit "Dunkirk"; lit "The Dunes";
            lit "dune"; lit "Doom"]).
  - discriminate.
  - reflexivity.
  - vm_compute. reflexivity.
  - reflexivity.
  - vm_compute. reflexivity.
  - intros name Hin. repeat (apply elem_of_cons in Hin as [->|Hin]);
      [vm_compute; discriminate..|by apply elem_of_nil in Hin].
Defined.

(** X17 on the sample origin: the master playlist asked for again within
    the TTL, behind a request for a segment. *)
Lemma proxy_playlist_cache_transparent_witness :
  (proxy_playlist Sample.urljoin Sample.requests_get (Some Sample.master_url) 1
     (after Sample.urljoin Sample.requests_get Sample.ascii_decimal Sample.ratio
        Sample.response_json Sample.ascii_lower Sample.json_object
        [ProxyPlaylist (Some Sample.master_url) 0;
         Segment (Some Sample.gone_url)])).1
  = (proxy_playlist Sample.urljoin Sample.requests_get (Some Sample.master_url) 1
       (AppState ∅ [])).1.
Proof.
  exact (proj2 (proxy_playlist_cache_transparent Sample.urljoin
                  Sample.requests_get Sample.ascii_decimal Sample.ratio
                  Sample.response_json Sample.ascii_lower Sample.json_object
                  [ProxyPlaylist (Some Sample.master_url) 0;
                   Segment (Some Sample.gone_url)]
                  (Some Sample.master_url) 1)).
Defined.
